(** * GeminiService: the moderation dispatch and batching engine

    A shallow embedding of [src/services/GeminiService.ts]: the
    text-heuristic extractor ([extractModerationFromText],
    [extractBatchResultsFromText]), the classifier gateway
    ([moderateMessage], [moderateMessageBatch], the plain and the
    streaming operation, the operations with a prompt of the operator)
    and the batching coordinator ([queueMessageForModeration]) together
    with the event loop it lives in (timers, in-flight HTTP calls,
    promises).

    Conventions of the embedding:
    - JavaScript values whose type is erased at run time (the HTTP reply,
      the arguments of a function call, parsed JSON) are [jsval]s;
    - a JavaScript exception is [None] in the option monad, [try/catch]
      is a [match] on it;
    - the network is an input: every gateway operation takes the outcome
      of its HTTP call ([HttpResult]) as an argument;
    - a finite double is given by the rational it is; reading a decimal
      text and dividing round to the nearest double, as the code does;
    - time is explicit where a statement needs it: events carry the time
      at which they happen and the runtime's handling of timers is a
      stated contract ([on_time]);
    - strings are UTF-8 byte strings; regular expressions run on the
      decoded code points. *)

From Stdlib Require Import ZArith NArith QArith List String Ascii Bool Lia.
From Stdlib Require Import Sorted Permutation.
From Stdlib Require DecimalString.
From stdpp Require Import gmap strings list.
Close Scope Q_scope.
Open Scope string_scope.
Open Scope list_scope.

(** ** Text: code points, UTF-8 *)

Definition ustring := list N.

Definition is_cont (b : N) : bool := ((128 <=? b) && (b <? 192))%N.

Fixpoint utf8_decode_bytes (bs : list N) : ustring :=
  match bs with
  | [] => []
  | b0 :: r0 =>
    if (b0 <? 128)%N then b0 :: utf8_decode_bytes r0
    else match r0 with
    | [] => [65533%N]
    | b1 :: r1 =>
      if ((192 <=? b0) && (b0 <? 224))%N && is_cont b1
      then ((b0 - 192) * 64 + (b1 - 128))%N :: utf8_decode_bytes r1
      else match r1 with
      | [] => 65533%N :: utf8_decode_bytes r0
      | b2 :: r2 =>
        if ((224 <=? b0) && (b0 <? 240))%N && is_cont b1 && is_cont b2
        then ((b0 - 224) * 4096 + (b1 - 128) * 64 + (b2 - 128))%N
               :: utf8_decode_bytes r2
        else match r2 with
        | [] => 65533%N :: utf8_decode_bytes r0
        | b3 :: r3 =>
          if ((240 <=? b0) && (b0 <? 248))%N
             && is_cont b1 && is_cont b2 && is_cont b3
          then ((b0 - 240) * 262144 + (b1 - 128) * 4096
                + (b2 - 128) * 64 + (b3 - 128))%N :: utf8_decode_bytes r3
          else 65533%N :: utf8_decode_bytes r0
        end
      end
    end
  end.

Definition utf8_encode_cp (c : N) : list N :=
  if (c <? 128)%N then [c]
  else if (c <? 2048)%N then [192 + c / 64; 128 + c mod 64]%N
  else if (c <? 65536)%N
  then [224 + c / 4096; 128 + (c / 64) mod 64; 128 + c mod 64]%N
  else [240 + c / 262144; 128 + (c / 4096) mod 64;
        128 + (c / 64) mod 64; 128 + c mod 64]%N.

Definition bytes_of_string (s : string) : list N :=
  map N_of_ascii (list_ascii_of_string s).

Definition string_of_bytes (bs : list N) : string :=
  string_of_list_ascii (map ascii_of_N bs).

(** [u s] is the text of the literal [s] as the engine sees it. *)
Definition u (s : string) : ustring := utf8_decode_bytes (bytes_of_string s).

Definition utf8 (cs : ustring) : string :=
  string_of_bytes (concat (map utf8_encode_cp cs)).

(** The double quote, which string literals of this file never hold. *)
Definition dquote : string := String "034"%char EmptyString.

(** ** Text: character classes *)

Definition in_range (lo hi c : N) : bool := ((lo <=? c) && (c <=? hi))%N.

(** Canonicalisation of a code unit under the [i] flag (upper-casing).
    It is exact on every code unit whose canonical form is that of a
    Latin letter A-Z or of a Cyrillic letter of U+0400..U+042F: the
    letters a-z, the letters U+0430..U+045F, and the historic letter
    forms U+1C80..U+1C88, which upper-case to letters of the basic
    alphabet (a character above U+007F whose upper case is an ASCII
    letter keeps itself).  The expressions of the service hold no other
    letter, so every other code unit can stand for itself. *)
Definition canon (c : N) : N :=
  if in_range 97 122 c then (c - 32)%N
  else if in_range 1072 1103 c then (c - 32)%N
  else if in_range 1104 1119 c then (c - 80)%N
  else if (c =? 7296)%N then 1042%N       (* U+1C80 -> U+0412 *)
  else if (c =? 7297)%N then 1044%N       (* U+1C81 -> U+0414 *)
  else if (c =? 7298)%N then 1054%N       (* U+1C82 -> U+041E *)
  else if (c =? 7299)%N then 1057%N       (* U+1C83 -> U+0421 *)
  else if in_range 7300 7301 c then 1058%N (* U+1C84, U+1C85 -> U+0422 *)
  else if (c =? 7302)%N then 1066%N       (* U+1C86 -> U+042A *)
  else if (c =? 7303)%N then 1122%N       (* U+1C87 -> U+0462 *)
  else if (c =? 7304)%N then 42570%N      (* U+1C88 -> U+A64A *)
  else c.

(** [String.prototype.toLowerCase], on the same alphabets. *)
Definition lower (c : N) : N :=
  if in_range 65 90 c then (c + 32)%N
  else if in_range 1040 1071 c then (c + 32)%N
  else if in_range 1024 1039 c then (c + 80)%N
  else c.

Definition toLowerCase (s : ustring) : ustring := map lower s.

(** [\d] *)
Definition is_digit (c : N) : bool := in_range 48 57 c.

(** [\s]: WhiteSpace and LineTerminator of ECMAScript. *)
Definition is_space (c : N) : bool :=
  in_range 9 13 c || (c =? 32)%N || (c =? 160)%N || (c =? 5760)%N
  || in_range 8192 8202 c || (c =? 8232)%N || (c =? 8233)%N
  || (c =? 8239)%N || (c =? 8287)%N || (c =? 12288)%N || (c =? 65279)%N.

(** [[а-я]] under the [i] flag: some member of the class has the same
    canonical form as the input. *)
Definition is_cyr_i (c : N) : bool := in_range 1040 1071 (canon c).

(** ** Text: a backtracking matcher for the regular expressions used *)

Inductive regex : Type :=
| Eps
| Class (f : N -> bool)
| Cat (a b : regex)
| Alt (a b : regex)
| Star (greedy : bool) (a : regex)
| Group (a : regex).

Definition Plus (a : regex) : regex := Cat a (Star true a).
Definition Opt (a : regex) : regex := Alt a Eps.

(** A literal, case-sensitive. *)
Definition lit (s : string) : regex :=
  fold_right (fun c r => Cat (Class (N.eqb c)) r) Eps (u s).

(** A literal under the [i] flag. *)
Definition liti (s : string) : regex :=
  fold_right (fun c r => Cat (Class (fun x => (canon x =? canon c)%N)) r)
             Eps (u s).

Fixpoint alts (rs : list regex) : regex :=
  match rs with
  | [] => Class (fun _ => false)
  | [r] => r
  | r :: rs' => Alt r (alts rs')
  end.

Definition mresult : Type := ustring * option ustring.

(** [rx r s cap k]: match [r] at the head of [s], then continue with [k]
    on the rest; alternatives and repetitions are tried in the priority
    order of ECMAScript (left alternative first, greedy repetition
    longest first, lazy repetition shortest first); an iteration of a
    repetition that consumes nothing is not considered. *)
Fixpoint rx (r : regex) (s : ustring) (cap : option ustring)
         (k : ustring -> option ustring -> option mresult) : option mresult :=
  match r with
  | Eps => k s cap
  | Class f =>
    match s with
    | c :: s' => if f c then k s' cap else None
    | [] => None
    end
  | Cat a b => rx a s cap (fun s' c' => rx b s' c' k)
  | Alt a b =>
    match rx a s cap k with
    | Some x => Some x
    | None => rx b s cap k
    end
  | Star g a =>
    (fix loop (n : nat) (s : ustring) (cap : option ustring) {struct n}
       : option mresult :=
       match n with
       | O => k s cap
       | S n' =>
         let again s' c' :=
           if (length s' <? length s)%nat then loop n' s' c' else None in
         if g
         then match rx a s cap again with
              | Some x => Some x
              | None => k s cap
              end
         else match k s cap with
              | Some x => Some x
              | None => rx a s cap again
              end
       end) (length s) s cap
  | Group a =>
    rx a s cap (fun s' _ => k s' (Some (take (length s - length s') s)))
  end.

(** A match anchored at the head of [s]: the rest and the capture. *)
Definition match_here (r : regex) (s : ustring) : option mresult :=
  rx r s None (fun s' c => Some (s', c)).

Record rmatch : Type := mkMatch {
  m_before : ustring;
  m_text : ustring;          (* match[0] *)
  m_after : ustring;
  m_group : option ustring   (* match[1] *)
}.

(** [String.prototype.match] with a non-global expression: the leftmost
    position at which the expression matches. *)
Fixpoint search_from (r : regex) (before_rev : ustring) (s : ustring)
  : option rmatch :=
  match match_here r s with
  | Some (s', c) =>
    Some (mkMatch (rev before_rev) (take (length s - length s') s) s' c)
  | None =>
    match s with
    | [] => None
    | c :: s' => search_from r (c :: before_rev) s'
    end
  end.

Definition search (r : regex) (s : ustring) : option rmatch :=
  search_from r [] s.

(** [RegExp.prototype.test] *)
Definition test (r : regex) (s : ustring) : bool :=
  match search r s with Some _ => true | None => false end.

(** [String.prototype.includes] *)
Definition includes (s : ustring) (needle : string) : bool :=
  test (lit needle) s.

(** [String.prototype.split] with an expression that never matches the
    empty string (true of the two expressions the service splits on). *)
Fixpoint split_loop (r : regex) (n : nat) (cur_rev : ustring) (s : ustring)
  : list ustring :=
  match n, s with
  | _, [] => [rev cur_rev]
  | O, _ => [rev cur_rev ++ s]
  | S n', c :: s' =>
    match match_here r s with
    | Some (rest, _) =>
      if (length rest <? length s)%nat
      then rev cur_rev :: split_loop r n' [] rest
      else split_loop r n' (c :: cur_rev) s'
    | None => split_loop r n' (c :: cur_rev) s'
    end
  end.

Definition split (r : regex) (s : ustring) : list ustring :=
  split_loop r (length s) [] s.

Fixpoint trim_start (s : ustring) : ustring :=
  match s with
  | c :: s' => if is_space c then trim_start s' else s
  | [] => []
  end.

(** [String.prototype.trim] *)
Definition trim (s : ustring) : ustring :=
  rev (trim_start (rev (trim_start s))).

(** ** Numbers *)

(** An ECMAScript number: a finite value is given by the rational it
    is (the two zeros are not told apart).  What the service computes is
    rounded to a double where the code rounds: when a decimal text is
    read and when a number is divided. *)
Inductive jsnum : Type :=
| NaN
| Inf (negative : bool)
| Fin (q : Q).

Definition num_of_Z (z : Z) : jsnum := Fin (inject_Z z).

(** [a / b] rounded to the nearest integer, ties to the even one, for
    [a >= 0] and [b > 0]. *)
Definition div_nearest_even (a b : Z) : Z :=
  let q := (a / b)%Z in
  let r := (a mod b)%Z in
  if (2 * r <? b)%Z then q
  else if (b <? 2 * r)%Z then (q + 1)%Z
  else if Z.even q then q else (q + 1)%Z.

(** [n / (d * 2^k)] rounded to an integer. *)
Definition scaled (n d k : Z) : Z :=
  if (0 <=? k)%Z then div_nearest_even n (d * 2 ^ k)
  else div_nearest_even (n * 2 ^ (- k)) d.

(** The exponent of the last place of the double nearest to [n / d],
    for [n, d > 0]: the [k] with [2^52 <= n / (d * 2^k) < 2^53], and
    [-1074] for the subnormal numbers. *)
Definition last_place (n d : Z) : Z :=
  let k := (Z.log2 n - Z.log2 d - 52)%Z in
  let below := if (0 <=? k)%Z then (n <? d * 2 ^ (k + 52))%Z
               else (n * 2 ^ (- k) <? d * 2 ^ 52)%Z in
  Z.max (if below then k - 1 else k) (-1074).

(** The double nearest to a rational, ties to even (IEEE 754 binary64,
    the Number type); an infinity beyond the largest double. *)
Definition round_double (q : Q) : jsnum :=
  let n := Z.abs (Qnum q) in
  let d := Zpos (Qden q) in
  if (n =? 0)%Z then Fin 0
  else
    let k := last_place n d in
    let m := scaled n d k in
    let negative := (Qnum q <? 0)%Z in
    if (971 <? k)%Z || ((k =? 971)%Z && (2 ^ 53 <=? m)%Z)
    then Inf negative
    else
      let v := if (0 <=? k)%Z then Qmake (m * 2 ^ k) 1
               else Qred (Qmake m (Z.to_pos (2 ^ (- k)))) in
      Fin (if negative then Qopp v else v).

Fixpoint span_digits (s : ustring) : ustring * ustring :=
  match s with
  | c :: s' =>
    if is_digit c
    then let '(d, r) := span_digits s' in (c :: d, r)
    else ([], s)
  | [] => ([], [])
  end.

Definition digits_value (ds : ustring) : Z :=
  fold_left (fun a d => (10 * a + Z.of_N (d - 48))%Z) ds 0%Z.

Definition pow10 (e : Z) : Q := Qpower (10 # 1) e.

(** The value a decimal text denotes, exactly; its readers round it. *)
Definition decimal_value (ip fp : ustring) (e : Z) : Q :=
  Qred (Qmult (Qmake (digits_value (ip ++ fp)) 1)
              (pow10 (e - Z.of_nat (length fp)))).

(** An optional ExponentPart: consumed only when digits follow. *)
Definition exponent_part (s : ustring) : Z * ustring :=
  match s with
  | c :: r =>
    if (c =? 101)%N || (c =? 69)%N then
      let '(sign, r1) :=
        match r with
        | x :: r' => if (x =? 45)%N then ((-1)%Z, r')
                     else if (x =? 43)%N then (1%Z, r') else (1%Z, r)
        | [] => (1%Z, r)
        end in
      match span_digits r1 with
      | ([], _) => (0%Z, s)
      | (ds, r2) => ((sign * digits_value ds)%Z, r2)
      end
    else (0%Z, s)
  | [] => (0%Z, s)
  end.

(** The longest prefix that is an unsigned StrDecimalLiteral other than
    [Infinity]: digits, an optional fraction, an optional exponent. *)
Definition decimal_prefix (s : ustring) : option (Q * ustring) :=
  let '(ip, r1) := span_digits s in
  let '(fp, r2, dot) :=
    match r1 with
    | c :: r =>
      if (c =? 46)%N then let '(fp, r2) := span_digits r in (fp, r2, true)
      else ([], r1, false)
    | [] => ([], r1, false)
    end in
  match ip, fp with
  | [], [] => None
  | _, _ => let '(e, r3) := exponent_part r2 in
            Some (decimal_value ip fp e, r3)
  end.

Fixpoint strip_prefix (p s : ustring) : option ustring :=
  match p, s with
  | [], _ => Some s
  | a :: p', b :: s' => if (a =? b)%N then strip_prefix p' s' else None
  | _ :: _, [] => None
  end.

Definition signed_prefix (s : ustring) : option (jsnum * ustring) :=
  let '(neg, r) :=
    match s with
    | c :: r => if (c =? 45)%N then (true, r)
                else if (c =? 43)%N then (false, r) else (false, s)
    | [] => (false, s)
    end in
  match strip_prefix (u "Infinity") r with
  | Some r' => Some (Inf neg, r')
  | None =>
    match decimal_prefix r with
    | Some (q, r') => Some (round_double (if neg then Qopp q else q), r')
    | None => None
    end
  end.

(** The global [parseFloat]. *)
Definition parseFloat (s : ustring) : jsnum :=
  match signed_prefix (trim_start s) with
  | Some (n, _) => n
  | None => NaN
  end.

Definition radix_digit (radix : Z) (c : N) : option Z :=
  let v := if is_digit c then Some (Z.of_N (c - 48))
           else if in_range 97 102 c then Some (Z.of_N (c - 87))
           else if in_range 65 70 c then Some (Z.of_N (c - 55))
           else None in
  match v with
  | Some d => if (d <? radix)%Z then Some d else None
  | None => None
  end.

Fixpoint radix_value (radix : Z) (s : ustring) (acc : Z) : option Z :=
  match s with
  | [] => Some acc
  | c :: s' =>
    match radix_digit radix c with
    | Some d => radix_value radix s' (radix * acc + d)%Z
    | None => None
    end
  end.

(** StringToNumber: the conversion [Number(s)] applies to a string. *)
Definition stringToNumber (s : ustring) : jsnum :=
  match trim s with
  | [] => Fin 0
  | t =>
    let radix_lit (radix : Z) (ds : ustring) :=
      match ds with
      | [] => NaN
      | _ => match radix_value radix ds 0%Z with
             | Some z => round_double (inject_Z z)
             | None => NaN
             end
      end in
    match t with
    | 48%N :: 120%N :: ds | 48%N :: 88%N :: ds => radix_lit 16%Z ds
    | 48%N :: 111%N :: ds | 48%N :: 79%N :: ds => radix_lit 8%Z ds
    | 48%N :: 98%N :: ds | 48%N :: 66%N :: ds => radix_lit 2%Z ds
    | _ =>
      match signed_prefix t with
      | Some (n, []) => n
      | _ => NaN
      end
    end
  end.

(** ** JavaScript values *)

#[local] Unset Elimination Schemes.
Inductive jsval : Type :=
| JUndef
| JNull
| JBool (b : bool)
| JNum (n : jsnum)
| JStr (s : string)
| JArr (items : list jsval)
| JObj (fields : list (string * jsval)).
#[local] Set Elimination Schemes.

(** ToBoolean *)
Definition truthy (v : jsval) : bool :=
  match v with
  | JUndef | JNull => false
  | JBool b => b
  | JNum NaN => false
  | JNum (Inf _) => true
  | JNum (Fin q) => negb (Qeq_bool q 0)
  | JStr s => negb (String.eqb s "")
  | JArr _ | JObj _ => true
  end.

Definition nullish (v : jsval) : bool :=
  match v with JUndef | JNull => true | _ => false end.

Fixpoint obj_get (k : string) (kv : list (string * jsval)) : jsval :=
  match kv with
  | [] => JUndef
  | (k', v) :: kv' => if String.eqb k k' then v else obj_get k kv'
  end.

Fixpoint obj_set (k : string) (v : jsval) (kv : list (string * jsval))
  : list (string * jsval) :=
  match kv with
  | [] => [(k, v)]
  | (k', v') :: kv' =>
    if String.eqb k k' then (k, v) :: kv' else (k', v') :: obj_set k v kv'
  end.

(** [v.name] for the property names the service reads (none of them is
    [length] or an index): [None] is the TypeError of reading a property
    of [undefined] or [null]; only objects have such properties. *)
Definition prop (v : jsval) (name : string) : option jsval :=
  match v with
  | JUndef | JNull => None
  | JObj kv => Some (obj_get name kv)
  | _ => Some JUndef
  end.

(** [v?.name] *)
Definition prop_opt (v : jsval) (name : string) : jsval :=
  match prop v name with Some x => x | None => JUndef end.

(** [v[0]]: the first element of an array, the first character of a
    string, the property [0] of an object. *)
Definition first (v : jsval) : option jsval :=
  match v with
  | JUndef | JNull => None
  | JArr (x :: _) => Some x
  | JStr (String c _) => Some (JStr (String c EmptyString))
  | JObj kv => Some (obj_get "0" kv)
  | _ => Some JUndef
  end.

(** [v?.[0]] *)
Definition first_opt (v : jsval) : jsval :=
  match first v with Some x => x | None => JUndef end.

(** ToNumber, the conversion [Number(v)] and the subtraction operator
    apply.  An array converts through its string form: empty is 0, a
    single element converts as that element's string, more elements
    give a text with commas, which is no number. *)
Fixpoint toNumber (v : jsval) : jsnum :=
  match v with
  | JUndef => NaN
  | JNull => Fin 0
  | JBool b => Fin (if b then 1 else 0)
  | JNum n => n
  | JStr s => stringToNumber (u s)
  | JArr [] => Fin 0
  | JArr [x] =>
    match x with
    | JUndef | JNull => Fin 0
    | JBool _ | JObj _ => NaN
    | _ => toNumber x
    end
  | JArr _ => NaN
  | JObj _ => NaN
  end.

(** The canonical decimal form of an array index. *)
Definition canonical_index (s : ustring) : option nat :=
  match s with
  | [] => None
  | [48%N] => Some O
  | 48%N :: _ => None
  | _ => if forallb is_digit s then Some (Z.to_nat (digits_value s)) else None
  end.

(** The array index a value denotes when it is used as a property key
    ([messages[v]]): [None] when the key is no array index. *)
Fixpoint toArrayIndex (v : jsval) : option nat :=
  match v with
  | JNum (Fin q) =>
    let q' := Qred q in
    if (Qden q' =? 1)%positive && (0 <=? Qnum q')%Z
    then Some (Z.to_nat (Qnum q')) else None
  | JStr s => canonical_index (u s)
  | JArr [x] =>
    match x with
    | JNum _ | JStr _ | JArr _ => toArrayIndex x
    | _ => None
    end
  | _ => None
  end.

(** ** JSON.parse *)

Definition is_json_ws (c : N) : bool :=
  (c =? 32)%N || (c =? 9)%N || (c =? 10)%N || (c =? 13)%N.

Fixpoint skip_ws (s : ustring) : ustring :=
  match s with
  | c :: s' => if is_json_ws c then skip_ws s' else s
  | [] => []
  end.

Definition hex4 (a b c d : N) : option N :=
  match radix_value 16 [a; b; c; d] 0%Z with
  | Some z => Some (Z.to_N z)
  | None => None
  end.

(** The characters of a JSON string, after its opening quote. *)
Fixpoint json_chars (s : ustring) (acc_rev : ustring)
  : option (ustring * ustring) :=
  match s with
  | [] => None
  | c :: r =>
    if (c =? 34)%N then Some (rev acc_rev, r)
    else if (c =? 92)%N then
      match r with
      | [] => None
      | e :: r1 =>
        if (e =? 34)%N || (e =? 92)%N || (e =? 47)%N
        then json_chars r1 (e :: acc_rev)
        else if (e =? 98)%N then json_chars r1 (8%N :: acc_rev)
        else if (e =? 102)%N then json_chars r1 (12%N :: acc_rev)
        else if (e =? 110)%N then json_chars r1 (10%N :: acc_rev)
        else if (e =? 114)%N then json_chars r1 (13%N :: acc_rev)
        else if (e =? 116)%N then json_chars r1 (9%N :: acc_rev)
        else if (e =? 117)%N then
          match r1 with
          | h1 :: h2 :: h3 :: h4 :: r2 =>
            match hex4 h1 h2 h3 h4 with
            | Some x => json_chars r2 (x :: acc_rev)
            | None => None
            end
          | _ => None
          end
        else None
      end
    else if (c <? 32)%N then None
    else json_chars r (c :: acc_rev)
  end.

(** A surrogate pair written with two [\u] escapes is one code point. *)
Fixpoint join_surrogates (s : ustring) : ustring :=
  match s with
  | [] => []
  | h :: s' =>
    match s' with
    | l :: s'' =>
      if in_range 55296 56319 h && in_range 56320 57343 l
      then (65536 + (h - 55296) * 1024 + (l - 56320))%N :: join_surrogates s''
      else h :: join_surrogates s'
    | [] => [h]
    end
  end.

Definition json_string (s : ustring) : option (string * ustring) :=
  match json_chars s [] with
  | Some (cs, r) => Some (utf8 (join_surrogates cs), r)
  | None => None
  end.

(** A JSON number: [-]? int frac? exp?, no leading zeros, digits
    required after the point and after the exponent mark. *)
Definition json_number (s : ustring) : option (jsval * ustring) :=
  let '(neg, s1) :=
    match s with
    | c :: r => if (c =? 45)%N then (true, r) else (false, s)
    | [] => (false, s)
    end in
  let '(ip, r1) := span_digits s1 in
  let int_ok :=
    match ip with
    | [] => false
    | [_] => true
    | d :: _ => negb (d =? 48)%N
    end in
  if negb int_ok then None else
  let frac :=
    match r1 with
    | c :: r =>
      if (c =? 46)%N then
        match span_digits r with
        | ([], _) => None
        | (fp, r2) => Some (fp, r2)
        end
      else Some ([], r1)
    | [] => Some ([], r1)
    end in
  match frac with
  | None => None
  | Some (fp, r2) =>
    let '(e, r3) := exponent_part r2 in
    let bad_exp :=
      match r3 with
      | c :: _ => (c =? 101)%N || (c =? 69)%N
      | [] => false
      end in
    if bad_exp then None else
    let q := decimal_value ip fp e in
    Some (JNum (round_double (if neg then Qopp q else q)), r3)
  end.

(** A JSON value at the head of the text.  Fuel bounds the recursion:
    every call consumes a character, so [2 * length s + 2] is enough. *)
Fixpoint json_value (n : nat) (s : ustring) : option (jsval * ustring) :=
  match n with
  | O => None
  | S n' =>
    match skip_ws s with
    | [] => None
    | c :: r =>
      if (c =? 123)%N then
        match skip_ws r with
        | [] => None
        | c' :: r' =>
          if (c' =? 125)%N then Some (JObj [], r')
          else json_members n' (c' :: r') []
        end
      else if (c =? 91)%N then
        match skip_ws r with
        | [] => None
        | c' :: r' =>
          if (c' =? 93)%N then Some (JArr [], r')
          else json_elements n' (c' :: r') []
        end
      else if (c =? 34)%N then
        match json_string r with
        | Some (str, r') => Some (JStr str, r')
        | None => None
        end
      else
        match strip_prefix (u "true") (c :: r) with
        | Some r' => Some (JBool true, r')
        | None =>
          match strip_prefix (u "false") (c :: r) with
          | Some r' => Some (JBool false, r')
          | None =>
            match strip_prefix (u "null") (c :: r) with
            | Some r' => Some (JNull, r')
            | None => json_number (c :: r)
            end
          end
        end
    end
  end
with json_elements (n : nat) (s : ustring) (acc_rev : list jsval)
  : option (jsval * ustring) :=
  match n with
  | O => None
  | S n' =>
    match json_value n' s with
    | Some (v, r) =>
      match skip_ws r with
      | c :: r' =>
        if (c =? 44)%N then json_elements n' r' (v :: acc_rev)
        else if (c =? 93)%N then Some (JArr (rev (v :: acc_rev)), r')
        else None
      | [] => None
      end
    | None => None
    end
  end
with json_members (n : nat) (s : ustring) (acc : list (string * jsval))
  : option (jsval * ustring) :=
  match n with
  | O => None
  | S n' =>
    match skip_ws s with
    | c :: r =>
      if (c =? 34)%N then
        match json_string r with
        | Some (key, r1) =>
          match skip_ws r1 with
          | c1 :: r2 =>
            if (c1 =? 58)%N then
              match json_value n' r2 with
              | Some (v, r3) =>
                match skip_ws r3 with
                | c3 :: r4 =>
                  if (c3 =? 44)%N then json_members n' r4 (obj_set key v acc)
                  else if (c3 =? 125)%N
                  then Some (JObj (obj_set key v acc), r4)
                  else None
                | [] => None
                end
              | None => None
              end
            else None
          | [] => None
          end
        | None => None
        end
      else None
    | [] => None
    end
  end.

(** [JSON.parse]: [None] is the SyntaxError. *)
Definition JSON_parse (s : ustring) : option jsval :=
  match json_value (2 * length s + 2) s with
  | Some (v, r) =>
    match skip_ws r with
    | [] => Some v
    | _ => None
    end
  | None => None
  end.

(** ** The data model of the service *)

Record ModerateMessageRequest : Type := mkRequest {
  messageText : string;
  userName : option string;
  userBio : option string;
  hasAvatar : option bool;
  suspiciousProfile : option bool;
  suspicionReason : option string;
  messageId : option Z;
  chatId : option Z
}.

(** The fields are [jsval]s: on the structured paths the service copies
    whatever the classifier sent, the declared types are not enforced at
    run time.  [resp_messageId] is the response's [messageId]. *)
Record ModerateMessageResponse : Type := mkResponse {
  isSpam : jsval;
  confidence : jsval;
  reason : jsval;
  matchesKnownPattern : jsval;
  shouldBan : jsval;
  resp_messageId : option Z
}.

(** [m || d] on an optional number: [undefined] and [0] are falsy. *)
Definition or_else (m : option Z) (d : Z) : Z :=
  match m with
  | Some v => if (v =? 0)%Z then d else v
  | None => d
  end.

(** The safe answer of the catch blocks. *)
Definition conservative (why : string) (mid : option Z)
  : ModerateMessageResponse :=
  {| isSpam := JBool false;
     confidence := JNum (Fin 0);
     reason := JStr why;
     matchesKnownPattern := JBool false;
     shouldBan := JBool false;
     resp_messageId := mid |}.

(** [{...result, messageId: mid}] *)
Definition with_id (r : ModerateMessageResponse) (mid : option Z)
  : ModerateMessageResponse :=
  {| isSpam := isSpam r;
     confidence := confidence r;
     reason := reason r;
     matchesKnownPattern := matchesKnownPattern r;
     shouldBan := shouldBan r;
     resp_messageId := mid |}.

(** ** The text-heuristic extractor *)

Definition any_char : regex := Class (fun _ => true).
Definition space_char : regex := Class is_space.
Definition digit_char : regex := Class is_digit.
Definition cyr : regex := Class is_cyr_i.
Definition digit_or_dot : regex := Class (fun c => is_digit c || (c =? 46)%N).
Definition not_nl_dot : regex :=
  Class (fun c => negb ((c =? 10)%N || (c =? 46)%N)).
Definition dot_or_nl : regex := Class (fun c => (c =? 46)%N || (c =? 10)%N).
Definition sentence_end : regex :=
  Class (fun c => (c =? 46)%N || (c =? 33)%N || (c =? 63)%N).

Fixpoint seq (rs : list regex) : regex :=
  match rs with
  | [] => Eps
  | [r] => r
  | r :: rs' => Cat r (seq rs')
  end.

(** [/\{[\s\S]*?\}/] *)
Definition re_json : regex := seq [lit "{"; Star false any_char; lit "}"].

(** [/не является спамом|не спам|не рекламa/i] (the last letter of the
    third alternative is the Latin one, as in the source) *)
Definition re_not_spam : regex :=
  alts [liti "не является спамом"; liti "не спам"; liti "не рекламa"].

(** [/является спамом|это спам|это реклама/i] *)
Definition re_is_spam : regex :=
  alts [liti "является спамом"; liti "это спам"; liti "это реклама"].

(** [/спам|реклам|подозрительн|вредоносн/i] *)
Definition re_spam_words : regex :=
  alts [liti "спам"; liti "реклам"; liti "подозрительн"; liti "вредоносн"].

(** [/<label>:?\s*([\d.]+)%?/i] *)
Definition re_number_after (label : string) (colon : bool) : regex :=
  seq [liti label; if colon then Opt (lit ":") else Eps; Star true space_char;
       Group (Plus digit_or_dot); Opt (lit "%")].

Definition re_confidence : list regex :=
  [re_number_after "уверенность" true;
   re_number_after "confidence" true;
   re_number_after "с уверенностью" false].

(** [/высок[а-я]+ уверенност|с высокой уверенностью/i] *)
Definition re_high : regex :=
  alts [seq [liti "высок"; Plus cyr; liti " уверенност"];
        liti "с высокой уверенностью"].

(** [/средн[а-я]+ уверенност/i] *)
Definition re_medium : regex := seq [liti "средн"; Plus cyr; liti " уверенност"].

(** [/низк[а-я]+ уверенност/i] *)
Definition re_low : regex := seq [liti "низк"; Plus cyr; liti " уверенност"].

(** [/<label>:?\s*([^\n.]+)[.\n]/i] *)
Definition re_reason_after (label : string) (colon : bool) : regex :=
  seq [liti label; if colon then Opt (lit ":") else Eps; Star true space_char;
       Group (Plus not_nl_dot); dot_or_nl].

Definition reasonPatterns : list regex :=
  [re_reason_after "причина" true;
   re_reason_after "reason" true;
   re_reason_after "потому что" false;
   re_reason_after "поскольку" false;
   re_reason_after "так как" false].

(** [/следует забанить|нужно забанить|рекоменд[а-я]+ бан|заблокировать пользователя/i]
    and [/бан|ban|блокир|заблокир/i] *)
Definition re_ban_explicit : regex :=
  alts [liti "следует забанить"; liti "нужно забанить";
        seq [liti "рекоменд"; Plus cyr; liti " бан"];
        liti "заблокировать пользователя"].
Definition re_ban_words : regex :=
  alts [liti "бан"; liti "ban"; liti "блокир"; liti "заблокир"].

(** [/соответств[а-я]+ известн|известн[а-я]+ шаблон|паттерн|pattern/i]
    and [/похож[а-я]+ на шаблон|типичн[а-я]+ шлюхобот|типичн[а-я]+ спам/i] *)
Definition re_known_pattern : regex :=
  alts [seq [liti "соответств"; Plus cyr; liti " известн"];
        seq [liti "известн"; Plus cyr; liti " шаблон"];
        liti "паттерн"; liti "pattern"].
Definition re_looks_like : regex :=
  alts [seq [liti "похож"; Plus cyr; liti " на шаблон"];
        seq [liti "типичн"; Plus cyr; liti " шлюхобот"];
        seq [liti "типичн"; Plus cyr; liti " спам"]].

Definition no_reason : string := "Не удалось извлечь причину из ответа".

Definition defined (v : jsval) : bool :=
  match v with JUndef => false | _ => true end.

(** The first step: a JSON object printed inside the text.  [None] when
    there is no brace-delimited fragment, when [JSON.parse] throws on it,
    or when the object lacks [isSpam] or [confidence]. *)
Definition embedded_json (text : ustring) : option ModerateMessageResponse :=
  match search re_json text with
  | None => None
  | Some jsonMatch =>
    match JSON_parse (m_text jsonMatch) with
    | None => None
    | Some jsonData =>
      if defined (prop_opt jsonData "isSpam")
         && defined (prop_opt jsonData "confidence")
      then Some
        {| isSpam := JBool (truthy (prop_opt jsonData "isSpam"));
           confidence := JNum (toNumber (prop_opt jsonData "confidence"));
           reason := if truthy (prop_opt jsonData "reason")
                     then prop_opt jsonData "reason"
                     else JStr "Извлечено из JSON в тексте";
           matchesKnownPattern :=
             JBool (truthy (prop_opt jsonData "matchesKnownPattern"));
           shouldBan := JBool (truthy (prop_opt jsonData "shouldBan"));
           resp_messageId := None |}
      else None
    end
  end.

Definition keyword_isSpam (text : ustring) : bool :=
  if test re_not_spam text then false
  else if test re_is_spam text then true
  else test re_spam_words text.

(** [a.match(r1) || a.match(r2) || ...] *)
Fixpoint first_match (rs : list regex) (text : ustring) : option rmatch :=
  match rs with
  | [] => None
  | r :: rs' =>
    match search r text with
    | Some m => Some m
    | None => first_match rs' text
    end
  end.

Definition group1 (m : rmatch) : ustring :=
  match m_group m with Some g => g | None => [] end.

(** [x > 1 ? x / 100 : x], the quotient rounded as the division of
    doubles is. *)
Definition percent_to_fraction (n : jsnum) : jsnum :=
  match n with
  | Fin q => if Qle_bool q 1 then Fin q else round_double (Qdiv q 100)
  | Inf false => Inf false
  | other => other
  end.

Definition keyword_confidence (text : ustring) (spam : bool) : jsnum :=
  match first_match re_confidence text with
  | Some confidenceMatch => percent_to_fraction (parseFloat (group1 confidenceMatch))
  | None =>
    if test re_high text then round_double (9 # 10)
    else if test re_medium text then round_double (7 # 10)
    else if test re_low text then round_double (3 # 10)
    else if spam then round_double (75 # 100) else round_double (25 # 100)
  end.

Definition sentence_mentions_spam (sentence : ustring) : bool :=
  includes (toLowerCase sentence) "спам"
  || includes (toLowerCase sentence) "реклам"
  || includes (toLowerCase sentence) "подозрит".

Definition keyword_reason (text : ustring) (spam : bool) : string :=
  let reason1 :=
    match first_match reasonPatterns text with
    | Some m => utf8 (trim (group1 m))
    | None => no_reason
    end in
  if String.eqb reason1 no_reason && spam then
    match find sentence_mentions_spam (split (Plus sentence_end) text) with
    | Some sentence => utf8 (trim sentence)
    | None => reason1
    end
  else reason1.

Definition keyword_shouldBan (text : ustring) : bool :=
  test re_ban_explicit text || test re_ban_words text.

Definition keyword_pattern (text : ustring) : bool :=
  test re_known_pattern text || test re_looks_like text.

(** The keyword rules, applied when the first step gave nothing. *)
Definition keyword_path (text : ustring) : ModerateMessageResponse :=
  let spam := keyword_isSpam text in
  {| isSpam := JBool spam;
     confidence := JNum (keyword_confidence text spam);
     reason := JStr (keyword_reason text spam);
     matchesKnownPattern := JBool (keyword_pattern text || spam);
     shouldBan := JBool (keyword_shouldBan text);
     resp_messageId := None |}.

(** The body of the [try] block, on a text. *)
Definition extract_text (text : ustring) : ModerateMessageResponse :=
  match embedded_json text with
  | Some r => r
  | None => keyword_path text
  end.

(** [extractModerationFromText].  The callers hand it whatever truthy
    value sits in the reply's [text]; on anything but a string the first
    statement ([text.substring]) throws and the catch block answers. *)
Definition extractModerationFromText (text : jsval) : ModerateMessageResponse :=
  match text with
  | JStr s => extract_text (u s)
  | _ => conservative "Ошибка обработки ответа модели" None
  end.

(** [/---|\n\nСообщение \d+:|Сообщение \d+:/] *)
Definition re_delimiter : regex :=
  alts [lit "---";
        seq [Class (N.eqb 10); Class (N.eqb 10); lit "Сообщение ";
             Plus digit_char; lit ":"];
        seq [lit "Сообщение "; Plus digit_char; lit ":"]].

(** [messages.map((msg, index) => ({...safe, messageId: msg.messageId || index}))] *)
Definition safe_batch (why : string) (messages : list ModerateMessageRequest)
  : list ModerateMessageResponse :=
  imap (fun index msg =>
          conservative why (Some (or_else (messageId msg) (Z.of_nat index))))
       messages.

(** [items.includes(needle)] on an array: some element is that
    string. *)
Definition array_includes (items : list jsval) (needle : string) : bool :=
  existsb (fun item => match item with
                       | JStr s => String.eqb s needle
                       | _ => false
                       end) items.

(** [extractBatchResultsFromText].  The callers hand it whatever truthy
    value sits in the reply's [text]: a string is cut at the
    delimiters; an array has [includes] too, so without a delimiter among
    its elements it goes to [extractModerationFromText] (whose catch
    block answers), and with one [text.split] throws; on any other value
    [text.includes] throws. *)
Definition extractBatchResultsFromText
    (text : jsval) (messages : list ModerateMessageRequest)
  : list ModerateMessageResponse :=
  match text with
  | JStr s =>
    let t := u s in
    if includes t "Сообщение 1:" || includes t "---" then
      let messageResponses := split re_delimiter t in
      imap (fun index msg =>
              let responseText :=
                match messageResponses !! index with
                | Some part => part
                | None => t
                end in
              with_id (extract_text responseText)
                      (Some (or_else (messageId msg) (Z.of_nat index))))
           messages
    else
      imap (fun index msg =>
              with_id (extract_text t)
                      (Some (or_else (messageId msg) (Z.of_nat index))))
           messages
  | JArr items =>
    if array_includes items "Сообщение 1:" || array_includes items "---"
    then safe_batch "Ошибка извлечения результатов из текста" messages
    else
      imap (fun index msg =>
              with_id (extractModerationFromText text)
                      (Some (or_else (messageId msg) (Z.of_nat index))))
           messages
  | _ =>
    (* [text.includes] is not a function: the catch block *)
    safe_batch "Ошибка извлечения результатов из текста" messages
  end.

(** ** The classifier gateway *)

(** What [axios.post] gave: a rejection (network failure, error status)
    or a reply whose [data] is the parsed body. *)
Inductive HttpResult : Type :=
| HttpError
| HttpOk (data : jsval).

(** The request sent to the classifier: the function it is told to call,
    the generation settings, and the messages its prompt embeds (the
    fixed policy wording of the prompt is not represented). *)
Record ApiCall : Type := mkApiCall {
  tool : string;
  temperature : Q;
  maxOutputTokens : Z;
  subjects : list ModerateMessageRequest
}.

(** [response.data.candidates &&
     response.data.candidates[0].content?.parts?.[0]?.<field>];
    [None] when evaluating it throws. *)
Definition candidate_part (data : jsval) (field : string) : option jsval :=
  candidates ← prop data "candidates";
  if truthy candidates then
    c0 ← first candidates;
    content ← prop c0 "content";
    Some (prop_opt (first_opt (prop_opt content "parts")) field)
  else Some candidates.

Definition str_eq (v : jsval) (s : string) : bool :=
  match v with
  | JStr s' => String.eqb s' s
  | _ => false
  end.

(** [{...functionCall.args, messageId: request.messageId}], read through
    the fields of the response interface. *)
Definition response_of_args (args : jsval) (mid : option Z)
  : ModerateMessageResponse :=
  {| isSpam := prop_opt args "isSpam";
     confidence := prop_opt args "confidence";
     reason := prop_opt args "reason";
     matchesKnownPattern := prop_opt args "matchesKnownPattern";
     shouldBan := prop_opt args "shouldBan";
     resp_messageId := mid |}.

Definition moderateMessage_call (request : ModerateMessageRequest) : ApiCall :=
  {| tool := "moderate_message";
     temperature := match suspiciousProfile request with
                    | Some true => 5 # 100
                    | _ => 1 # 10
                    end;
     maxOutputTokens := 1024;
     subjects := [request] |}.

(** The inner [try] block of [moderateMessage]; [None] when it throws. *)
Definition moderateMessage_try
    (request : ModerateMessageRequest) (data : jsval)
  : option ModerateMessageResponse :=
  functionCall ← candidate_part data "functionCall";
  if truthy functionCall
     && str_eq (prop_opt functionCall "name") "moderate_message"
     && truthy (prop_opt functionCall "args")
  then Some (response_of_args (prop_opt functionCall "args") (messageId request))
  else
    textResponse ← candidate_part data "text";
    if truthy textResponse then
      match textResponse with
      | JStr _ =>
        Some (with_id (extractModerationFromText textResponse)
                      (messageId request))
      | _ => None (* [textResponse.substring] is not a function *)
      end
    else None (* [throw new Error] *).

(** [moderateMessage], given the outcome of its HTTP call. *)
Definition moderateMessage
    (request : ModerateMessageRequest) (http : HttpResult)
  : ModerateMessageResponse :=
  let safe := conservative "Произошла ошибка при обработке" (messageId request) in
  match http with
  | HttpError => safe
  | HttpOk data =>
    match moderateMessage_try request data with
    | Some r => r
    | None =>
      match candidate_part data "text" with
      | Some textResponse =>
        if truthy textResponse
        then with_id (extractModerationFromText textResponse)
                     (messageId request)
        else safe
      | None => safe
      end
    end
  end.

(** [a.messageIndex - b.messageIndex > 0] *)
Definition sub_positive (a b : jsnum) : bool :=
  match a, b with
  | NaN, _ | _, NaN => false
  | Inf na, Inf nb => negb na && nb
  | Inf na, Fin _ => negb na
  | Fin _, Inf nb => nb
  | Fin x, Fin y => negb (Qle_bool x y)
  end.

Definition messageIndex_of (result : jsval) : jsnum :=
  toNumber (prop_opt result "messageIndex").

(** [comparefn(a, b) < 0] for the comparator
    [(a, b) => a.messageIndex - b.messageIndex]; a difference that is no
    number counts as 0, as the sort takes it. *)
Definition sorts_before (a b : jsval) : bool :=
  sub_positive (messageIndex_of b) (messageIndex_of a).

(** The run at the head of the array: it goes on while each element
    compares with the one before it as the second did with the first
    (below it in a descending run, not below it in an ascending one). *)
Fixpoint split_run (descending : bool) (previous : jsval) (rest : list jsval)
  : list jsval * list jsval :=
  match rest with
  | [] => ([], [])
  | current :: rest' =>
    if Bool.eqb (sorts_before current previous) descending
    then let '(run, others) := split_run descending current rest' in
         (current :: run, others)
    else ([], rest)
  end.

(** The run made ascending (a descending run is reversed), and what
    follows it. *)
Definition count_and_make_run (l : list jsval) : list jsval * list jsval :=
  match l with
  | low :: second :: rest =>
    let descending := sorts_before second low in
    let '(run, others) := split_run descending second rest in
    let whole := low :: second :: run in
    (if descending then rev whole else whole, others)
  | _ => (l, [])
  end.

(** Binary insertion of [pivot] into the sorted [window]: the middle
    element decides the half in which the search goes on, to the left
    when [pivot] compares below it, to the right otherwise. *)
Fixpoint binary_insert (fuel : nat) (pivot : jsval) (window : list jsval)
  : list jsval :=
  match fuel with
  | O => pivot :: window
  | S fuel' =>
    let mid := (length window / 2)%nat in
    match window !! mid with
    | None => [pivot]
    | Some middle =>
      if sorts_before pivot middle
      then binary_insert fuel' pivot (take mid window) ++ drop mid window
      else take (S mid) window ++ binary_insert fuel' pivot (drop (S mid) window)
    end
  end.

(** [batchResults.sort((a, b) => a.messageIndex - b.messageIndex)], as
    the engine of Node.js sorts an array shorter than 64 elements: the
    run at its head is found and made ascending, then the remaining
    elements are put in place one by one by binary insertion.  When all
    indices are numbers this is the stable sort by the declared index,
    which ECMAScript prescribes and which the engine gives for a longer
    array too by merging such runs; when an index is no number the
    comparator is no ordering and the outcome is left to the engine,
    which is followed here up to 63 elements. *)
Definition sort_by_messageIndex (l : list jsval) : list jsval :=
  let '(run, others) := count_and_make_run l in
  fold_left (fun sorted pivot => binary_insert (length sorted) pivot sorted)
            others run.

(** [messages[k]?.messageId] *)
Definition messageId_at (messages : list ModerateMessageRequest) (k : jsval)
  : option Z :=
  match toArrayIndex k with
  | Some i =>
    match messages !! i with
    | Some msg => messageId msg
    | None => None
    end
  | None => None
  end.

(** The function mapped over the sorted entries:
    [(result, index) => ({isSpam: result.isSpam, ...,
      messageId: messages[result.messageIndex]?.messageId || index})] *)
Definition entry_response (messages : list ModerateMessageRequest)
    (index : nat) (result : jsval) : ModerateMessageResponse :=
  {| isSpam := prop_opt result "isSpam";
     confidence := prop_opt result "confidence";
     reason := prop_opt result "reason";
     matchesKnownPattern := prop_opt result "matchesKnownPattern";
     shouldBan := prop_opt result "shouldBan";
     resp_messageId :=
       Some (or_else (messageId_at messages (prop_opt result "messageIndex"))
                     (Z.of_nat index)) |}.

(** The structured branch of the batch operation; [None] when it throws
    ([batchResults] is no array, or an entry is [null]). *)
Definition structured_results
    (messages : list ModerateMessageRequest) (batchResults : jsval)
  : option (list ModerateMessageResponse) :=
  match batchResults with
  | JArr items =>
    if existsb nullish items then None
    else Some (imap (entry_response messages) (sort_by_messageIndex items))
  | _ => None
  end.

(** The inner [try] block of [moderateMessageBatch]. *)
Definition moderateMessageBatch_try
    (messages : list ModerateMessageRequest) (data : jsval)
  : option (list ModerateMessageResponse) :=
  functionCall ← candidate_part data "functionCall";
  let batchResults := prop_opt (prop_opt functionCall "args") "results" in
  if truthy functionCall
     && str_eq (prop_opt functionCall "name") "moderate_messages_batch"
     && truthy batchResults
  then structured_results messages batchResults
  else
    textResponse ← candidate_part data "text";
    if truthy textResponse then
      match textResponse with
      | JStr _ => Some (extractBatchResultsFromText textResponse messages)
      | _ => None
      end
    else None.

(** The request of the multi-message branch of [moderateMessageBatch]. *)
Definition batch_call (messages : list ModerateMessageRequest) : ApiCall :=
  {| tool := "moderate_messages_batch";
     temperature := 1 # 10;
     maxOutputTokens := 2048;
     subjects := messages |}.

(** The HTTP call [moderateMessageBatch] issues: none for an empty list,
    the single-message call of [moderateMessage] for one message, the
    batch call otherwise. *)
Definition moderateMessageBatch_call (messages : list ModerateMessageRequest)
  : option ApiCall :=
  match messages with
  | [] => None
  | [m] => Some (moderateMessage_call m)
  | _ => Some (batch_call messages)
  end.

(** [moderateMessageBatch], given the outcome of its HTTP call. *)
Definition moderateMessageBatch
    (messages : list ModerateMessageRequest) (http : HttpResult)
  : list ModerateMessageResponse :=
  let safe := safe_batch "Произошла ошибка при обработке батча" messages in
  match messages with
  | [] => []
  | [m] => [moderateMessage m http]
  | _ =>
    match http with
    | HttpError => safe
    | HttpOk data =>
      match moderateMessageBatch_try messages data with
      | Some results => results
      | None =>
        match candidate_part data "text" with
        | Some textResponse =>
          if truthy textResponse
          then extractBatchResultsFromText textResponse messages
          else safe
        | None => safe
        end
      end
    end
  end.

(** ** The batching coordinator and its event loop

    The service lives in a single-threaded event loop.  Its state is the
    open-batch map, the batch objects the map and the timer closures
    refer to (a heap, addressed by reference), the armed timers, the
    HTTP calls in flight and the promises handed to the callers.  Three
    kinds of events move it: a caller submits a request, a timer fires,
    an HTTP call returns. *)

Record Config : Type := mkConfig {
  batchTimeout : Z;
  maxBatchSize : Z
}.

Record ModerationBatch : Type := mkBatch {
  messages : list ModerateMessageRequest;
  timer : option nat;
  lastMessageTime : Z
}.

(** The state of the promise returned to one caller. *)
Inductive Promise : Type :=
| Pending
| Resolved (result : ModerateMessageResponse)
| Rejected (error : string).

(** The closure [handleResult] of one call of
    [queueMessageForModeration]: it settles the promise of that call
    ([resolve], [reject]) and reads the position [messageIndex]. *)
Record Handler : Type := mkHandler {
  h_promise : nat;
  h_index : nat
}.

(** The closure given to [setTimeout]: it captures [chatId], the batch
    object and the [handleResult] of the call that armed it. *)
Record TimerTask : Type := mkTimer {
  t_chat : Z;
  t_batch : nat;
  t_handler : Handler;
  t_armedAt : Z;
  t_delay : Z
}.

(** What runs once the results of a flushed batch are there: the loop of
    the timer callback, or the [then] of the size-triggered flush. *)
Inductive Continuation : Type :=
| AfterTimer (h : Handler)
| AfterSize (h : Handler).

Definition cont_handler (k : Continuation) : Handler :=
  match k with AfterTimer h | AfterSize h => h end.

(** A call of [moderateMessageBatch] whose HTTP request is in flight. *)
Record PendingCall : Type := mkCall {
  c_api : ApiCall;
  c_messages : list ModerateMessageRequest;   (* messagesToProcess *)
  c_then : Continuation
}.

Record State : Type := mkState {
  batchMap : gmap Z nat;
  batches : list ModerationBatch;
  timers : gmap nat TimerTask;
  nextTimer : nat;
  calls : gmap nat PendingCall;
  nextCall : nat;
  promises : list Promise
}.

Definition initial : State := mkState ∅ [] ∅ 0 ∅ 0 [].

(** *** Primitive effects *)

Definition new_promise (st : State) : nat * State :=
  (length (promises st),
   mkState (batchMap st) (batches st) (timers st) (nextTimer st)
           (calls st) (nextCall st) (promises st ++ [Pending])).

Definition new_batch (b : ModerationBatch) (st : State) : nat * State :=
  (length (batches st),
   mkState (batchMap st) (batches st ++ [b]) (timers st) (nextTimer st)
           (calls st) (nextCall st) (promises st)).

Definition set_batch (ref : nat) (b : ModerationBatch) (st : State) : State :=
  mkState (batchMap st) (<[ref := b]> (batches st)) (timers st) (nextTimer st)
          (calls st) (nextCall st) (promises st).

Definition map_set (chat : Z) (ref : nat) (st : State) : State :=
  mkState (<[chat := ref]> (batchMap st)) (batches st) (timers st)
          (nextTimer st) (calls st) (nextCall st) (promises st).

Definition map_delete (chat : Z) (st : State) : State :=
  mkState (delete chat (batchMap st)) (batches st) (timers st)
          (nextTimer st) (calls st) (nextCall st) (promises st).

Definition setTimeout (task : TimerTask) (st : State) : nat * State :=
  (nextTimer st,
   mkState (batchMap st) (batches st) (<[nextTimer st := task]> (timers st))
           (S (nextTimer st)) (calls st) (nextCall st) (promises st)).

Definition clearTimeout (tid : nat) (st : State) : State :=
  mkState (batchMap st) (batches st) (delete tid (timers st)) (nextTimer st)
          (calls st) (nextCall st) (promises st).

(** [resolve] and [reject]: only a pending promise changes. *)
Definition settle (p : nat) (o : Promise) (st : State) : State :=
  match promises st !! p with
  | Some Pending =>
    mkState (batchMap st) (batches st) (timers st) (nextTimer st)
            (calls st) (nextCall st) (<[p := o]> (promises st))
  | _ => st
  end.

(** [handleResult(results)] *)
Definition handleResult (h : Handler) (results : list ModerateMessageResponse)
    (st : State) : State :=
  match results !! h_index h with
  | Some r => settle (h_promise h) (Resolved r) st
  | None =>
    settle (h_promise h) (Rejected "Не найден результат модерации для сообщения") st
  end.

(** The code after the results are there.  [moderateMessageBatch] never
    rejects (it is total above), so the [catch] handlers never run. *)
Definition run_continuation (k : Continuation) (count : nat)
    (results : list ModerateMessageResponse) (st : State) : State :=
  match k with
  | AfterTimer h => Nat.iter count (handleResult h results) st
  | AfterSize h => handleResult h results st
  end.

(** [this.moderateMessageBatch(messagesToProcess)] is called: its HTTP
    request leaves now and the rest waits for the reply; for an empty
    list there is no request and the rest runs at once. *)
Definition start_call (messagesToProcess : list ModerateMessageRequest)
    (k : Continuation) (st : State) : State :=
  match moderateMessageBatch_call messagesToProcess with
  | Some api =>
    mkState (batchMap st) (batches st) (timers st) (nextTimer st)
            (<[nextCall st := mkCall api messagesToProcess k]> (calls st))
            (S (nextCall st)) (promises st)
  | None =>
    run_continuation k (length messagesToProcess)
                     (moderateMessageBatch messagesToProcess HttpError) st
  end.

(** [{...request, messageId: request.messageId || batch.messages.length}] *)
Definition stamp (request : ModerateMessageRequest) (position : nat)
  : ModerateMessageRequest :=
  mkRequest (messageText request) (userName request) (userBio request)
            (hasAvatar request) (suspiciousProfile request)
            (suspicionReason request)
            (Some (or_else (messageId request) (Z.of_nat position)))
            (chatId request).

(** *** The public submit operation *)

(** [queueMessageForModeration], called at time [now]: the promise it
    returns and the state it leaves. *)
Definition queueMessageForModeration (cfg : Config) (now : Z)
    (request : ModerateMessageRequest) (st : State) : nat * State :=
  let chat := or_else (chatId request) 0 in
  let '(p, st) := new_promise st in
  let '(ref, st) :=
    match batchMap st !! chat with
    | Some ref => (ref, st)
    | None =>
      let '(ref, st) := new_batch (mkBatch [] None now) st in
      (ref, map_set chat ref st)
    end in
  match batches st !! ref with
  | None => (p, st)
  | Some batch0 =>
    let batch :=
      mkBatch (messages batch0 ++ [stamp request (length (messages batch0))])
              (timer batch0) now in
    let st := set_batch ref batch st in
    let handler := mkHandler p (length (messages batch) - 1) in
    if (length (messages batch) =? 1)%nat then
      let st := match timer batch with
                | Some old => clearTimeout old st
                | None => st
                end in
      let '(tid, st) :=
        setTimeout (mkTimer chat ref handler now (batchTimeout cfg)) st in
      (p, set_batch ref (mkBatch (messages batch) (Some tid) now) st)
    else if (maxBatchSize cfg <=? Z.of_nat (length (messages batch)))%Z then
      let st := match timer batch with
                | Some old =>
                  set_batch ref (mkBatch (messages batch) None now)
                            (clearTimeout old st)
                | None => st
                end in
      let messagesToProcess := messages batch in
      let st := map_delete chat st in
      (p, start_call messagesToProcess (AfterSize handler) st)
    else (p, st)
  end.

(** *** The timer callback and the return of an HTTP call *)

(** The callback of timer [tid] runs: it snapshots the messages of its
    batch, deletes the entry of its chat from the map, then calls
    [moderateMessageBatch]. *)
Definition timer_callback (task : TimerTask) (st : State) : option State :=
  batch ← batches st !! t_batch task;
  let messagesToProcess := messages batch in
  let st := map_delete (t_chat task) st in
  Some (start_call messagesToProcess (AfterTimer (t_handler task)) st).

Definition timerFires (tid : nat) (st : State) : option State :=
  task ← timers st !! tid;
  timer_callback task (clearTimeout tid st).

Definition httpReturns (cid : nat) (http : HttpResult) (st : State)
  : option State :=
  call ← calls st !! cid;
  let st := mkState (batchMap st) (batches st) (timers st) (nextTimer st)
                    (delete cid (calls st)) (nextCall st) (promises st) in
  Some (run_continuation (c_then call) (length (c_messages call))
                         (moderateMessageBatch (c_messages call) http) st).

Inductive Event : Type :=
| Submit (now : Z) (request : ModerateMessageRequest)
| TimerFires (tid : nat)
| HttpReturns (cid : nat) (http : HttpResult).

(** One turn of the event loop; [None] when the event cannot happen
    (no such timer is armed, no such call is in flight). *)
Definition step (cfg : Config) (ev : Event) (st : State) : option State :=
  match ev with
  | Submit now request => Some (snd (queueMessageForModeration cfg now request st))
  | TimerFires tid => timerFires tid st
  | HttpReturns cid http => httpReturns cid http st
  end.

Fixpoint run (cfg : Config) (evs : list Event) (st : State) : option State :=
  match evs with
  | [] => Some st
  | ev :: evs' =>
    match step cfg ev st with
    | Some st' => run cfg evs' st'
    | None => None
    end
  end.

(** The states the service can be in. *)
Inductive reachable (cfg : Config) : State -> Prop :=
| reachable_initial : reachable cfg initial
| reachable_step st ev st' :
    reachable cfg st -> step cfg ev st = Some st' -> reachable cfg st'.

(** *** Coherence of the state

    What every reachable state satisfies: an open batch is non-empty and
    owns the armed timer that will flush it; an armed timer belongs to
    the open batch of its chat and was armed by the first caller of that
    batch; the promise a timer or a call in flight will settle is still
    pending, and no two of them settle the same promise. *)
Record coherent (st : State) : Prop := mkCoherent {
  coh_map : forall chat ref,
    batchMap st !! chat = Some ref ->
    exists batch tid task,
      batches st !! ref = Some batch /\ messages batch <> [] /\
      timer batch = Some tid /\ timers st !! tid = Some task /\
      t_chat task = chat /\ t_batch task = ref;
  coh_timer : forall tid task,
    timers st !! tid = Some task ->
    tid < nextTimer st /\
    batchMap st !! t_chat task = Some (t_batch task) /\
    (exists batch, batches st !! t_batch task = Some batch /\
                   timer batch = Some tid) /\
    h_index (t_handler task) = 0 /\
    promises st !! h_promise (t_handler task) = Some Pending;
  coh_call : forall cid call,
    calls st !! cid = Some call ->
    cid < nextCall st /\
    moderateMessageBatch_call (c_messages call) = Some (c_api call) /\
    promises st !! h_promise (cont_handler (c_then call)) = Some Pending /\
    match c_then call with
    | AfterTimer h => h_index h = 0
    | AfterSize h => h_index h = length (c_messages call) - 1
    end;
  coh_timer_owner : forall t1 t2 k1 k2,
    timers st !! t1 = Some k1 -> timers st !! t2 = Some k2 ->
    h_promise (t_handler k1) = h_promise (t_handler k2) -> t1 = t2;
  coh_call_owner : forall c1 c2 k1 k2,
    calls st !! c1 = Some k1 -> calls st !! c2 = Some k2 ->
    h_promise (cont_handler (c_then k1)) = h_promise (cont_handler (c_then k2)) ->
    c1 = c2;
  coh_timer_call : forall tid task cid call,
    timers st !! tid = Some task -> calls st !! cid = Some call ->
    h_promise (t_handler task) <> h_promise (cont_handler (c_then call))
}.

(** A promise nothing will ever settle: no armed timer and no call in
    flight holds its [resolve] or [reject]. *)
Definition orphan (p : nat) (st : State) : Prop :=
  promises st !! p = Some Pending /\
  (forall tid task, timers st !! tid = Some task ->
                    h_promise (t_handler task) <> p) /\
  (forall cid call, calls st !! cid = Some call ->
                    h_promise (cont_handler (c_then call)) <> p).

(** ** Sample data for the examples *)

Definition plain_request (text : string) (chat : Z) : ModerateMessageRequest :=
  mkRequest text None None None None None None (Some chat).

(** A reply whose first part is a call of function [name] with [args]. *)
Definition function_reply (name : string) (args : jsval) : jsval :=
  JObj [("candidates",
         JArr [JObj [("content",
                      JObj [("parts",
                             JArr [JObj [("functionCall",
                                          JObj [("name", JStr name);
                                                ("args", args)])]])])]])].

(** A reply whose first part is free text. *)
Definition text_reply (text : string) : jsval :=
  JObj [("candidates",
         JArr [JObj [("content",
                      JObj [("parts", JArr [JObj [("text", JStr text)]])])]])].

(** One entry of the batch function's [results]. *)
Definition entry (index : Z) (spam : bool) (conf : Q) (why : string)
    (pattern ban : bool) : jsval :=
  JObj [("messageIndex", JNum (num_of_Z index));
        ("isSpam", JBool spam);
        ("confidence", JNum (Fin conf));
        ("reason", JStr why);
        ("matchesKnownPattern", JBool pattern);
        ("shouldBan", JBool ban)].

Definition batch_reply (entries : list jsval) : jsval :=
  function_reply "moderate_messages_batch" (JObj [("results", JArr entries)]).

(** ** Auxiliary notions for the proofs *)

(** [st'] differs from [st] at most in the state of promise [p]. *)
Definition only_promise (p : nat) (st st' : State) : Prop :=
  batchMap st' = batchMap st /\ batches st' = batches st /\
  timers st' = timers st /\ nextTimer st' = nextTimer st /\
  calls st' = calls st /\ nextCall st' = nextCall st /\
  length (promises st') = length (promises st) /\
  (forall q, q <> p -> promises st' !! q = promises st !! q).

(** The verdict [handleResult] passes to the promise. *)
Definition verdict (h : Handler) (results : list ModerateMessageResponse)
  : Promise :=
  match results !! h_index h with
  | Some r => Resolved r
  | None => Rejected "Не найден результат модерации для сообщения"
  end.

(** ** Notions the statements below use *)

(** The request with its [messageId] replaced. *)
Definition set_messageId (mid : option Z) (request : ModerateMessageRequest)
  : ModerateMessageRequest :=
  mkRequest (messageText request) (userName request) (userBio request)
            (hasAvatar request) (suspiciousProfile request)
            (suspicionReason request) mid (chatId request).


(** The entries of a structured batch reply the service accepts: the
    first part of the reply is a call of [moderate_messages_batch] whose
    [results] is an array without [null]. *)
Definition batch_entries (data : jsval) : option (list jsval) :=
  match candidate_part data "functionCall" with
  | Some functionCall =>
    if truthy functionCall
       && str_eq (prop_opt functionCall "name") "moderate_messages_batch"
    then match prop_opt (prop_opt functionCall "args") "results" with
         | JArr items => if existsb nullish items then None else Some items
         | _ => None
         end
    else None
  | None => None
  end.

(** The verdict of one entry, as the classifier sent it. *)
Definition entry_verdict (e : jsval) : list jsval :=
  [prop_opt e "isSpam"; prop_opt e "confidence"; prop_opt e "reason";
   prop_opt e "matchesKnownPattern"; prop_opt e "shouldBan"].

Definition response_verdict (r : ModerateMessageResponse) : list jsval :=
  [isSpam r; confidence r; reason r; matchesKnownPattern r; shouldBan r].

(** A text in which the classifier printed its verdict as JSON:
    [{"isSpam": true, "confidence": 0.9}]. *)
Definition json_verdict_text : string :=
  "{" +:+ dquote +:+ "isSpam" +:+ dquote +:+ ": true, "
      +:+ dquote +:+ "confidence" +:+ dquote +:+ ": 0.9}".

(** The arguments of a structured single-message reply the service
    accepts: the first part of the reply is a call of [moderate_message]
    with truthy [args]. *)
Definition single_args (data : jsval) : option jsval :=
  match candidate_part data "functionCall" with
  | Some functionCall =>
    if truthy functionCall
       && str_eq (prop_opt functionCall "name") "moderate_message"
       && truthy (prop_opt functionCall "args")
    then Some (prop_opt functionCall "args")
    else None
  | None => None
  end.



(** Two requests as the coordinator hands them over: stamped with their
    positions. *)
Definition two_requests : list ModerateMessageRequest :=
  [stamp (plain_request "buy followers now" 9) 0;
   stamp (plain_request "hello" 9) 1].

(** A structured reply that cites only the second of two requests. *)
Definition partial_reply : jsval :=
  batch_reply [entry 1 true (9 # 10) "advertising" true true].


(** Verdicts a classifier may send: a confidence of 5, a confidence of
    -1, no confidence at all. *)
Definition verdict_with (conf : list (string * jsval)) : jsval :=
  JObj ([("isSpam", JBool true)] ++ conf
        ++ [("reason", JStr "advertising");
            ("matchesKnownPattern", JBool true); ("shouldBan", JBool true)]).

(** [st'] is a later state than [st]: identifiers only grow, a timer or
    a call that [st] had already numbered is in [st'] as it was in [st]
    or gone, a batch object only gains messages and keeps its timer
    handle unless it is cleared, and the map opens no old batch object
    again. *)
Definition evolves (st st' : State) : Prop :=
  nextTimer st <= nextTimer st' /\
  nextCall st <= nextCall st' /\
  length (batches st) <= length (batches st') /\
  (forall tid task, timers st' !! tid = Some task -> tid < nextTimer st ->
                    timers st !! tid = Some task) /\
  (forall cid call, calls st' !! cid = Some call -> cid < nextCall st ->
                    calls st !! cid = Some call) /\
  (forall ref b, batches st !! ref = Some b ->
     exists b', batches st' !! ref = Some b' /\
                messages b `prefix_of` messages b' /\
                (timer b' = timer b \/ timer b' = None)) /\
  (forall chat ref, batchMap st' !! chat = Some ref ->
                    ref < length (batches st) -> batchMap st !! chat = Some ref).

Definition service5 : Config := mkConfig 3000 5.

(** A state with a call in flight: two requests filled a batch of
    maximal size 2 for chat 9. *)
Definition busy_state : State :=
  snd (queueMessageForModeration (mkConfig 3000 2) 10 (plain_request "hello" 9)
         (snd (queueMessageForModeration (mkConfig 3000 2) 0
                 (plain_request "buy followers now" 9) initial))).

(** Three requests for chat 9 within 100 ms, a batch of at most 5, the
    timer fires, the HTTP call fails. *)
Definition three_callers_transport_error : list Event :=
  [Submit 0 (plain_request "buy followers now" 9);
   Submit 40 (plain_request "hello" 9);
   Submit 80 (plain_request "cheap watches" 9);
   TimerFires 0;
   HttpReturns 0 HttpError].

Definition service1 : Config := mkConfig 3000 1.

(** ** Further notions: what a batch holds *)

(** The conversation a request is queued under: [request.chatId || 0]. *)
Definition conversation (request : ModerateMessageRequest) : Z :=
  or_else (chatId request) 0.

(** What every reachable state satisfies about the contents of batches:
    the items of an open batch all belong to the conversation the batch
    is open under and carry an identity, an open batch is below
    [maxBatchSize] when that is at least 2, and a call in flight carries
    the items of one conversation, at most [maxBatchSize] of them. *)
Record well_batched (cfg : Config) (st : State) : Prop := mkWellBatched {
  wb_open : forall chat ref batch,
    batchMap st !! chat = Some ref -> batches st !! ref = Some batch ->
    Forall (fun m => conversation m = chat /\ messageId m <> None)
           (messages batch) /\
    ((2 <= maxBatchSize cfg)%Z ->
     (Z.of_nat (length (messages batch)) < maxBatchSize cfg)%Z);
  wb_call : forall cid call,
    calls st !! cid = Some call ->
    (exists chat,
        Forall (fun m => conversation m = chat /\ messageId m <> None)
               (c_messages call)) /\
    ((2 <= maxBatchSize cfg)%Z ->
     (Z.of_nat (length (c_messages call)) <= maxBatchSize cfg)%Z)
}.

(** ** Further notions: replies *)

(** The reply has no text to fall back on: reading its [text] part
    throws or gives a falsy value. *)
Definition no_text (data : jsval) : bool :=
  match candidate_part data "text" with
  | Some textResponse => negb (truthy textResponse)
  | None => true
  end.

(** The conservative default, whatever its wording and identity. *)
Definition is_conservative (r : ModerateMessageResponse) : Prop :=
  isSpam r = JBool false /\ confidence r = JNum (Fin 0) /\
  matchesKnownPattern r = JBool false /\ shouldBan r = JBool false.

Definition is_boolean (v : jsval) : Prop := exists b, v = JBool b.
Definition is_number (v : jsval) : Prop := exists n, v = JNum n.

(** The flag, the pattern and the ban are booleans and the confidence is
    a number. *)
Definition well_typed (r : ModerateMessageResponse) : Prop :=
  is_boolean (isSpam r) /\ is_number (confidence r)
  /\ is_boolean (matchesKnownPattern r) /\ is_boolean (shouldBan r).

(** ** Further notions: texts *)

(** Two texts that differ at most in the case of their letters. *)
Definition same_letters (a b : ustring) : Prop := map canon a = map canon b.

(** The phrases by which the classifier denies that a message is spam
    (the alternatives of [re_not_spam]). *)
Definition denials : list string :=
  ["не является спамом"; "не спам"; "не рекламa"].

(** The code point of the opening brace. *)
Definition brace : N := 123.

(** ** The gateway: the streaming operation *)

Definition newline : ustring := [10%N].

(** [s.split("\n")] *)
Fixpoint split_newline (cur_rev : ustring) (s : ustring) : list ustring :=
  match s with
  | [] => [rev cur_rev]
  | c :: s' =>
    if (c =? 10)%N then rev cur_rev :: split_newline [] s'
    else split_newline (c :: cur_rev) s'
  end.

Definition split_lines (s : ustring) : list ustring := split_newline [] s.

(** [lines.pop() || ""]: the array without its last element, and that
    element. *)
Definition pop (lines : list ustring) : list ustring * ustring :=
  (removelast lines, default [] (last lines)).

(** [line.startsWith(p)] *)
Definition startsWith (line : ustring) (p : string) : bool :=
  bool_decide (take (length (u p)) line = u p).

(** What the generator yields: the text of the first part, or the
    serialisation [JSON.stringify(functionCall)] of its function call,
    which is kept symbolic. *)
Inductive Yielded : Type :=
| YieldText (text : jsval)
| YieldCall (functionCall : jsval).

(** The [try] block on the payload of a [data: ] line; [None] when it
    yields nothing (also when it throws, which is caught and logged). *)
Definition stream_data (dataStr : ustring) : option Yielded :=
  data ← JSON_parse dataStr;
  text ← candidate_part data "text";
  if truthy text then Some (YieldText text)
  else
    functionCall ← candidate_part data "functionCall";
    if truthy functionCall then Some (YieldCall functionCall) else None.

(** One turn of the loop over the lines: go on, with or without a value
    yielded, or return. *)
Inductive LineOutcome : Type :=
| Continue (yielded : option Yielded)
| Return.

Definition stream_line (line : ustring) : LineOutcome :=
  if bool_decide (trim line = []) then Continue None
  else if startsWith line "data: " then
    let dataStr := drop 6 line in
    if bool_decide (dataStr = u "[DONE]") then Return
    else Continue (stream_data dataStr)
  else Continue None.

(** The loop over the complete lines: the values yielded, and whether
    the generator returned. *)
Fixpoint stream_lines (lines : list ustring) : list Yielded * bool :=
  match lines with
  | [] => ([], false)
  | line :: rest =>
    match stream_line line with
    | Return => ([], true)
    | Continue yielded =>
      let '(ys, returned) := stream_lines rest in
      (option_list yielded ++ ys, returned)
    end
  end.

(** The loop over the chunks of the response, each already decoded
    ([chunk.toString()]). *)
Fixpoint stream_chunks (buffer : ustring) (chunks : list ustring)
  : list Yielded :=
  match chunks with
  | [] => []
  | chunkStr :: rest =>
    let '(lines, buffer') := pop (split_lines (buffer ++ chunkStr)) in
    let '(ys, returned) := stream_lines lines in
    if returned then ys else ys ++ stream_chunks buffer' rest
  end.

(** [generateContentStream], given the chunks of a response that
    arrived: the values it yields, in order. *)
Definition generateContentStream (chunks : list ustring) : list Yielded :=
  stream_chunks [] chunks.

(** The line that ends a stream. *)
Definition done_line : ustring := u "data: [DONE]" ++ newline.

(** A line of a stream that carries a text part,
    [data: {"candidates":[{"content":{"parts":[{"text":"..."}]}}]}],
    without its line break. *)
Definition text_line (text : string) : ustring :=
  u ("data: {" +:+ dquote +:+ "candidates" +:+ dquote +:+ ":[{"
       +:+ dquote +:+ "content" +:+ dquote +:+ ":{"
       +:+ dquote +:+ "parts" +:+ dquote +:+ ":[{"
       +:+ dquote +:+ "text" +:+ dquote +:+ ":"
       +:+ dquote +:+ text +:+ dquote +:+ "}]}}]}").

(** ** The gateway: the plain operation *)

(** [generateContent], given the outcome of its HTTP call: the string it
    returns, with the same convention as for the generator; [None] when
    it throws (the catch block logs and throws again). *)
Definition generateContent (http : HttpResult) : option Yielded :=
  match http with
  | HttpError => None
  | HttpOk data =>
    functionCall ← candidate_part data "functionCall";
    if truthy functionCall then Some (YieldCall functionCall)
    else
      text ← candidate_part data "text";
      if truthy text then Some (YieldText text) else None
  end.

(** ** The gateway: prompts written by the operator *)

(** [GetSubstitution] for an expression without groups: in the
    replacement [$$] stands for a dollar sign, [$&] for the matched text,
    [$`] and [$'] for the text before and after the match; every other
    character, a dollar sign included, stands for itself. *)
Fixpoint substitution (replacement matched before after : ustring) : ustring :=
  match replacement with
  | [] => []
  | c :: r =>
    if (c =? 36)%N then
      match r with
      | d :: r' =>
        if (d =? 36)%N then 36%N :: substitution r' matched before after
        else if (d =? 38)%N then matched ++ substitution r' matched before after
        else if (d =? 96)%N then before ++ substitution r' matched before after
        else if (d =? 39)%N then after ++ substitution r' matched before after
        else c :: substitution r matched before after
      | [] => [c]
      end
    else c :: substitution r matched before after
  end.

(** [s.replace(r, replacement)] with a global expression that never
    matches the empty string: the matches are those of the text as it
    was, from left to right and without overlap. *)
Fixpoint replace_loop (r : regex) (replacement : ustring) (n : nat)
         (before_rev s : ustring) : ustring :=
  match n, s with
  | _, [] => []
  | O, _ => s
  | S n', c :: s' =>
    match match_here r s with
    | Some (rest, _) =>
      if (length rest <? length s)%nat
      then
        let matched := take (length s - length rest) s in
        substitution replacement matched (rev before_rev) rest
        ++ replace_loop r replacement n' (rev matched ++ before_rev) rest
      else c :: replace_loop r replacement n' (c :: before_rev) s'
    | None => c :: replace_loop r replacement n' (c :: before_rev) s'
    end
  end.

Definition replace_global (r : regex) (replacement s : ustring) : ustring :=
  replace_loop r replacement (length s) [] s.

(** The text [${name}]. *)
Definition variable (name : string) : ustring := u ("${" +:+ name +:+ "}").

(** [/\${name}/g] *)
Definition placeholder (name : string) : regex :=
  lit ("${" +:+ name +:+ "}").

(** [p = p.replace(/\${name}/g, value)] for the variables of a list, in
    their order. *)
Definition substitute (variables : list (string * ustring)) (prompt : ustring)
  : ustring :=
  fold_left (fun p nv => replace_global (placeholder nv.1) nv.2 p)
            variables prompt.

(** [String(b)] *)
Definition String_bool (b : bool) : string := if b then "true" else "false".

(** [String(n)] for an integer (below 10^21 in absolute value, as the
    identifiers are). *)
Definition String_Z (n : Z) : string :=
  DecimalString.NilZero.string_of_int (Z.to_int n).

(** [s || ""] and [s || d] on an optional text. *)
Definition text_or (s : option string) (d : string) : string :=
  match s with
  | Some t => if String.eqb t "" then d else t
  | None => d
  end.

(** The variables of a single message and their values. *)
Definition single_variables (m : ModerateMessageRequest)
  : list (string * ustring) :=
  [("messageText", u (messageText m));
   ("userName", u (text_or (userName m) ""));
   ("userBio", u (text_or (userBio m) ""));
   ("hasAvatar", u (String_bool (default false (hasAvatar m))));
   ("suspiciousProfile", u (String_bool (default false (suspiciousProfile m))));
   ("suspicionReason", u (text_or (suspicionReason m) ""));
   ("messageId", u (String_Z (or_else (messageId m) 0)));
   ("chatId", u (String_Z (or_else (chatId m) 0)))].

(** The part of [messagesText] for the message at index [i]. *)
Definition message_block (i : nat) (msg : ModerateMessageRequest) : ustring :=
  u "Сообщение " ++ u (String_Z (Z.of_nat i + 1)) ++ u ":" ++ newline
  ++ u "Текст: " ++ u dquote ++ u (messageText msg) ++ u dquote ++ newline
  ++ (if String.eqb (text_or (userName msg) "") "" then []
      else u "Имя пользователя: " ++ u (text_or (userName msg) "") ++ newline)
  ++ (if String.eqb (text_or (userBio msg) "") "" then []
      else u "Био пользователя: " ++ u (text_or (userBio msg) "") ++ newline)
  ++ match hasAvatar msg with
     | Some b => u "У пользователя " ++ u (if b then "есть" else "нет")
                 ++ u " аватарка" ++ newline
     | None => []
     end
  ++ (if default false (suspiciousProfile msg)
      then u "ВНИМАНИЕ: Профиль этого пользователя предварительно помечен как подозрительный. Причина: "
           ++ u (text_or (suspicionReason msg) "подозрительное био с ссылками")
           ++ newline
      else [])
  ++ u "---" ++ newline.

Definition messagesText (batchMessages : list ModerateMessageRequest) : ustring :=
  concat (imap message_block batchMessages).

(** The variables of a batch and their values. *)
Definition batch_variables (batchMessages : list ModerateMessageRequest)
  : list (string * ustring) :=
  [("messages", messagesText batchMessages);
   ("messageCount", u (String_Z (Z.of_nat (length batchMessages))))].

(** [processPromptVariables], for the service's [model] and the current
    [date] in ISO form; an absent [batchMessages] is the empty list. *)
Definition processPromptVariables
    (model date : string) (prompt : ustring)
    (singleMessage : option ModerateMessageRequest)
    (batchMessages : list ModerateMessageRequest) : ustring :=
  let processedPrompt :=
    substitute [("model", u model); ("date", u date)] prompt in
  let processedPrompt :=
    match singleMessage with
    | Some m => substitute (single_variables m) processedPrompt
    | None => processedPrompt
    end in
  match batchMessages with
  | [] => processedPrompt
  | _ => substitute (batch_variables batchMessages) processedPrompt
  end.

(** A text is a prefix of another. *)
Fixpoint starts_with (p s : ustring) : bool :=
  match p, s with
  | [], _ => true
  | c :: p', d :: s' => (c =? d)%N && starts_with p' s'
  | _ :: _, [] => false
  end.

(** A variable text starts with a dollar sign and holds no other. *)
Definition one_dollar (v : ustring) : bool :=
  match v with
  | c :: v' => (c =? 36)%N && forallb (fun d => negb (d =? 36)%N) v'
  | [] => false
  end.

(** The variables of a list of names are told apart: each starts with
    its only dollar sign, and none agrees with a later one as far as
    both go. *)
Fixpoint told_apart (names : list string) : bool :=
  match names with
  | [] => true
  | name :: rest =>
    one_dollar (variable name)
    && forallb (fun other =>
                  negb (starts_with (take (length (variable other)) (variable name))
                                    (variable other)))
               rest
    && told_apart rest
  end.

(** The variables that are replaced and their values, in the order of
    their replacement. *)
Definition all_variables (model date : string)
    (singleMessage : option ModerateMessageRequest)
    (batchMessages : list ModerateMessageRequest) : list (string * ustring) :=
  [("model", u model); ("date", u date)]
  ++ match singleMessage with Some m => single_variables m | None => [] end
  ++ match batchMessages with [] => [] | _ => batch_variables batchMessages end.

(** A message that quotes one of the variables, and its author's name. *)
Definition quoting_request : ModerateMessageRequest :=
  mkRequest "hi ${userName}!" (Some "Bob") None None None None None None.

(** ** The gateway: the operations with a prompt of the operator *)

(** The request of such an operation: the prompt text sent, and the
    settings. *)
Record PromptedCall : Type := mkPromptedCall {
  sentPrompt : ustring;
  p_tool : string;
  p_temperature : Q;
  p_maxOutputTokens : Z
}.

Definition moderateWithCustomPrompt_call (model date : string)
    (request : ModerateMessageRequest) (customPrompt : ustring) : PromptedCall :=
  {| sentPrompt :=
       processPromptVariables model date customPrompt (Some request) [];
     p_tool := "moderate_message";
     p_temperature := match suspiciousProfile request with
                      | Some true => 5 # 100
                      | _ => 1 # 10
                      end;
     p_maxOutputTokens := 1024 |}.

(** The inner [try] block of [moderateWithCustomPrompt]; [None] when it
    throws. *)
Definition moderateWithCustomPrompt_try
    (request : ModerateMessageRequest) (data : jsval)
  : option ModerateMessageResponse :=
  functionCall ← candidate_part data "functionCall";
  if truthy functionCall
     && str_eq (prop_opt functionCall "name") "moderate_message"
     && truthy (prop_opt functionCall "args")
  then Some (response_of_args (prop_opt functionCall "args") (messageId request))
  else
    textResponse ← candidate_part data "text";
    if truthy textResponse then
      match textResponse with
      | JStr _ =>
        Some (with_id (extractModerationFromText textResponse)
                      (messageId request))
      | _ => None
      end
    else None.

(** [moderateWithCustomPrompt], given the outcome of its HTTP call. *)
Definition moderateWithCustomPrompt
    (request : ModerateMessageRequest) (http : HttpResult)
  : ModerateMessageResponse :=
  let safe := conservative "Произошла ошибка при обработке" (messageId request) in
  match http with
  | HttpError => safe
  | HttpOk data =>
    match moderateWithCustomPrompt_try request data with
    | Some r => r
    | None =>
      match candidate_part data "text" with
      | Some textResponse =>
        if truthy textResponse
        then with_id (extractModerationFromText textResponse)
                     (messageId request)
        else safe
      | None => safe
      end
    end
  end.

(** The HTTP call [moderateWithCustomPromptBatch] issues: none for an
    empty list, that of [moderateWithCustomPrompt] for one message, the
    batch call otherwise. *)
Definition moderateWithCustomPromptBatch_call (model date : string)
    (messages : list ModerateMessageRequest) (customPrompt : ustring)
  : option PromptedCall :=
  match messages with
  | [] => None
  | [m] => Some (moderateWithCustomPrompt_call model date m customPrompt)
  | _ =>
    Some {| sentPrompt :=
              processPromptVariables model date customPrompt None messages;
            p_tool := "moderate_messages_batch";
            p_temperature := 1 # 10;
            p_maxOutputTokens := 2048 |}
  end.

(** The inner [try] block of [moderateWithCustomPromptBatch]. *)
Definition moderateWithCustomPromptBatch_try
    (messages : list ModerateMessageRequest) (data : jsval)
  : option (list ModerateMessageResponse) :=
  functionCall ← candidate_part data "functionCall";
  let batchResults := prop_opt (prop_opt functionCall "args") "results" in
  if truthy functionCall
     && str_eq (prop_opt functionCall "name") "moderate_messages_batch"
     && truthy batchResults
  then structured_results messages batchResults
  else
    textResponse ← candidate_part data "text";
    if truthy textResponse then
      match textResponse with
      | JStr _ => Some (extractBatchResultsFromText textResponse messages)
      | _ => None
      end
    else None.

(** [moderateWithCustomPromptBatch], given the outcome of its HTTP
    call. *)
Definition moderateWithCustomPromptBatch
    (messages : list ModerateMessageRequest) (http : HttpResult)
  : list ModerateMessageResponse :=
  let safe := safe_batch "Произошла ошибка при обработке батча" messages in
  match messages with
  | [] => []
  | [m] => [moderateWithCustomPrompt m http]
  | _ =>
    match http with
    | HttpError => safe
    | HttpOk data =>
      match moderateWithCustomPromptBatch_try messages data with
      | Some results => results
      | None =>
        match candidate_part data "text" with
        | Some textResponse =>
          if truthy textResponse
          then extractBatchResultsFromText textResponse messages
          else safe
        | None => safe
        end
      end
    end
  end.

(** The settings of a request, without its prompt. *)
Definition settings (c : ApiCall) : string * Q * Z :=
  (tool c, temperature c, maxOutputTokens c).

Definition prompted_settings (c : PromptedCall) : string * Q * Z :=
  (p_tool c, p_temperature c, p_maxOutputTokens c).

(** ** The caller: what the bot does with an outcome *)

(** [a >= b] on numbers. *)
Definition num_ge (a b : jsnum) : bool :=
  match a, b with
  | NaN, _ | _, NaN => false
  | Inf false, _ => true
  | Inf true, Inf true => true
  | Inf true, _ => false
  | Fin _, Inf negative => negative
  | Fin x, Fin y => Qle_bool y x
  end.

(** [moderationResult.isSpam &&
     moderationResult.confidence >= confidenceThreshold]: the test of
    [moderateWithGemini] under which the message is deleted and its
    author possibly banned. *)
Definition acts_on (moderationResult : ModerateMessageResponse)
    (confidenceThreshold : jsnum) : bool :=
  truthy (isSpam moderationResult)
  && num_ge (toNumber (confidence moderationResult)) confidenceThreshold.

(** ** Further notions: the verdict written as JSON in a text *)

(** The JSON verdict of a text, if it holds one: the first [{...}] of the
    text parses as JSON and has both [isSpam] and [confidence]. *)
Definition json_verdict (text : ustring) : option jsval :=
  match search re_json text with
  | None => None
  | Some jsonMatch =>
    match JSON_parse (m_text jsonMatch) with
    | None => None
    | Some jsonData =>
      if defined (prop_opt jsonData "isSpam")
         && defined (prop_opt jsonData "confidence")
      then Some jsonData
      else None
    end
  end.


(** ** Time *)





(** * Proofs *)

(** ** Settling promises *)

Lemma only_promise_refl p st : only_promise p st st.
Proof. unfold only_promise. naive_solver. Qed.

Lemma only_promise_trans p st1 st2 st3 :
  only_promise p st1 st2 -> only_promise p st2 st3 -> only_promise p st1 st3.
Proof.
  unfold only_promise. intros (?&?&?&?&?&?&?&Ha) (?&?&?&?&?&?&?&Hb).
  repeat split; try congruence. intros q Hq. rewrite Hb, Ha; auto.
Qed.

Lemma settle_only p o st : only_promise p st (settle p o st).
Proof.
  unfold settle. destruct (promises st !! p) as [[]|] eqn:E;
    try apply only_promise_refl.
  unfold only_promise; simpl. repeat split; auto.
  - apply length_insert.
  - intros q Hq. apply list_lookup_insert_ne. congruence.
Qed.

Lemma settle_pending p o st :
  promises st !! p = Some Pending -> promises (settle p o st) !! p = Some o.
Proof.
  intros H. unfold settle. rewrite H. simpl.
  apply list_lookup_insert_eq. eapply lookup_lt_Some; eauto.
Qed.

Lemma settle_settled p o st x :
  promises st !! p = Some x -> x <> Pending -> settle p o st = st.
Proof. intros H Hx. unfold settle. rewrite H. destruct x; congruence. Qed.

Lemma handleResult_only h results st :
  only_promise (h_promise h) st (handleResult h results st).
Proof. unfold handleResult. destruct (results !! h_index h); apply settle_only. Qed.

Lemma iter_handleResult_only h results n st :
  only_promise (h_promise h) st (Nat.iter n (handleResult h results) st).
Proof.
  induction n; simpl.
  - apply only_promise_refl.
  - eapply only_promise_trans; [exact IHn | apply handleResult_only].
Qed.

Lemma run_continuation_only k n results st :
  only_promise (h_promise (cont_handler k)) st (run_continuation k n results st).
Proof.
  destruct k; simpl; [apply iter_handleResult_only | apply handleResult_only].
Qed.

Lemma handleResult_settle h results st :
  handleResult h results st = settle (h_promise h) (verdict h results) st.
Proof. unfold handleResult, verdict. destruct (results !! h_index h); reflexivity. Qed.

Lemma settle_twice p o st : settle p o (settle p o st) = settle p o st.
Proof.
  unfold settle.
  destruct (promises st !! p) as [[]|] eqn:E; simpl; rewrite ?E; auto.
  rewrite list_lookup_insert_eq by (eapply lookup_lt_Some; eauto).
  destruct o; rewrite ?list_insert_insert_eq; reflexivity.
Qed.

Lemma iter_handleResult h results n st :
  Nat.iter (S n) (handleResult h results) st = handleResult h results st.
Proof.
  induction n.
  - reflexivity.
  - change (Nat.iter (S (S n)) (handleResult h results) st)
      with (handleResult h results (Nat.iter (S n) (handleResult h results) st)).
    rewrite IHn. rewrite !handleResult_settle. apply settle_twice.
Qed.

Lemma run_continuation_pending k n results st :
  n <> 0 ->
  promises st !! h_promise (cont_handler k) = Some Pending ->
  promises (run_continuation k n results st) !! h_promise (cont_handler k)
  = Some (verdict (cont_handler k) results).
Proof.
  intros Hn Hp. destruct k as [h|h]; simpl in *.
  - destruct n; [congruence|]. rewrite iter_handleResult, handleResult_settle.
    apply settle_pending; assumption.
  - rewrite handleResult_settle. apply settle_pending; assumption.
Qed.

(** ** What a submission does to the state *)

Lemma batch_call_of_many (l : list ModerateMessageRequest) x :
  l <> [] -> moderateMessageBatch_call (l ++ [x]) = Some (batch_call (l ++ [x])).
Proof. destruct l as [|a [|b l]]; simpl; congruence. Qed.

Lemma length_snoc_not_1 (l : list ModerateMessageRequest) x :
  l <> [] -> (length (l ++ [x]) =? 1)%nat = false.
Proof.
  intros H. apply Nat.eqb_neq. rewrite length_app. simpl.
  destruct l; [congruence | simpl; lia].
Qed.

(** The first request of a conversation: a fresh batch object is
    created and entered in the map, and its timer is armed. *)
Lemma queue_first cfg now request st :
  batchMap st !! or_else (chatId request) 0 = None ->
  queueMessageForModeration cfg now request st =
  (length (promises st),
   mkState (<[or_else (chatId request) 0 := length (batches st)]> (batchMap st))
           (batches st ++ [mkBatch [stamp request 0] (Some (nextTimer st)) now])
           (<[nextTimer st :=
                mkTimer (or_else (chatId request) 0) (length (batches st))
                        (mkHandler (length (promises st)) 0) now
                        (batchTimeout cfg)]> (timers st))
           (S (nextTimer st)) (calls st) (nextCall st)
           (promises st ++ [Pending])).
Proof.
  intros Hnone. unfold queueMessageForModeration. simpl. rewrite Hnone. simpl.
  rewrite lookup_app_r by lia. rewrite Nat.sub_diag. simpl.
  f_equal. unfold set_batch. simpl. f_equal.
  rewrite list_insert_insert_eq.
  replace (length (batches st)) with (length (batches st) + 0) at 1 by lia.
  rewrite insert_app_r. reflexivity.
Qed.

(** A later request of a conversation whose batch is open. *)
Lemma queue_join cfg now request st ref batch0 tid0 :
  batchMap st !! or_else (chatId request) 0 = Some ref ->
  batches st !! ref = Some batch0 ->
  messages batch0 <> [] ->
  timer batch0 = Some tid0 ->
  let msgs := messages batch0 ++ [stamp request (length (messages batch0))] in
  let p := length (promises st) in
  queueMessageForModeration cfg now request st =
  (p,
   if (maxBatchSize cfg <=? Z.of_nat (length msgs))%Z
   then mkState (delete (or_else (chatId request) 0) (batchMap st))
                (<[ref := mkBatch msgs None now]> (batches st))
                (delete tid0 (timers st)) (nextTimer st)
                (<[nextCall st :=
                     mkCall (batch_call msgs) msgs
                            (AfterSize (mkHandler p (length msgs - 1)))]>
                   (calls st))
                (S (nextCall st)) (promises st ++ [Pending])
   else mkState (batchMap st)
                (<[ref := mkBatch msgs (Some tid0) now]> (batches st))
                (timers st) (nextTimer st) (calls st) (nextCall st)
                (promises st ++ [Pending])).
Proof.
  intros Hmap Hbatch Hne Htimer msgs p.
  unfold queueMessageForModeration. simpl. rewrite Hmap. simpl.
  rewrite Hbatch. simpl. fold msgs. rewrite Htimer.
  unfold msgs at 1. rewrite length_snoc_not_1 by assumption.
  destruct (maxBatchSize cfg <=? Z.of_nat (length msgs))%Z; [|reflexivity].
  f_equal. unfold start_call, map_delete, set_batch, clearTimeout. simpl.
  unfold msgs at 1. rewrite batch_call_of_many by assumption. fold msgs.
  rewrite list_insert_insert_eq. reflexivity.
Qed.

(** ** Coherence is an invariant *)

Lemma coherent_initial : coherent initial.
Proof. split; simpl; intros; simplify_map_eq. Qed.

Lemma coherent_map_inj st c1 c2 ref :
  coherent st -> batchMap st !! c1 = Some ref -> batchMap st !! c2 = Some ref ->
  c1 = c2.
Proof.
  intros C H1 H2.
  destruct (coh_map st C _ _ H1) as (b1&t1&k1&Hb1&_&Ht1&Hk1&Hc1&_).
  destruct (coh_map st C _ _ H2) as (b2&t2&k2&Hb2&_&Ht2&Hk2&Hc2&_).
  congruence.
Qed.

(** The timer of the open batch of a chat is the only armed timer that
    names this chat or this batch. *)
Lemma coherent_timer_of st chat ref batch tid0 tid task :
  coherent st ->
  batchMap st !! chat = Some ref -> batches st !! ref = Some batch ->
  timer batch = Some tid0 ->
  timers st !! tid = Some task ->
  t_chat task = chat \/ t_batch task = ref -> tid = tid0.
Proof.
  intros C Hmap Hb Ht Htask Hor.
  destruct (coh_timer st C _ _ Htask) as (_&Hm&(b&Hb'&Ht')&_).
  assert (t_batch task = ref) as E.
  { destruct Hor as [E|E]; [|exact E]. rewrite E in Hm. congruence. }
  rewrite E in Hb'. congruence.
Qed.

Lemma coherent_only_promise p st st' :
  coherent st -> only_promise p st st' ->
  (forall tid task, timers st !! tid = Some task ->
                    h_promise (t_handler task) <> p) ->
  (forall cid call, calls st !! cid = Some call ->
                    h_promise (cont_handler (c_then call)) <> p) ->
  coherent st'.
Proof.
  intros C (Hbm&Hbs&Htm&Hnt&Hcl&Hnc&Hlen&Hps) HT HC.
  split; rewrite ?Hbm, ?Hbs, ?Htm, ?Hnt, ?Hcl, ?Hnc.
  - apply (coh_map st C).
  - intros tid task H. destruct (coh_timer st C _ _ H) as (?&?&?&?&?).
    repeat split; auto. rewrite Hps; eauto.
  - intros cid call H. destruct (coh_call st C _ _ H) as (?&?&?&?).
    repeat split; auto. rewrite Hps; eauto.
  - apply (coh_timer_owner st C).
  - apply (coh_call_owner st C).
  - apply (coh_timer_call st C).
Qed.

Lemma lookup_snoc_old {A} (l : list A) x i y :
  l !! i = Some y -> (l ++ [x]) !! i = Some y.
Proof. intros H. rewrite lookup_app_l; [exact H | eapply lookup_lt_Some; eauto]. Qed.

Lemma lookup_snoc_new {A} (l : list A) x : (l ++ [x]) !! length l = Some x.
Proof. rewrite lookup_app_r by lia. rewrite Nat.sub_diag. reflexivity. Qed.

Lemma submit_coherent cfg now request st :
  coherent st -> coherent (snd (queueMessageForModeration cfg now request st)).
Proof.
  intros C. set (chat := or_else (chatId request) 0).
  destruct (batchMap st !! chat) as [ref|] eqn:Hmap.
  - (* the batch of the chat is open *)
    destruct (coh_map st C _ _ Hmap) as (b0&tid0&task0&Hb0&Hne&Ht0&Hk0&Hc0&Hr0).
    rewrite (queue_join cfg now request st ref b0 tid0 Hmap Hb0 Hne Ht0).
    cbv zeta. simpl. fold chat. clearbody chat.
    set (msgs := messages b0 ++ [stamp request (length (messages b0))]).
    assert (Hother : forall tid task, timers st !! tid = Some task ->
              tid <> tid0 -> t_chat task <> chat /\ t_batch task <> ref).
    { intros tid task H Hd. split; intros E; apply Hd;
        eapply (coherent_timer_of st chat ref b0 tid0 tid task); eauto. }
    destruct (maxBatchSize cfg <=? Z.of_nat (length msgs))%Z.
    + (* flushed by size *)
      split; simpl.
      * intros c r H. apply lookup_delete_Some in H as [Hc H].
        destruct (coh_map st C _ _ H) as (b&tid&task&Hb&?&?&Hk&?&?).
        assert (r <> ref) by (intros ->; apply Hc; eapply coherent_map_inj; eauto).
        assert (tid <> tid0).
        { intros ->. assert (task = task0) by congruence. subst. congruence. }
        exists b, tid, task. rewrite list_lookup_insert_ne by congruence.
        rewrite lookup_delete_ne by congruence. repeat split; auto.
      * intros tid task H. apply lookup_delete_Some in H as [Hd H].
        destruct (Hother _ _ H (not_eq_sym Hd)) as [Hc Hr].
        destruct (coh_timer st C _ _ H) as (?&?&(b&?&?)&?&?).
        repeat split; auto.
        -- rewrite lookup_delete_ne by congruence. auto.
        -- exists b. rewrite list_lookup_insert_ne by congruence. split; auto.
        -- apply lookup_snoc_old; auto.
      * intros cid call H. destruct (decide (cid = nextCall st)) as [->|Hd].
        -- rewrite lookup_insert_eq in H. inversion H; subst; clear H. simpl.
           repeat split; auto.
           ++ unfold msgs. apply batch_call_of_many; auto.
           ++ apply lookup_snoc_new.
        -- rewrite lookup_insert_ne in H by congruence.
           destruct (coh_call st C _ _ H) as (?&?&?&?).
           repeat split; auto. apply lookup_snoc_old; auto.
      * intros t1 t2 k1 k2 H1 H2. apply lookup_delete_Some in H1 as [_ H1].
        apply lookup_delete_Some in H2 as [_ H2].
        eapply (coh_timer_owner st C); eauto.
      * intros c1 c2 k1 k2 H1 H2 E.
        destruct (decide (c1 = nextCall st)) as [->|D1];
          destruct (decide (c2 = nextCall st)) as [->|D2]; auto.
        -- rewrite lookup_insert_eq in H1. rewrite lookup_insert_ne in H2 by congruence.
           inversion H1; subst; clear H1. simpl in E.
           destruct (coh_call st C _ _ H2) as (_&_&Hp&_).
           apply lookup_lt_Some in Hp. lia.
        -- rewrite lookup_insert_eq in H2. rewrite lookup_insert_ne in H1 by congruence.
           inversion H2; subst; clear H2. simpl in E.
           destruct (coh_call st C _ _ H1) as (_&_&Hp&_).
           apply lookup_lt_Some in Hp. lia.
        -- rewrite lookup_insert_ne in H1 by congruence.
           rewrite lookup_insert_ne in H2 by congruence.
           eapply (coh_call_owner st C); eauto.
      * intros tid task cid call H1 H2. apply lookup_delete_Some in H1 as [_ H1].
        destruct (coh_timer st C _ _ H1) as (_&_&_&_&Hp).
        destruct (decide (cid = nextCall st)) as [->|D].
        -- rewrite lookup_insert_eq in H2. inversion H2; subst; clear H2. simpl.
           apply lookup_lt_Some in Hp. lia.
        -- rewrite lookup_insert_ne in H2 by congruence.
           eapply (coh_timer_call st C); eauto.
    + (* the request joins the batch *)
      split; simpl.
      * intros c r H. destruct (decide (r = ref)) as [->|Hr].
        -- assert (c = chat) by (eapply coherent_map_inj; eauto). subst c.
           exists (mkBatch msgs (Some tid0) now), tid0, task0.
           rewrite list_lookup_insert_eq by (eapply lookup_lt_Some; eauto).
           simpl. repeat split; auto. unfold msgs. destruct (messages b0); discriminate.
        -- destruct (coh_map st C _ _ H) as (b&tid&task&Hb&?&?&Hk&?&?).
           exists b, tid, task. rewrite list_lookup_insert_ne by congruence.
           repeat split; auto.
      * intros tid task H.
        destruct (coh_timer st C _ _ H) as (?&?&(b&Hb&Htb)&?&?).
        repeat split; auto.
        -- destruct (decide (t_batch task = ref)) as [E|E].
           ++ exists (mkBatch msgs (Some tid0) now). rewrite E.
              rewrite list_lookup_insert_eq by (eapply lookup_lt_Some; eauto).
              simpl. split; auto. rewrite E in Hb. congruence.
           ++ exists b. rewrite list_lookup_insert_ne by congruence. split; auto.
        -- apply lookup_snoc_old; auto.
      * intros cid call H. destruct (coh_call st C _ _ H) as (?&?&?&?).
        repeat split; auto. apply lookup_snoc_old; auto.
      * apply (coh_timer_owner st C).
      * apply (coh_call_owner st C).
      * apply (coh_timer_call st C).
  - (* no batch is open for the chat *)
    rewrite (queue_first cfg now request st Hmap). simpl. fold chat.
    clearbody chat.
    split; simpl.
    + intros c r H. destruct (decide (c = chat)) as [->|Hc].
      * rewrite lookup_insert_eq in H. inversion H; subst; clear H.
        eexists _, _, _. rewrite lookup_snoc_new, lookup_insert_eq. simpl.
        repeat split; auto; try discriminate.
      * rewrite lookup_insert_ne in H by congruence.
        destruct (coh_map st C _ _ H) as (b&tid&task&Hb&?&?&Hk&?&?).
        destruct (coh_timer st C _ _ Hk) as (?&_).
        exists b, tid, task. rewrite lookup_insert_ne by lia.
        repeat split; auto. apply lookup_snoc_old; auto.
    + intros tid task H. destruct (decide (tid = nextTimer st)) as [->|Hd].
      * rewrite lookup_insert_eq in H. inversion H; subst; clear H. simpl.
        rewrite lookup_insert_eq, !lookup_snoc_new. repeat split; eauto.
      * rewrite lookup_insert_ne in H by congruence.
        destruct (coh_timer st C _ _ H) as (?&Hm&(b&?&?)&?&?).
        assert (t_chat task <> chat) by congruence.
        rewrite lookup_insert_ne by congruence.
        repeat split; auto.
        -- exists b. split; auto. apply lookup_snoc_old; auto.
        -- apply lookup_snoc_old; auto.
    + intros cid call H. destruct (coh_call st C _ _ H) as (?&?&?&?).
      repeat split; auto. apply lookup_snoc_old; auto.
    + intros t1 t2 k1 k2 H1 H2 E.
      destruct (decide (t1 = nextTimer st)) as [->|D1];
        destruct (decide (t2 = nextTimer st)) as [->|D2]; auto.
      * rewrite lookup_insert_eq in H1. rewrite lookup_insert_ne in H2 by congruence.
        inversion H1; subst; clear H1. simpl in E.
        destruct (coh_timer st C _ _ H2) as (_&_&_&_&Hp).
        apply lookup_lt_Some in Hp. lia.
      * rewrite lookup_insert_eq in H2. rewrite lookup_insert_ne in H1 by congruence.
        inversion H2; subst; clear H2. simpl in E.
        destruct (coh_timer st C _ _ H1) as (_&_&_&_&Hp).
        apply lookup_lt_Some in Hp. lia.
      * rewrite lookup_insert_ne in H1 by congruence.
        rewrite lookup_insert_ne in H2 by congruence.
        eapply (coh_timer_owner st C); eauto.
    + apply (coh_call_owner st C).
    + intros tid task cid call H1 H2.
      destruct (decide (tid = nextTimer st)) as [->|D].
      * rewrite lookup_insert_eq in H1. inversion H1; subst; clear H1. simpl.
        destruct (coh_call st C _ _ H2) as (_&_&Hp&_).
        apply lookup_lt_Some in Hp. lia.
      * rewrite lookup_insert_ne in H1 by congruence.
        eapply (coh_timer_call st C); eauto.
Qed.

Lemma call_of_nonempty (msgs : list ModerateMessageRequest) :
  msgs <> [] -> exists api, moderateMessageBatch_call msgs = Some api.
Proof. destruct msgs as [|a [|b l]]; simpl; eauto. congruence. Qed.

(** What the firing of an armed timer does in a coherent state: its
    batch leaves the map and one HTTP call leaves with its messages. *)
Lemma timerFires_spec st tid task :
  coherent st -> timers st !! tid = Some task ->
  exists batch api,
    batchMap st !! t_chat task = Some (t_batch task) /\
    batches st !! t_batch task = Some batch /\
    messages batch <> [] /\
    moderateMessageBatch_call (messages batch) = Some api /\
    timerFires tid st =
    Some (mkState (delete (t_chat task) (batchMap st)) (batches st)
                  (delete tid (timers st)) (nextTimer st)
                  (<[nextCall st :=
                       mkCall api (messages batch) (AfterTimer (t_handler task))]>
                     (calls st))
                  (S (nextCall st)) (promises st)).
Proof.
  intros C H. destruct (coh_timer st C _ _ H) as (_&Hm&(b&Hb&Htb)&_).
  destruct (coh_map st C _ _ Hm) as (b'&?&?&Hb'&Hne&_).
  assert (b' = b) by congruence. subst b'.
  destruct (call_of_nonempty _ Hne) as [api Hapi].
  exists b, api. repeat split; auto.
  unfold timerFires. rewrite H. simpl. unfold timer_callback. simpl.
  rewrite Hb. simpl. unfold start_call. rewrite Hapi. reflexivity.
Qed.

Lemma timerFires_coherent st tid st' :
  coherent st -> timerFires tid st = Some st' -> coherent st'.
Proof.
  intros C H. destruct (timers st !! tid) as [task|] eqn:Htask;
    [|unfold timerFires in H; rewrite Htask in H; discriminate].
  destruct (timerFires_spec st tid task C Htask) as (b&api&Hm&Hb&Hne&Hapi&E).
  rewrite E in H. inversion H; subst st'; clear H E.
  destruct (coh_timer st C _ _ Htask) as (_&_&(b1&Hb1&Htb)&Hidx&Hp).
  assert (b1 = b) by congruence. subst b1.
  assert (Hother : forall t k, timers st !! t = Some k -> t <> tid ->
                               t_chat k <> t_chat task /\ t_batch k <> t_batch task).
  { intros t k Hk Hd. split; intros Eq; apply Hd;
      eapply (coherent_timer_of st (t_chat task) (t_batch task) b tid t k); eauto. }
  split; simpl.
  - intros c r H. apply lookup_delete_Some in H as [Hc H].
    destruct (coh_map st C _ _ H) as (b2&t2&k2&?&?&?&Hk2&?&?).
    assert (t2 <> tid) by (intros ->; congruence).
    exists b2, t2, k2. rewrite lookup_delete_ne by congruence. repeat split; auto.
  - intros t k H. apply lookup_delete_Some in H as [Hd H].
    destruct (Hother _ _ H (not_eq_sym Hd)) as [Hc Hr].
    destruct (coh_timer st C _ _ H) as (?&?&?&?&?).
    repeat split; auto. rewrite lookup_delete_ne by congruence. auto.
  - intros cid call H. destruct (decide (cid = nextCall st)) as [->|D].
    + rewrite lookup_insert_eq in H. inversion H; subst; clear H. simpl.
      repeat split; auto.
    + rewrite lookup_insert_ne in H by congruence.
      destruct (coh_call st C _ _ H) as (?&?&?&?). repeat split; auto.
  - intros t1 t2 k1 k2 H1 H2. apply lookup_delete_Some in H1 as [_ H1].
    apply lookup_delete_Some in H2 as [_ H2]. eapply (coh_timer_owner st C); eauto.
  - intros c1 c2 k1 k2 H1 H2 E.
    destruct (decide (c1 = nextCall st)) as [->|D1];
      destruct (decide (c2 = nextCall st)) as [->|D2]; auto.
    + rewrite lookup_insert_eq in H1. rewrite lookup_insert_ne in H2 by congruence.
      inversion H1; subst; clear H1. simpl in E.
      exfalso. eapply (coh_timer_call st C); eauto.
    + rewrite lookup_insert_eq in H2. rewrite lookup_insert_ne in H1 by congruence.
      inversion H2; subst; clear H2. simpl in E.
      exfalso. eapply (coh_timer_call st C); eauto.
    + rewrite lookup_insert_ne in H1 by congruence.
      rewrite lookup_insert_ne in H2 by congruence.
      eapply (coh_call_owner st C); eauto.
  - intros t k cid call H1 H2. apply lookup_delete_Some in H1 as [Hd H1].
    destruct (decide (cid = nextCall st)) as [->|D].
    + rewrite lookup_insert_eq in H2. inversion H2; subst; clear H2. simpl.
      intros E. apply Hd. eapply (coh_timer_owner st C); eauto.
    + rewrite lookup_insert_ne in H2 by congruence.
      eapply (coh_timer_call st C); eauto.
Qed.

Lemma httpReturns_coherent st cid http st' :
  coherent st -> httpReturns cid http st = Some st' -> coherent st'.
Proof.
  intros C H. unfold httpReturns in H.
  destruct (calls st !! cid) as [call|] eqn:Hcall; [|discriminate].
  simpl in H. inversion H; subst st'; clear H.
  eapply coherent_only_promise; [ | apply run_continuation_only | | ]; simpl.
  - split; simpl.
    + apply (coh_map st C).
    + apply (coh_timer st C).
    + intros c k H. apply lookup_delete_Some in H as [_ H]. apply (coh_call st C _ _ H).
    + apply (coh_timer_owner st C).
    + intros c1 c2 k1 k2 H1 H2. apply lookup_delete_Some in H1 as [_ H1].
      apply lookup_delete_Some in H2 as [_ H2]. eapply (coh_call_owner st C); eauto.
    + intros t k c k' H1 H2. apply lookup_delete_Some in H2 as [_ H2].
      eapply (coh_timer_call st C); eauto.
  - intros t k H. eapply (coh_timer_call st C); eauto.
  - intros c k H. apply lookup_delete_Some in H as [Hd H].
    intros E. apply Hd. eapply (coh_call_owner st C); eauto.
Qed.

Lemma step_coherent cfg ev st st' :
  coherent st -> step cfg ev st = Some st' -> coherent st'.
Proof.
  intros C H. destruct ev; simpl in H.
  - inversion H. apply submit_coherent; assumption.
  - eapply timerFires_coherent; eauto.
  - eapply httpReturns_coherent; eauto.
Qed.

Lemma reachable_coherent cfg st : reachable cfg st -> coherent st.
Proof.
  induction 1.
  - apply coherent_initial.
  - eapply step_coherent; eauto.
Qed.

Lemma run_reachable cfg evs st st' :
  reachable cfg st -> run cfg evs st = Some st' -> reachable cfg st'.
Proof.
  revert st. induction evs as [|ev evs IH]; simpl; intros st R H.
  - inversion H; subst; assumption.
  - destruct (step cfg ev st) as [st1|] eqn:E; [|discriminate].
    eapply IH; [|exact H]. eapply reachable_step; eauto.
Qed.

(** ** The correlation identity at submission *)

(** C10.  What the submit operation stores.  The request goes to the
    end of the batch of its conversation (a fresh batch when none is
    open), stamped with an identity: its own [messageId], or its position
    in the batch when that is absent or 0.  So a [messageId] of 0 is
    treated exactly as an absent one: the stored identity is the
    position, the whole operation behaves as on the request without
    identity, and only a non-zero identity of the caller is kept. *)
Theorem zero_messageId_is_absent cfg now request given st :
  reachable cfg st ->
  let submitted := set_messageId given request in
  let chat := or_else (chatId request) 0 in
  let st' := snd (queueMessageForModeration cfg now submitted st) in
  exists ref before batch' item,
    match batchMap st !! chat with
    | Some open =>
      open = ref /\
      exists batch, batches st !! ref = Some batch /\ messages batch = before
    | None => ref = length (batches st) /\ before = []
    end
    /\ batches st' !! ref = Some batch'
    /\ messages batch' = before ++ [item]
    /\ item = set_messageId (messageId item) request
    /\ messageId item = Some (or_else given (Z.of_nat (length before)))
    /\ (given = Some 0%Z \/ given = None ->
        messageId item = Some (Z.of_nat (length before))
        /\ queueMessageForModeration cfg now submitted st
           = queueMessageForModeration cfg now (set_messageId None request) st)
    /\ (forall v, given = Some v -> v <> 0%Z -> messageId item = Some v).
Proof.
  intros R submitted chat st'. assert (C := reachable_coherent cfg st R).
  assert (Hzero : given = Some 0%Z \/ given = None ->
                  queueMessageForModeration cfg now submitted st
                  = queueMessageForModeration cfg now
                      (set_messageId None request) st).
  { intros [->| ->]; reflexivity. }
  assert (Hid : forall k,
    messageId (stamp submitted k) = Some (or_else given (Z.of_nat k))
    /\ (given = Some 0%Z \/ given = None ->
        messageId (stamp submitted k) = Some (Z.of_nat k))
    /\ (forall v, given = Some v -> v <> 0%Z ->
                  messageId (stamp submitted k) = Some v)).
  { intros k. split; [reflexivity|]. split.
    - intros [->| ->]; reflexivity.
    - intros v -> Hv. simpl. unfold or_else.
      destruct (Z.eqb_spec v 0); congruence. }
  destruct (batchMap st !! chat) as [ref|] eqn:Hmap.
  - destruct (coh_map st C _ _ Hmap) as (batch & tid & task & Hb & Hne & Ht & _).
    assert (E := queue_join cfg now submitted st ref batch tid Hmap Hb Hne Ht).
    cbv zeta in E.
    exists ref, (messages batch).
    assert (Hlt : ref < length (batches st)) by (eapply lookup_lt_Some; eauto).
    destruct (Hid (length (messages batch))) as (H1 & H2 & H3).
    destruct (maxBatchSize cfg
              <=? Z.of_nat (length (messages batch
                                    ++ [stamp submitted (length (messages batch))])))%Z;
      eexists; exists (stamp submitted (length (messages batch)));
      (split; [split; [reflexivity | exists batch; split; [exact Hb | reflexivity]]|]);
      (split; [unfold st'; rewrite E; cbn [snd batches];
               apply list_lookup_insert_eq; exact Hlt|]);
      (split; [reflexivity|]); (split; [reflexivity|]);
      (split; [exact H1|]); (split; [|exact H3]);
      intros Hz; (split; [apply H2, Hz | apply Hzero, Hz]).
  - assert (E := queue_first cfg now submitted st Hmap).
    exists (length (batches st)), [].
    destruct (Hid 0) as (H1 & H2 & H3).
    eexists. exists (stamp submitted 0).
    split; [split; reflexivity|].
    split; [unfold st'; rewrite E; cbn [snd batches]; apply lookup_snoc_new|].
    split; [reflexivity|]. split; [reflexivity|].
    split; [exact H1|]. split; [|exact H3].
    intros Hz. split; [apply H2, Hz | apply Hzero, Hz].
Qed.

Lemma zero_messageId_is_absent_witness :
  let st1 := snd (queueMessageForModeration service5 0
                    (plain_request "buy followers now" 9) initial) in
  let st2 := snd (queueMessageForModeration service5 10
                    (set_messageId (Some 0%Z) (plain_request "hello" 9)) st1) in
  exists batch' first second,
    batches st2 !! 0 = Some batch'
    /\ messages batch' = [first; second]
    /\ messageId second = Some 1%Z.
Proof.
  intros st1 st2.
  assert (R : reachable service5 st1).
  { apply (run_reachable _ [Submit 0 (plain_request "buy followers now" 9)]
                         initial); [apply reachable_initial | reflexivity]. }
  destruct (zero_messageId_is_absent service5 10 (plain_request "hello" 9)
              (Some 0%Z) st1 R)
    as (ref & before & batch' & item & Hopen & Hb & Hm & _ & _ & Hz & _).
  vm_compute in Hopen. destruct Hopen as (<- & batch & Hbatch & <-).
  injection Hbatch as <-.
  destruct (Hz (or_introl eq_refl)) as [Hid _].
  exists batch'. eexists. exists item.
  split; [exact Hb|]. split; [exact Hm | exact Hid].
Defined.

(** ** The text-heuristic extractor *)

Lemma embedded_json_verdict text :
  embedded_json text
  = match json_verdict text with
    | Some jsonData =>
      Some {| isSpam := JBool (truthy (prop_opt jsonData "isSpam"));
              confidence := JNum (toNumber (prop_opt jsonData "confidence"));
              reason := if truthy (prop_opt jsonData "reason")
                        then prop_opt jsonData "reason"
                        else JStr "Извлечено из JSON в тексте";
              matchesKnownPattern :=
                JBool (truthy (prop_opt jsonData "matchesKnownPattern"));
              shouldBan := JBool (truthy (prop_opt jsonData "shouldBan"));
              resp_messageId := None |}
    | None => None
    end.
Proof.
  unfold embedded_json, json_verdict.
  destruct (search re_json text) as [m|]; [|reflexivity].
  destruct (JSON_parse (m_text m)) as [jsonData|]; [|reflexivity].
  destruct (defined _ && defined _); reflexivity.
Qed.

(** C9, counterexample.  On a text that carries the verdict as JSON
    the extractor answers flagged without "matches known pattern". *)
Lemma json_verdict_flagged_without_pattern :
  isSpam (extractModerationFromText (JStr json_verdict_text)) = JBool true
  /\ matchesKnownPattern (extractModerationFromText (JStr json_verdict_text))
     = JBool false.
Proof. vm_compute. split; reflexivity. Qed.

(** C9, amended.  When the keyword rules decide (the text holds no
    JSON verdict), a flagged outcome always has "matches known pattern"
    set, even when no pattern keyword matched; when the text holds a JSON
    verdict, "matches known pattern" is that object's own
    [matchesKnownPattern] coerced to a boolean, and the flag is its own
    [isSpam] coerced likewise, whatever the one says of the other. *)
Theorem keyword_flag_implies_pattern (s : string) :
  let outcome := extractModerationFromText (JStr s) in
  (json_verdict (u s) = None ->
   (isSpam outcome = JBool true -> matchesKnownPattern outcome = JBool true)
   /\ isSpam outcome = JBool (keyword_isSpam (u s))
   /\ matchesKnownPattern outcome
      = JBool (keyword_pattern (u s) || keyword_isSpam (u s)))
  /\ (forall jsonData,
        json_verdict (u s) = Some jsonData ->
        matchesKnownPattern outcome
        = JBool (truthy (prop_opt jsonData "matchesKnownPattern"))
        /\ isSpam outcome = JBool (truthy (prop_opt jsonData "isSpam"))).
Proof.
  cbn zeta. cbn [extractModerationFromText]. unfold extract_text.
  rewrite embedded_json_verdict. split.
  - intros ->. unfold keyword_path. cbn [isSpam matchesKnownPattern].
    split; [|split; reflexivity].
    intros H. injection H as ->. rewrite orb_true_r. reflexivity.
  - intros jsonData ->. split; reflexivity.
Qed.

Lemma keyword_flag_implies_pattern_witness :
  matchesKnownPattern (extractModerationFromText (JStr "Это спам")) = JBool true.
Proof.
  apply (proj1 (keyword_flag_implies_pattern "Это спам"));
    vm_compute; reflexivity.
Defined.

(** ** The gateway: how many outcomes, and whose *)







Lemma safe_batch_length why messages :
  length (safe_batch why messages) = length messages.
Proof. apply length_imap. Qed.




























(** ** The gateway: confidence *)


Lemma single_structured request data args :
  single_args data = Some args ->
  moderateMessage request (HttpOk data)
  = response_of_args args (messageId request).
Proof.
  unfold single_args, moderateMessage, moderateMessage_try.
  destruct (candidate_part data "functionCall") as [fc|]; [|discriminate].
  simpl.
  destruct (truthy fc && str_eq (prop_opt fc "name") "moderate_message"
            && truthy (prop_opt fc "args")); [|discriminate].
  intros H. injection H as <-. reflexivity.
Qed.




(** ** How the state evolves *)

Ltac evolves_split :=
  unfold evolves;
  refine (conj _ (conj _ (conj _ (conj _ (conj _ (conj _ _))))));
  simpl; rewrite ?length_insert, ?length_app; simpl; try lia.

Lemma evolves_refl st : evolves st st.
Proof.
  unfold evolves. repeat split; auto.
  intros ref b H. exists b. repeat split; auto.
Qed.

Lemma evolves_trans st1 st2 st3 :
  evolves st1 st2 -> evolves st2 st3 -> evolves st1 st3.
Proof.
  intros (T1&C1&B1&HT1&HC1&HB1&HM1) (T2&C2&B2&HT2&HC2&HB2&HM2).
  unfold evolves. repeat split; try lia.
  - intros tid task H Hlt. apply HT1; [apply HT2; [exact H | lia] | exact Hlt].
  - intros cid call H Hlt. apply HC1; [apply HC2; [exact H | lia] | exact Hlt].
  - intros ref b H. destruct (HB1 _ _ H) as (b'&H'&P1&Tm1).
    destruct (HB2 _ _ H') as (b''&H''&P2&Tm2).
    exists b''. repeat split; auto.
    + etrans; eauto.
    + destruct Tm2 as [E|E]; [rewrite E; exact Tm1 | right; exact E].
  - intros chat ref H Hlt. apply HM1; [apply HM2; [exact H | lia] | exact Hlt].
Qed.

Lemma submit_evolves cfg now request st :
  coherent st -> evolves st (snd (queueMessageForModeration cfg now request st)).
Proof.
  intros C. set (chat := or_else (chatId request) 0).
  destruct (batchMap st !! chat) as [ref|] eqn:Hmap.
  - destruct (coh_map st C _ _ Hmap) as (b0&tid0&task0&Hb0&Hne&Ht0&Hk0&Hc0&Hr0).
    rewrite (queue_join cfg now request st ref b0 tid0 Hmap Hb0 Hne Ht0).
    cbv zeta. simpl. fold chat. clearbody chat.
    set (msgs := messages b0 ++ [stamp request (length (messages b0))]).
    assert (Hbatches : forall t r b, batches st !! r = Some b ->
      exists b', <[ref := mkBatch msgs t now]> (batches st) !! r = Some b' /\
                 messages b `prefix_of` messages b' /\
                 (t = Some tid0 \/ t = None -> timer b' = timer b \/ timer b' = None)).
    { intros t r b H. destruct (decide (r = ref)) as [->|D].
      - exists (mkBatch msgs t now).
        rewrite list_lookup_insert_eq by (eapply lookup_lt_Some; eauto).
        assert (b = b0) by congruence. subst b. simpl. repeat split; auto.
        + unfold msgs. apply prefix_app_r. reflexivity.
        + rewrite Ht0. intros [->| ->]; auto.
      - exists b. rewrite list_lookup_insert_ne by congruence. repeat split; auto. }
    destruct (maxBatchSize cfg <=? Z.of_nat (length msgs))%Z; evolves_split.
    + intros tid task H _. apply lookup_delete_Some in H as [_ H]. exact H.
    + intros cid call H Hlt. rewrite lookup_insert_ne in H by lia. exact H.
    + intros r b H. destruct (Hbatches None r b H) as (b'&?&?&Ht).
      exists b'. repeat split; auto.
    + intros c r H _. apply lookup_delete_Some in H as [_ H]. exact H.
    + auto.
    + auto.
    + intros r b H. destruct (Hbatches (Some tid0) r b H) as (b'&?&?&Ht).
      exists b'. repeat split; auto.
    + auto.
  - rewrite (queue_first cfg now request st Hmap). simpl. fold chat.
    clearbody chat. evolves_split.
    + intros tid task H Hlt. rewrite lookup_insert_ne in H by lia. exact H.
    + auto.
    + intros r b H. exists b. repeat split; auto. apply lookup_snoc_old; auto.
    + intros c r H Hlt. destruct (decide (c = chat)) as [->|D].
      * rewrite lookup_insert_eq in H. injection H as <-. lia.
      * rewrite lookup_insert_ne in H by congruence. exact H.
Qed.

Lemma timerFires_evolves st tid st' :
  coherent st -> timerFires tid st = Some st' -> evolves st st'.
Proof.
  intros C H. destruct (timers st !! tid) as [task|] eqn:Htask;
    [|unfold timerFires in H; rewrite Htask in H; discriminate].
  destruct (timerFires_spec st tid task C Htask) as (b&api&Hm&Hb&Hne&Hapi&E).
  rewrite E in H. injection H as <-. evolves_split.
  - intros t k H _. apply lookup_delete_Some in H as [_ H]. exact H.
  - intros c k H Hlt. rewrite lookup_insert_ne in H by lia. exact H.
  - intros r b' H. exists b'. repeat split; auto.
  - intros c r H _. apply lookup_delete_Some in H as [_ H]. exact H.
Qed.

Lemma httpReturns_evolves st cid http st' :
  httpReturns cid http st = Some st' -> evolves st st'.
Proof.
  unfold httpReturns. destruct (calls st !! cid) as [call|] eqn:Hc; [|discriminate].
  simpl. intros H. injection H as <-.
  match goal with |- evolves _ (run_continuation ?k ?n ?rs ?s) =>
    destruct (run_continuation_only k n rs s) as (Hbm&Hbs&Htm&Hnt&Hcl&Hnc&_) end.
  simpl in *. unfold evolves. rewrite Hbm, Hbs, Htm, Hnt, Hcl, Hnc.
  refine (conj _ (conj _ (conj _ (conj _ (conj _ (conj _ _)))))); auto.
  - intros c k H _. apply lookup_delete_Some in H as [_ H]. exact H.
  - intros r b H. exists b. repeat split; auto.
Qed.

Lemma step_evolves cfg ev st st' :
  coherent st -> step cfg ev st = Some st' -> evolves st st'.
Proof.
  intros C H. destruct ev; simpl in H.
  - injection H as <-. apply submit_evolves; assumption.
  - eapply timerFires_evolves; eauto.
  - eapply httpReturns_evolves; eauto.
Qed.

Lemma run_evolves cfg evs st st' :
  coherent st -> run cfg evs st = Some st' -> evolves st st' /\ coherent st'.
Proof.
  revert st. induction evs as [|ev evs IH]; simpl; intros st C H.
  - injection H as <-. split; [apply evolves_refl | exact C].
  - destruct (step cfg ev st) as [st1|] eqn:E; [|discriminate].
    assert (C1 := step_coherent _ _ _ _ C E).
    destruct (IH st1 C1 H) as [Ev C'].
    split; [|exact C']. eapply evolves_trans; [|exact Ev].
    eapply step_evolves; eauto.
Qed.

(** ** The open-batch map *)

(** C4.  In every state the service can reach, no batch object is open
    under two conversations (and the map gives a conversation at most
    one batch), and a batch that waits for its timer is the open batch
    of its conversation; a flush, by timer or by size, issues its
    classifier call from a state whose map no longer has the
    conversation's entry; and a request that arrives for a conversation
    without an entry (so also during the call in flight) starts a fresh
    batch object holding that request alone, leaving the calls in flight
    untouched. *)
Theorem flushed_batch_leaves_map_first cfg st :
  reachable cfg st ->
  (forall c1 c2 ref,
      batchMap st !! c1 = Some ref -> batchMap st !! c2 = Some ref -> c1 = c2)
  /\ (forall tid task,
        timers st !! tid = Some task ->
        batchMap st !! t_chat task = Some (t_batch task))
  /\ (forall tid st',
        timerFires tid st = Some st' ->
        exists task batch before,
          timers st !! tid = Some task /\
          batchMap st !! t_chat task = Some (t_batch task) /\
          batches st !! t_batch task = Some batch /\
          batchMap before !! t_chat task = None /\
          st' = start_call (messages batch) (AfterTimer (t_handler task)) before /\
          (exists call, calls st' !! nextCall st = Some call /\
                        c_messages call = messages batch) /\
          batchMap st' !! t_chat task = None)
  /\ (forall now request ref batch,
        batchMap st !! or_else (chatId request) 0 = Some ref ->
        batches st !! ref = Some batch ->
        (maxBatchSize cfg <= Z.of_nat (length (messages batch) + 1))%Z ->
        let st' := snd (queueMessageForModeration cfg now request st) in
        let msgs := messages batch ++ [stamp request (length (messages batch))] in
        exists before handler,
          batchMap before !! or_else (chatId request) 0 = None /\
          st' = start_call msgs (AfterSize handler) before /\
          (exists call, calls st' !! nextCall st = Some call /\
                        c_messages call = msgs) /\
          batchMap st' !! or_else (chatId request) 0 = None)
  /\ (forall now request,
        batchMap st !! or_else (chatId request) 0 = None ->
        let st' := snd (queueMessageForModeration cfg now request st) in
        batchMap st' !! or_else (chatId request) 0 = Some (length (batches st)) /\
        batches st !! length (batches st) = None /\
        batches st' !! length (batches st)
        = Some (mkBatch [stamp request 0] (Some (nextTimer st)) now) /\
        calls st' = calls st).
Proof.
  intros R. assert (C := reachable_coherent cfg st R).
  split; [|split; [|split; [|split]]].
  - intros c1 c2 ref. apply coherent_map_inj; assumption.
  - intros tid task H. apply (coh_timer st C _ _ H).
  - intros tid st' H.
    destruct (timers st !! tid) as [task|] eqn:Htask;
      [|unfold timerFires in H; rewrite Htask in H; discriminate].
    destruct (timerFires_spec st tid task C Htask) as (b&api&Hm&Hb&Hne&Hapi&E).
    exists task, b, (map_delete (t_chat task) (clearTimeout tid st)).
    assert (st' = start_call (messages b) (AfterTimer (t_handler task))
                    (map_delete (t_chat task) (clearTimeout tid st))) as Hst.
    { unfold timerFires, timer_callback in H. rewrite Htask in H. simpl in H.
      rewrite Hb in H. simpl in H. congruence. }
    repeat split; auto.
    + simpl. apply lookup_delete_eq.
    + rewrite E in H. injection H as <-. simpl. rewrite lookup_insert_eq. eauto.
    + rewrite E in H. injection H as <-. simpl. apply lookup_delete_eq.
  - intros now request ref batch Hmap Hb Hmax st' msgs.
    destruct (coh_map st C _ _ Hmap) as (b0&tid0&task0&Hb0&Hne&Ht0&_).
    assert (b0 = batch) by congruence. subst b0.
    assert (E := queue_join cfg now request st ref batch tid0 Hmap Hb Hne Ht0).
    cbv zeta in E. fold msgs in E.
    assert ((maxBatchSize cfg <=? Z.of_nat (length msgs))%Z = true) as Hle.
    { apply Z.leb_le. unfold msgs. rewrite length_app. simpl. exact Hmax. }
    rewrite Hle in E. unfold st'. rewrite E. simpl.
    exists (map_delete (or_else (chatId request) 0)
              (set_batch ref (mkBatch msgs None now)
                 (clearTimeout tid0
                    (set_batch ref (mkBatch msgs (Some tid0) now)
                       (snd (new_promise st)))))),
           (mkHandler (length (promises st)) (length msgs - 1)).
    repeat split.
    + simpl. apply lookup_delete_eq.
    + assert (moderateMessageBatch_call msgs = Some (batch_call msgs)) as Hcall
        by (apply batch_call_of_many; assumption).
      unfold start_call. rewrite Hcall. simpl.
      rewrite list_insert_insert_eq. reflexivity.
    + rewrite lookup_insert_eq. eauto.
    + apply lookup_delete_eq.
  - intros now request Hmap st'. unfold st'.
    rewrite (queue_first cfg now request st Hmap). simpl.
    repeat split.
    + apply lookup_insert_eq.
    + apply lookup_ge_None. lia.
    + apply lookup_snoc_new.
Qed.

Lemma busy_state_reachable : reachable (mkConfig 3000 2) busy_state.
Proof.
  apply (run_reachable _ [Submit 0 (plain_request "buy followers now" 9);
                          Submit 10 (plain_request "hello" 9)] initial).
  - apply reachable_initial.
  - reflexivity.
Qed.

Lemma flushed_batch_leaves_map_first_witness :
  let st' := snd (queueMessageForModeration (mkConfig 3000 2) 20
                    (plain_request "again" 9) busy_state) in
  batchMap st' !! 9%Z = Some 1 /\
  batches busy_state !! 1 = None /\
  batches st' !! 1
  = Some (mkBatch [stamp (plain_request "again" 9) 0] (Some 1) 20) /\
  calls st' = calls busy_state.
Proof.
  refine (proj2 (proj2 (proj2 (proj2
    (flushed_batch_leaves_map_first (mkConfig 3000 2) busy_state
       busy_state_reachable)))) 20%Z (plain_request "again" 9) _).
  vm_compute. reflexivity.
Defined.

(** ** The flush timer *)

(** The first request of a conversation, followed by any events: as
    long as its batch object is still the open one, the timer armed at
    the first request is armed, unchanged, and is the timer the batch
    holds. *)
Lemma first_timer_stays cfg st now request evs st2 :
  coherent st ->
  batchMap st !! or_else (chatId request) 0 = None ->
  run cfg evs (snd (queueMessageForModeration cfg now request st)) = Some st2 ->
  let task := mkTimer (or_else (chatId request) 0) (length (batches st))
                      (mkHandler (length (promises st)) 0) now
                      (batchTimeout cfg) in
  coherent st2 /\
  (forall tid' task', timers st2 !! tid' = Some task' ->
     tid' = nextTimer st \/ t_batch task' = length (batches st) ->
     tid' = nextTimer st /\ task' = task /\
     batchMap st2 !! or_else (chatId request) 0 = Some (length (batches st))) /\
  (forall b, batches st2 !! length (batches st) = Some b ->
             [stamp request 0] `prefix_of` messages b) /\
  (batchMap st2 !! or_else (chatId request) 0 = Some (length (batches st)) ->
   timers st2 !! nextTimer st = Some task /\
   exists b, batches st2 !! length (batches st) = Some b /\
             timer b = Some (nextTimer st)).
Proof.
  intros C Hmap Hrun task.
  assert (C1 := submit_coherent cfg now request st C).
  destruct (run_evolves _ _ _ _ C1 Hrun) as [(_&_&_&HT&_&HB&HM) C2].
  rewrite (queue_first cfg now request st Hmap) in HT, HB, HM. simpl in HT, HB, HM.
  set (chat := or_else (chatId request) 0) in *.
  set (ref := length (batches st)) in *.
  set (tid := nextTimer st) in *.
  destruct (HB ref _ (lookup_snoc_new _ _)) as (b2&Hb2&Hpre&Htm). simpl in Hpre, Htm.
  assert (Hopen : batchMap st2 !! chat = Some ref ->
                  timers st2 !! tid = Some task /\ timer b2 = Some tid).
  { intros H2. destruct (coh_map st2 C2 _ _ H2) as (b&t&k&Hb&_&Ht&Hk&_).
    assert (b = b2) by congruence. subst b.
    assert (t = tid) as -> by (destruct Htm; congruence).
    split; [|exact Ht].
    assert (Hk' := HT _ _ Hk (Nat.lt_succ_diag_r _)).
    rewrite lookup_insert_eq in Hk'. unfold task. congruence. }
  split; [exact C2|]. split; [|split].
  - intros tid' task' Hk Hor.
    destruct (coh_timer st2 C2 _ _ Hk) as (_&Hm'&(b&Hb&Htb)&_).
    assert (t_batch task' = ref) as Href.
    { destruct Hor as [->|E]; [|exact E].
      assert (Hk' := HT _ _ Hk (Nat.lt_succ_diag_r _)).
      rewrite lookup_insert_eq in Hk'. injection Hk' as <-. reflexivity. }
    rewrite Href in Hb, Hm'. assert (b = b2) by congruence. subst b.
    assert (tid' = tid) as -> by (destruct Htm; congruence).
    assert (Hk' := HT _ _ Hk (Nat.lt_succ_diag_r _)).
    rewrite lookup_insert_eq in Hk'. injection Hk' as <-.
    repeat split; auto.
  - intros b Hb. assert (b = b2) by congruence. subst b. exact Hpre.
  - intros H2. destruct (Hopen H2) as [Hk Ht]. split; [exact Hk|]. eauto.
Qed.

(** ** The single-item batch *)

(** C7.  A request opens a batch; events follow; the timer of the batch
    fires while the batch holds that one item: the call that leaves is
    the single-message call of [moderateMessage] for this item (function
    [moderate_message], the item as only subject), not the batch call;
    whatever happens until the call returns, the caller's promise is then
    resolved with what [moderateMessage] makes of the reply, and on a
    structured reply that is the verdict the classifier sent,
    unmodified. *)
Theorem single_item_batch_uses_moderateMessage
    cfg st now request evs1 st2 st3 evs2 st4 http st5 :
  reachable cfg st ->
  batchMap st !! or_else (chatId request) 0 = None ->
  let p := fst (queueMessageForModeration cfg now request st) in
  let st1 := snd (queueMessageForModeration cfg now request st) in
  let item := stamp request 0 in
  run cfg evs1 st1 = Some st2 ->
  (forall b, batches st2 !! length (batches st) = Some b ->
             length (messages b) = 1) ->
  timerFires (nextTimer st) st2 = Some st3 ->
  run cfg evs2 st3 = Some st4 ->
  httpReturns (nextCall st2) http st4 = Some st5 ->
  calls st3 !! nextCall st2
  = Some (mkCall (moderateMessage_call item) [item]
                 (AfterTimer (mkHandler p 0)))
  /\ tool (moderateMessage_call item) = "moderate_message"
  /\ subjects (moderateMessage_call item) = [item]
  /\ promises st1 !! p = Some Pending
  /\ promises st5 !! p = Some (Resolved (moderateMessage item http))
  /\ (forall data args,
        http = HttpOk data -> single_args data = Some args ->
        exists r, promises st5 !! p = Some (Resolved r) /\
                  response_verdict r = entry_verdict args).
Proof.
  intros R Hmap p st1 item Hrun1 Hone Hfire Hrun2 Hret.
  assert (C := reachable_coherent cfg st R).
  assert (Hp : p = length (promises st)).
  { unfold p. rewrite (queue_first cfg now request st Hmap). reflexivity. }
  unfold st1 in Hrun1.
  destruct (first_timer_stays cfg st now request evs1 st2 C Hmap Hrun1)
    as (C2&Huniq&Hpre&_).
  destruct (timers st2 !! nextTimer st) as [task|] eqn:Hk;
    [|unfold timerFires in Hfire; rewrite Hk in Hfire; discriminate].
  destruct (Huniq _ _ Hk (or_introl eq_refl)) as (_&->&_).
  destruct (timerFires_spec st2 _ _ C2 Hk) as (b&api&Hm&Hb&Hne&Hapi&E).
  simpl in Hb, Hm.
  assert (Hmsgs : messages b = [item]).
  { specialize (Hone _ Hb). destruct (Hpre _ Hb) as [rest Hrest].
    rewrite Hrest in Hone |- *. simpl in Hone.
    destruct rest; [reflexivity | simpl in Hone; lia]. }
  rewrite Hmsgs in Hapi, E. simpl in Hapi. injection Hapi as <-.
  assert (C3 := timerFires_coherent _ _ _ C2 Hfire).
  rewrite E in Hfire. injection Hfire as Est3.
  assert (Hcall3 : calls st3 !! nextCall st2
                   = Some (mkCall (moderateMessage_call item) [item]
                                  (AfterTimer (mkHandler p 0)))).
  { rewrite <- Est3. simpl. rewrite lookup_insert_eq, Hp. reflexivity. }
  destruct (run_evolves _ _ _ _ C3 Hrun2) as [(_&_&_&_&HC&_) C4].
  unfold httpReturns in Hret.
  destruct (calls st4 !! nextCall st2) as [call|] eqn:Hcall4; [|discriminate].
  assert (Hlt : nextCall st2 < nextCall st3) by (rewrite <- Est3; simpl; lia).
  assert (Hsame := HC _ _ Hcall4 Hlt). rewrite Hcall3 in Hsame.
  injection Hsame as <-. simpl in Hret. injection Hret as Est5.
  destruct (coh_call st4 C4 _ _ Hcall4) as (_&_&Hpend&_). simpl in Hpend.
  assert (Hres : promises st5 !! p = Some (Resolved (moderateMessage item http))).
  { rewrite <- Est5.
    apply (run_continuation_pending (AfterTimer (mkHandler p 0)) 1
             [moderateMessage item http]); [lia | exact Hpend]. }
  split; [exact Hcall3|]. split; [reflexivity|]. split; [reflexivity|].
  split.
  { unfold st1. rewrite (queue_first cfg now request st Hmap), Hp. simpl.
    apply lookup_snoc_new. }
  split; [exact Hres|].
  intros data args -> Hargs. eexists. split; [exact Hres|].
  rewrite (single_structured _ _ _ Hargs). reflexivity.
Qed.

Lemma single_item_batch_uses_moderateMessage_witness :
  promises
    (snd (queueMessageForModeration service5 0
            (plain_request "buy followers now" 7) initial)) !! 0
  = Some Pending
  /\ exists st5,
       run service5
           [Submit 0 (plain_request "buy followers now" 7);
            TimerFires 0;
            HttpReturns 0 (HttpOk (function_reply "moderate_message"
                                     (verdict_with
                                        [("confidence", JNum (Fin (95 # 100)))])))]
           initial = Some st5
       /\ promises st5 !! 0
          = Some (Resolved (mkResponse (JBool true) (JNum (Fin (95 # 100)))
                                       (JStr "advertising") (JBool true)
                                       (JBool true) (Some 0%Z))).
Proof.
  pose (request := plain_request "buy followers now" 7).
  pose (http := HttpOk (function_reply "moderate_message"
                          (verdict_with [("confidence", JNum (Fin (95 # 100)))]))).
  pose (st1 := snd (queueMessageForModeration service5 0 request initial)).
  destruct (timerFires 0 st1) as [st3|] eqn:E3; [|vm_compute in E3; discriminate].
  destruct (httpReturns 0 http st3) as [st5|] eqn:E5.
  2:{ vm_compute in E3. injection E3 as <-. vm_compute in E5. discriminate. }
  destruct (single_item_batch_uses_moderateMessage service5 initial 0%Z request
              [] st1 st3 [] st3 http st5 (reachable_initial _))
    as (_&_&_&Hpend&Hres&_); try reflexivity; try assumption.
  - intros b Hb. vm_compute in Hb. injection Hb as <-. reflexivity.
  - split; [exact Hpend|]. exists st5. split.
    + simpl. fold request. fold st1. rewrite E3. fold http. rewrite E5.
      reflexivity.
    + exact Hres.
Defined.

(** ** Who is answered *)

Lemma orphan_submit cfg now request st p :
  coherent st -> orphan p st ->
  orphan p (snd (queueMessageForModeration cfg now request st)).
Proof.
  intros C (Hp&HT&HC).
  assert (Hlt : p < length (promises st)) by (eapply lookup_lt_Some; eauto).
  destruct (batchMap st !! or_else (chatId request) 0) as [ref|] eqn:Hmap.
  - destruct (coh_map st C _ _ Hmap) as (b0&tid0&task0&Hb0&Hne&Ht0&_).
    rewrite (queue_join cfg now request st ref b0 tid0 Hmap Hb0 Hne Ht0).
    cbv zeta. simpl.
    destruct (_ <=? _)%Z; unfold orphan; simpl;
      (split; [apply lookup_snoc_old; exact Hp|]); split; auto.
    + intros tid task H. apply lookup_delete_Some in H as [_ H]. eauto.
    + intros cid call H. destruct (decide (cid = nextCall st)) as [->|D].
      * rewrite lookup_insert_eq in H. injection H as <-. simpl. lia.
      * rewrite lookup_insert_ne in H by congruence. eauto.
  - rewrite (queue_first cfg now request st Hmap). unfold orphan; simpl.
    split; [apply lookup_snoc_old; exact Hp|]. split; auto.
    intros tid task H. destruct (decide (tid = nextTimer st)) as [->|D].
    + rewrite lookup_insert_eq in H. injection H as <-. simpl. lia.
    + rewrite lookup_insert_ne in H by congruence. eauto.
Qed.

Lemma orphan_step cfg ev st st' p :
  coherent st -> orphan p st -> step cfg ev st = Some st' -> orphan p st'.
Proof.
  intros C O H. destruct ev as [now request|tid|cid http]; simpl in H.
  - injection H as <-. apply orphan_submit; assumption.
  - destruct O as (Hp&HT&HC).
    destruct (timers st !! tid) as [task|] eqn:Htask;
      [|unfold timerFires in H; rewrite Htask in H; discriminate].
    destruct (timerFires_spec st tid task C Htask) as (b&api&_&_&_&_&E).
    rewrite E in H. injection H as <-. unfold orphan; simpl.
    split; [exact Hp|]. split.
    + intros t k H. apply lookup_delete_Some in H as [_ H]. eauto.
    + intros c k H. destruct (decide (c = nextCall st)) as [->|D].
      * rewrite lookup_insert_eq in H. injection H as <-. simpl. eauto.
      * rewrite lookup_insert_ne in H by congruence. eauto.
  - destruct O as (Hp&HT&HC). unfold httpReturns in H.
    destruct (calls st !! cid) as [call|] eqn:Hcall; [|discriminate].
    simpl in H. injection H as <-.
    match goal with |- orphan _ (run_continuation ?k ?n ?rs ?s) =>
      destruct (run_continuation_only k n rs s) as (_&_&Htm&_&Hcl&_&_&Hps) end.
    unfold orphan. rewrite Htm, Hcl, Hps by (apply not_eq_sym; eauto). simpl.
    split; [exact Hp|]. split; [exact HT|].
    intros c k H. apply lookup_delete_Some in H as [_ H]. eauto.
Qed.

(** A promise that nothing holds stays pending whatever happens. *)
Lemma orphan_forever cfg evs st st' p :
  coherent st -> orphan p st -> run cfg evs st = Some st' ->
  promises st' !! p = Some Pending.
Proof.
  revert st. induction evs as [|ev evs IH]; simpl; intros st C O H.
  - injection H as <-. apply O.
  - destruct (step cfg ev st) as [st1|] eqn:E; [|discriminate].
    eapply IH; [| |exact H].
    + eapply step_coherent; eauto.
    + eapply orphan_step; eauto.
Qed.

(** A request that joins an open batch without filling it: the promise
    it gets back is held by no timer and no call, and so is never
    settled. *)
Lemma joining_caller_never_answered cfg st now request ref batch evs st' :
  reachable cfg st ->
  batchMap st !! or_else (chatId request) 0 = Some ref ->
  batches st !! ref = Some batch ->
  (Z.of_nat (length (messages batch) + 1) < maxBatchSize cfg)%Z ->
  run cfg evs (snd (queueMessageForModeration cfg now request st)) = Some st' ->
  promises st' !! fst (queueMessageForModeration cfg now request st)
  = Some Pending.
Proof.
  intros R Hmap Hb Hsmall Hrun. assert (C := reachable_coherent cfg st R).
  eapply orphan_forever; [apply submit_coherent; exact C| |exact Hrun].
  destruct (coh_map st C _ _ Hmap) as (b0&tid0&task0&Hb0&Hne&Ht0&_).
  assert (b0 = batch) by congruence. subst b0.
  rewrite (queue_join cfg now request st ref batch tid0 Hmap Hb Hne Ht0).
  cbv zeta.
  match goal with |- context [Z.leb ?a ?b] =>
    assert (Z.leb a b = false) as Hle end.
  { apply Z.leb_gt. rewrite length_app. simpl. exact Hsmall. }
  rewrite Hle. unfold orphan; simpl. split; [apply lookup_snoc_new|]. split.
  - intros tid task H. destruct (coh_timer st C _ _ H) as (_&_&_&_&Hp).
    apply lookup_lt_Some in Hp. lia.
  - intros cid call H. destruct (coh_call st C _ _ H) as (_&_&Hp&_).
    apply lookup_lt_Some in Hp. lia.
Qed.

(** C1, the code at the failing input.  Three callers submit to chat 9
    within 100 ms, the batch may hold 5, the timer fires and the HTTP
    call fails: the first caller is answered with the conservative
    default, the second and the third are not answered, no timer and no
    call is left that could answer them, and whatever happens afterwards
    their promises stay pending. *)
Theorem callers_after_the_first_left_pending :
  exists st,
    run service5 three_callers_transport_error initial = Some st
    /\ promises st
       = [Resolved (conservative "Произошла ошибка при обработке батча"
                                 (Some 0%Z));
          Pending; Pending]
    /\ timers st = ∅ /\ calls st = ∅ /\ batchMap st = ∅
    /\ forall evs st',
         run service5 evs st = Some st' ->
         promises st' !! 1 = Some Pending /\ promises st' !! 2 = Some Pending.
Proof.
  pose (st := mkState ∅
                [mkBatch [stamp (plain_request "buy followers now" 9) 0;
                          stamp (plain_request "hello" 9) 1;
                          stamp (plain_request "cheap watches" 9) 2]
                         (Some 0) 80]
                ∅ 1 ∅ 1
                [Resolved (conservative "Произошла ошибка при обработке батча"
                                        (Some 0%Z));
                 Pending; Pending]).
  assert (E : run service5 three_callers_transport_error initial = Some st)
    by (vm_compute; reflexivity).
  exists st. split; [exact E|].
  assert (R : reachable service5 st).
  { eapply run_reachable; [apply reachable_initial | exact E]. }
  assert (C := reachable_coherent _ _ R).
  split; [reflexivity|]. split; [reflexivity|]. split; [reflexivity|].
  split; [reflexivity|].
  intros evs st' Hrun.
  split; eapply orphan_forever; try exact Hrun; try exact C;
    (split; [reflexivity|]; split; intros ? ? H; simpl in H;
     rewrite lookup_empty in H; discriminate).
Qed.

(** The size-triggered flush has the same shortcoming from the other
    end: of two callers that fill a batch of two, only the second is
    answered. *)
Example first_caller_of_full_batch_left_pending :
  exists st,
    run (mkConfig 3000 2)
        [Submit 0 (plain_request "buy followers now" 9);
         Submit 40 (plain_request "hello" 9);
         HttpReturns 0 HttpError] initial = Some st
    /\ promises st
       = [Pending;
          Resolved (conservative "Произошла ошибка при обработке батча"
                                 (Some 1%Z))]
    /\ timers st = ∅ /\ calls st = ∅.
Proof.
  exists (mkState ∅
            [mkBatch [stamp (plain_request "buy followers now" 9) 0;
                      stamp (plain_request "hello" 9) 1] None 40]
            ∅ 1 ∅ 1
            [Pending;
             Resolved (conservative "Произошла ошибка при обработке батча"
                                    (Some 1%Z))]).
  split; [vm_compute; reflexivity|]. repeat split; reflexivity.
Qed.

(** ** The size-triggered flush *)

(** When a request brings an open batch to [maxBatchSize] items, the
    timer of the batch is cancelled, the batch leaves the map and one
    call leaves with all its items; afterwards no timer is ever armed for
    this batch object again, so no second flush of it can happen. *)
Lemma size_flush_preempts_timer cfg st now request ref batch tid :
  reachable cfg st ->
  batchMap st !! or_else (chatId request) 0 = Some ref ->
  batches st !! ref = Some batch ->
  timer batch = Some tid ->
  Z.of_nat (length (messages batch) + 1) = maxBatchSize cfg ->
  let st' := snd (queueMessageForModeration cfg now request st) in
  let msgs := messages batch ++ [stamp request (length (messages batch))] in
  timers st !! tid <> None
  /\ timers st' = delete tid (timers st)
  /\ batchMap st' !! or_else (chatId request) 0 = None
  /\ calls st'
     = <[nextCall st :=
           mkCall (batch_call msgs) msgs
                  (AfterSize (mkHandler (length (promises st))
                                        (length msgs - 1)))]> (calls st)
  /\ forall evs st2,
       run cfg evs st' = Some st2 ->
       timers st2 !! tid = None
       /\ forall tid' task', timers st2 !! tid' = Some task' ->
                             t_batch task' <> ref.
Proof.
  intros R Hmap Hb Ht Hfull st' msgs.
  assert (C := reachable_coherent cfg st R).
  destruct (coh_map st C _ _ Hmap) as (b0&tid0&task0&Hb0&Hne&Ht0&Hk0&_).
  assert (b0 = batch) by congruence. subst b0.
  assert (tid0 = tid) by congruence. subst tid0.
  assert (E := queue_join cfg now request st ref batch tid Hmap Hb Hne Ht).
  cbv zeta in E. fold msgs in E.
  assert ((maxBatchSize cfg <=? Z.of_nat (length msgs))%Z = true) as Hle.
  { apply Z.leb_le. unfold msgs. rewrite length_app. simpl. lia. }
  rewrite Hle in E.
  assert (C' : coherent st') by (apply submit_coherent; exact C).
  split; [congruence|].
  split; [unfold st'; rewrite E; reflexivity|].
  split; [unfold st'; rewrite E; apply lookup_delete_eq|].
  split; [unfold st'; rewrite E; reflexivity|].
  intros evs st2 Hrun.
  destruct (run_evolves _ _ _ _ C' Hrun) as [(_&_&_&HT&_&_&HM) C2].
  unfold st' in HT, HM. rewrite E in HT, HM. simpl in HT, HM.
  assert (Hlt : tid < nextTimer st) by (apply (coh_timer st C _ _ Hk0)).
  split.
  - destruct (timers st2 !! tid) as [k|] eqn:Hk; [|reflexivity].
    specialize (HT _ _ Hk Hlt). rewrite lookup_delete_eq in HT. discriminate.
  - intros tid' task' Hk' Href.
    destruct (coh_timer st2 C2 _ _ Hk') as (_&Hm'&_).
    rewrite Href in Hm'.
    assert (ref < length (<[ref := mkBatch msgs None now]> (batches st))) as Hr.
    { rewrite length_insert. eapply lookup_lt_Some; eauto. }
    specialize (HM _ _ Hm' Hr). apply lookup_delete_Some in HM as [Hd HM].
    apply Hd. exact (coherent_map_inj st _ _ ref C Hmap HM).
Qed.

(** C5, the code at the failing input.  With [maxBatchSize] 1 the first
    request of a conversation brings its batch to [maxBatchSize] items,
    yet nothing is flushed: no call leaves, the batch stays open and its
    timer stays armed for the full [batchTimeout].  The next request is
    then flushed together with the first, two items in a batch of at
    most one. *)
Theorem batch_of_one_waits_for_the_timer :
  let st1 := snd (queueMessageForModeration service1 0
                    (plain_request "hello" 9) initial) in
  let st2 := snd (queueMessageForModeration service1 40
                    (plain_request "again" 9) st1) in
  batches st1 !! 0 = Some (mkBatch [stamp (plain_request "hello" 9) 0]
                                   (Some 0) 0)
  /\ Z.of_nat (length [stamp (plain_request "hello" 9) 0])
     = maxBatchSize service1
  /\ calls st1 = ∅
  /\ batchMap st1 !! 9%Z = Some 0
  /\ timers st1 !! 0 = Some (mkTimer 9 0 (mkHandler 0 0) 0 3000)
  /\ exists call, calls st2 !! 0 = Some call /\ length (c_messages call) = 2.
Proof.
  cbv zeta. repeat split; try reflexivity.
  eexists. split; [vm_compute; reflexivity|]. reflexivity.
Qed.

(** ** What batches hold *)

Lemma stamp_conversation request position :
  conversation (stamp request position) = conversation request.
Proof. reflexivity. Qed.

Lemma well_batched_initial cfg : well_batched cfg initial.
Proof. split; simpl; intros; simplify_map_eq. Qed.

Lemma submit_well_batched cfg now request st :
  coherent st -> well_batched cfg st ->
  well_batched cfg (snd (queueMessageForModeration cfg now request st)).
Proof.
  intros C [WO WC].
  destruct (batchMap st !! or_else (chatId request) 0) as [ref|] eqn:Hmap.
  - destruct (coh_map st C _ _ Hmap) as (b0&tid0&task0&Hb0&Hne&Ht0&_).
    rewrite (queue_join cfg now request st ref b0 tid0 Hmap Hb0 Hne Ht0).
    cbv zeta. destruct (WO _ _ _ Hmap Hb0) as [Hall Hlen].
    set (msgs := messages b0 ++ [stamp request (length (messages b0))]).
    assert (Hmsgs : Forall (fun m => conversation m = or_else (chatId request) 0
                                     /\ messageId m <> None) msgs).
    { unfold msgs. apply Forall_app. split; [exact Hall|].
      constructor; [|constructor]. split; [reflexivity | discriminate]. }
    destruct (maxBatchSize cfg <=? Z.of_nat (length msgs))%Z eqn:Hle; simpl.
    + split; simpl.
      * intros c r b H Hb. apply lookup_delete_Some in H as [Hd H].
        assert (r <> ref) by (intros ->; apply Hd; eapply coherent_map_inj; eauto).
        rewrite list_lookup_insert_ne in Hb by congruence. eauto.
      * intros cid call H. destruct (decide (cid = nextCall st)) as [->|D].
        -- rewrite lookup_insert_eq in H. injection H as <-. simpl.
           split; [eauto|]. intros Hmax. specialize (Hlen Hmax).
           unfold msgs. rewrite length_app. simpl. lia.
        -- rewrite lookup_insert_ne in H by congruence. eauto.
    + split; simpl; [|exact WC].
      intros c r b H Hb. destruct (decide (r = ref)) as [->|D].
      * assert (c = or_else (chatId request) 0)
          by (eapply coherent_map_inj; eauto).
        subst c.
        rewrite list_lookup_insert_eq in Hb by (eapply lookup_lt_Some; eauto).
        injection Hb as <-. simpl. split; [exact Hmsgs|].
        intros _. apply Z.leb_gt in Hle. exact Hle.
      * rewrite list_lookup_insert_ne in Hb by congruence. eauto.
  - rewrite (queue_first cfg now request st Hmap). split; simpl; [|exact WC].
    intros c r b H Hb.
    destruct (decide (c = or_else (chatId request) 0)) as [->|D].
    + rewrite lookup_insert_eq in H. injection H as <-.
      rewrite lookup_snoc_new in Hb. injection Hb as <-. simpl.
      split; [|lia]. constructor; [|constructor].
      split; [reflexivity | discriminate].
    + rewrite lookup_insert_ne in H by congruence.
      destruct (coh_map st C _ _ H) as (b'&_&_&Hb'&_).
      rewrite (lookup_snoc_old _ _ _ _ Hb') in Hb. injection Hb as <-. eauto.
Qed.

Lemma step_well_batched cfg ev st st' :
  coherent st -> well_batched cfg st -> step cfg ev st = Some st' ->
  well_batched cfg st'.
Proof.
  intros C W H. destruct ev as [now request|tid|cid http]; simpl in H.
  - injection H as <-. apply submit_well_batched; assumption.
  - destruct W as [WO WC].
    destruct (timers st !! tid) as [task|] eqn:Htask;
      [|unfold timerFires in H; rewrite Htask in H; discriminate].
    destruct (timerFires_spec st tid task C Htask) as (b&api&Hm&Hb&Hne&Hapi&E).
    rewrite E in H. injection H as <-. split; simpl.
    + intros c r b' H Hb'. apply lookup_delete_Some in H as [_ H]. eauto.
    + intros c call H. destruct (decide (c = nextCall st)) as [->|D].
      * rewrite lookup_insert_eq in H. injection H as <-. simpl.
        destruct (WO _ _ _ Hm Hb) as [Hall Hlen]. split; [eauto|].
        intros Hmax. specialize (Hlen Hmax). lia.
      * rewrite lookup_insert_ne in H by congruence. eauto.
  - destruct W as [WO WC]. unfold httpReturns in H.
    destruct (calls st !! cid) as [call|] eqn:Hcall; [|discriminate].
    simpl in H. injection H as <-.
    match goal with |- well_batched _ (run_continuation ?k ?n ?rs ?s) =>
      destruct (run_continuation_only k n rs s) as (Hbm&Hbs&_&_&Hcl&_) end.
    split; rewrite ?Hbm, ?Hbs, ?Hcl; simpl; [exact WO|].
    intros c k H. apply lookup_delete_Some in H as [_ H]. eauto.
Qed.

Lemma reachable_well_batched cfg st : reachable cfg st -> well_batched cfg st.
Proof.
  induction 1 as [|st ev st' R IH H].
  - apply well_batched_initial.
  - eapply step_well_batched; eauto. eapply reachable_coherent; eauto.
Qed.

(** X1.  A batch never mixes conversations: in every reachable state the
    items of an open batch all belong to the conversation the batch is
    open under, and the items a classifier call in flight carries all
    belong to one conversation; every such item carries an identity. *)
Theorem batches_hold_one_conversation cfg st :
  reachable cfg st ->
  (forall chat ref batch m,
      batchMap st !! chat = Some ref -> batches st !! ref = Some batch ->
      m ∈ messages batch -> conversation m = chat /\ messageId m <> None)
  /\ (forall cid call,
        calls st !! cid = Some call ->
        exists chat, forall m, m ∈ c_messages call ->
                               conversation m = chat /\ messageId m <> None).
Proof.
  intros R. destruct (reachable_well_batched cfg st R) as [WO WC]. split.
  - intros chat ref batch m Hmap Hb Hm.
    destruct (WO _ _ _ Hmap Hb) as [Hall _].
    rewrite Forall_forall in Hall. auto.
  - intros cid call H. destruct (WC _ _ H) as [[chat Hall] _].
    exists chat. rewrite Forall_forall in Hall. exact Hall.
Qed.

(** X2.  With [maxBatchSize] at least 2, no classifier call ever carries
    more than [maxBatchSize] items or none at all, and an open batch is
    always non-empty and below [maxBatchSize]. *)
Theorem flushed_batches_within_maxBatchSize cfg st :
  (2 <= maxBatchSize cfg)%Z ->
  reachable cfg st ->
  (forall cid call,
      calls st !! cid = Some call ->
      (1 <= Z.of_nat (length (c_messages call)) <= maxBatchSize cfg)%Z)
  /\ (forall chat ref batch,
        batchMap st !! chat = Some ref -> batches st !! ref = Some batch ->
        (1 <= Z.of_nat (length (messages batch)) < maxBatchSize cfg)%Z).
Proof.
  intros Hmax R. destruct (reachable_well_batched cfg st R) as [WO WC].
  assert (C := reachable_coherent cfg st R). split.
  - intros cid call H. destruct (WC _ _ H) as [_ Hlen].
    destruct (coh_call st C _ _ H) as (_&Hapi&_).
    split; [|auto]. destruct (c_messages call); [discriminate | simpl; lia].
  - intros chat ref batch Hmap Hb. destruct (WO _ _ _ Hmap Hb) as [_ Hlen].
    destruct (coh_map st C _ _ Hmap) as (b&_&_&Hb'&Hne&_).
    assert (b = batch) by congruence. subst b.
    split; [|auto]. destruct (messages batch); [congruence | simpl; lia].
Qed.

Lemma busy_state_call :
  calls busy_state !! 0
  = Some (mkCall (batch_call two_requests) two_requests
                 (AfterSize (mkHandler 1 1))).
Proof. vm_compute. reflexivity. Qed.

Lemma batches_hold_one_conversation_witness :
  exists chat, forall m, m ∈ two_requests ->
                         conversation m = chat /\ messageId m <> None.
Proof.
  exact (proj2 (batches_hold_one_conversation (mkConfig 3000 2) busy_state
                  busy_state_reachable) 0 _ busy_state_call).
Defined.

Lemma flushed_batches_within_maxBatchSize_witness :
  (1 <= Z.of_nat (length two_requests) <= 2)%Z.
Proof.
  refine (proj1 (flushed_batches_within_maxBatchSize (mkConfig 3000 2)
                   busy_state _ busy_state_reachable) 0 _ busy_state_call).
  simpl. lia.
Defined.

(** ** Conversations do not disturb each other *)

(** X3.  A request for one conversation leaves the open batch of every
    other conversation as it is: the same batch object stays open with
    the same items and the same timer handle, and that timer stays armed
    as it was. *)
Theorem submit_leaves_other_conversations cfg st now request chat ref batch :
  reachable cfg st ->
  conversation request <> chat ->
  batchMap st !! chat = Some ref ->
  batches st !! ref = Some batch ->
  let st' := snd (queueMessageForModeration cfg now request st) in
  batchMap st' !! chat = Some ref
  /\ batches st' !! ref = Some batch
  /\ exists tid task,
       timer batch = Some tid /\ timers st !! tid = Some task
       /\ timers st' !! tid = Some task.
Proof.
  intros R Hne Hmap Hb st'. assert (C := reachable_coherent cfg st R).
  unfold conversation in Hne.
  destruct (coh_map st C _ _ Hmap) as (b&tid&task&Hb'&_&Ht&Hk&Hc&_).
  assert (b = batch) by congruence. subst b.
  destruct (coh_timer st C _ _ Hk) as (Hlt&_).
  unfold st'.
  destruct (batchMap st !! or_else (chatId request) 0) as [ref0|] eqn:Hmap0.
  - destruct (coh_map st C _ _ Hmap0) as (b0&tid0&task0&Hb0&Hne0&Ht0&Hk0&Hc0&_).
    assert (ref0 <> ref) by (intros ->; apply Hne; eapply coherent_map_inj; eauto).
    assert (tid0 <> tid).
    { intros ->. assert (task0 = task) by congruence. subst. congruence. }
    rewrite (queue_join cfg now request st ref0 b0 tid0 Hmap0 Hb0 Hne0 Ht0).
    cbv zeta. destruct (_ <=? _)%Z; simpl.
    + rewrite lookup_delete_ne by congruence.
      rewrite list_lookup_insert_ne by congruence.
      split; [exact Hmap|]. split; [exact Hb|]. exists tid, task.
      rewrite lookup_delete_ne by congruence. auto.
    + rewrite list_lookup_insert_ne by congruence.
      split; [exact Hmap|]. split; [exact Hb|]. exists tid, task. auto.
  - rewrite (queue_first cfg now request st Hmap0). simpl.
    rewrite lookup_insert_ne by congruence.
    split; [exact Hmap|]. split; [apply lookup_snoc_old; exact Hb|].
    exists tid, task. rewrite lookup_insert_ne by lia. auto.
Qed.

Lemma submit_leaves_other_conversations_witness :
  let st := snd (queueMessageForModeration service5 0
                   (plain_request "hello" 9) initial) in
  let st' := snd (queueMessageForModeration service5 10
                    (plain_request "buy followers now" 7) st) in
  batchMap st' !! 9%Z = Some 0
  /\ batches st' !! 0
     = Some (mkBatch [stamp (plain_request "hello" 9) 0] (Some 0) 0)
  /\ exists tid task,
       Some 0 = Some tid /\ timers st !! tid = Some task
       /\ timers st' !! tid = Some task.
Proof.
  refine (submit_leaves_other_conversations service5 _ 10%Z
            (plain_request "buy followers now" 7) 9%Z 0
            (mkBatch [stamp (plain_request "hello" 9) 0] (Some 0) 0) _ _ _ _).
  - apply (run_reachable _ [Submit 0 (plain_request "hello" 9)] initial);
      [apply reachable_initial | reflexivity].
  - vm_compute. discriminate.
  - vm_compute. reflexivity.
  - vm_compute. reflexivity.
Defined.

(** ** Who is answered, and with what *)

(** X4.  When the call of a flushed batch returns, exactly one promise
    is settled: that of the caller whose submission armed the timer (the
    first item) for a timer flush, that of the caller whose submission
    filled the batch (the last item) for a size flush.  It is resolved
    with the outcome at that caller's own position in the results, or
    rejected when the results are too short to have that position.
    Every other promise, the map, the batches and the timers are left as
    they were. *)
Theorem returning_call_answers_one_caller cfg st cid call http st' :
  reachable cfg st ->
  calls st !! cid = Some call ->
  httpReturns cid http st = Some st' ->
  let h := cont_handler (c_then call) in
  let results := moderateMessageBatch (c_messages call) http in
  h_index h = match c_then call with
              | AfterTimer _ => 0
              | AfterSize _ => length (c_messages call) - 1
              end
  /\ promises st !! h_promise h = Some Pending
  /\ promises st' !! h_promise h
     = Some match results !! h_index h with
            | Some r => Resolved r
            | None => Rejected "Не найден результат модерации для сообщения"
            end
  /\ (forall q, q <> h_promise h -> promises st' !! q = promises st !! q)
  /\ batchMap st' = batchMap st /\ batches st' = batches st
  /\ timers st' = timers st /\ calls st' = delete cid (calls st).
Proof.
  intros R Hcall Hret h results. assert (C := reachable_coherent cfg st R).
  destruct (coh_call st C _ _ Hcall) as (_&Hapi&Hpend&Hidx).
  unfold httpReturns in Hret. rewrite Hcall in Hret. simpl in Hret.
  injection Hret as <-.
  match goal with |- context [run_continuation ?k ?n ?rs ?s] =>
    destruct (run_continuation_only k n rs s) as (Hbm&Hbs&Htm&_&Hcl&_&_&Hps);
    assert (Hv := run_continuation_pending k n rs s) end.
  simpl in Hv. rewrite Hbm, Hbs, Htm, Hcl.
  split; [destruct (c_then call); exact Hidx|].
  split; [exact Hpend|]. split.
  - apply Hv; [|exact Hpend].
    destruct (c_messages call); [discriminate | simpl; lia].
  - split; [exact Hps|]. repeat split; reflexivity.
Qed.

Lemma returning_call_answers_one_caller_witness :
  exists st',
    httpReturns 0 (HttpOk partial_reply) busy_state = Some st'
    /\ promises st' !! 1
       = Some (Rejected "Не найден результат модерации для сообщения")
    /\ promises st' !! 0 = Some Pending.
Proof.
  destruct (httpReturns 0 (HttpOk partial_reply) busy_state) as [st'|] eqn:E;
    [|vm_compute in E; discriminate].
  destruct (returning_call_answers_one_caller (mkConfig 3000 2) busy_state 0 _
              (HttpOk partial_reply) st' busy_state_reachable busy_state_call E)
    as (_&_&Hres&Hother&_).
  exists st'. split; [reflexivity|]. split.
  - exact Hres.
  - rewrite (Hother 0) by (simpl; lia). vm_compute. reflexivity.
Defined.

(** ** The gateway: identities and defaults *)

(** X6.  Whatever the classifier replies, and also when the call fails,
    the outcome of the single-message operation carries the [messageId]
    of its request as it is, also when it is absent; so does the one
    outcome of the batch operation on a list of one message, which goes
    through the single-message operation; and for two messages or more,
    on every path of the batch operation other than an accepted
    structured reply, the outcome at position [i] carries the identity of
    the request at position [i] (its [messageId], or [i] when that is
    absent or 0). *)
Theorem outcomes_carry_the_request_identity request messages http :
  resp_messageId (moderateMessage request http) = messageId request
  /\ map resp_messageId (moderateMessageBatch [request] http)
     = [messageId request]
  /\ (2 <= length messages ->
      match http with
      | HttpOk data => batch_entries data = None
      | HttpError => True
      end ->
      forall i m,
        messages !! i = Some m ->
        exists r, moderateMessageBatch messages http !! i = Some r /\
                  resp_messageId r = Some (or_else (messageId m) (Z.of_nat i))).
Proof.
  assert (Hone : resp_messageId (moderateMessage request http)
                 = messageId request).
  { destruct http as [|data]; [reflexivity|].
    unfold moderateMessage, moderateMessage_try.
    destruct (candidate_part data "functionCall") as [fc|]; simpl.
    + destruct (truthy fc && _ && _); [reflexivity|].
      destruct (candidate_part data "text") as [t|]; simpl; [|reflexivity].
      destruct (truthy t); [|reflexivity]. destruct t; reflexivity.
    + destruct (candidate_part data "text") as [t|]; [|reflexivity].
      destruct (truthy t); reflexivity. }
  split; [exact Hone|]. split.
  - cbn [moderateMessageBatch map]. rewrite Hone. reflexivity.
  - intros Hlen Hreg i m Hi.
    assert (Hsafe : forall why,
      exists r, safe_batch why messages !! i = Some r /\
                resp_messageId r = Some (or_else (messageId m) (Z.of_nat i))).
    { intros why. unfold safe_batch. rewrite list_lookup_imap, Hi. simpl. eauto. }
    assert (Htext : forall t,
      exists r, extractBatchResultsFromText t messages !! i = Some r /\
                resp_messageId r = Some (or_else (messageId m) (Z.of_nat i))).
    { intros t. unfold extractBatchResultsFromText.
      destruct t; try apply Hsafe;
        destruct (_ || _); try apply Hsafe;
        rewrite list_lookup_imap, Hi; simpl; eauto. }
    destruct messages as [|a [|b l]]; simpl in Hlen; try lia.
    destruct http as [|data]; [apply Hsafe|].
    unfold moderateMessageBatch.
    destruct (moderateMessageBatch_try (a :: b :: l) data) as [rs|] eqn:T.
    + assert (Hbranch : forall rs',
        (textResponse ← candidate_part data "text";
         if truthy textResponse then
           match textResponse with
           | JStr _ => Some (extractBatchResultsFromText textResponse
                               (a :: b :: l))
           | _ => None
           end
         else None) = Some rs' ->
        exists r, rs' !! i = Some r /\
                  resp_messageId r = Some (or_else (messageId m) (Z.of_nat i))).
      { intros rs'. destruct (candidate_part data "text") as [t|]; [|discriminate].
        simpl. destruct (truthy t); [|discriminate].
        destruct t; try discriminate. intros E. injection E as <-.
        apply (Htext (JStr s)). }
      revert Hreg T. unfold moderateMessageBatch_try, batch_entries.
      destruct (candidate_part data "functionCall") as [fc|]; [|discriminate].
      simpl.
      destruct (truthy fc && str_eq (prop_opt fc "name") "moderate_messages_batch");
        simpl; [|intros _; apply Hbranch].
      destruct (prop_opt (prop_opt fc "args") "results")
        as [| |bb|n|s|items|kv]; intros Hreg.
      * apply Hbranch.
      * apply Hbranch.
      * destruct bb; simpl; [discriminate | apply Hbranch].
      * destruct (truthy (JNum n)); simpl; [discriminate | apply Hbranch].
      * destruct (truthy (JStr s)); simpl; [discriminate | apply Hbranch].
      * simpl in *. destruct (existsb nullish items); discriminate.
      * simpl. discriminate.
    + destruct (candidate_part data "text") as [t|]; [|apply Hsafe].
      destruct (truthy t); [apply Htext | apply Hsafe].
Qed.

Lemma safe_batch_conservative why messages :
  Forall is_conservative (safe_batch why messages).
Proof.
  rewrite Forall_forall. intros r Hr.
  apply list_elem_of_lookup in Hr as [i Hi]. unfold safe_batch in Hi.
  rewrite list_lookup_imap in Hi. destruct (messages !! i); [|discriminate].
  simpl in Hi. injection Hi as <-. repeat split.
Qed.

(** X7.  The conservative default law.  When the call fails, and when
    the reply has neither an accepted function call nor any text, every
    request gets the conservative default (not flagged, confidence 0, no
    pattern, no ban), for the single-message and for the batch
    operation; the batch operation then answers every request. *)
Theorem unusable_reply_gives_conservative_defaults request messages http :
  match http with
  | HttpError => True
  | HttpOk data => no_text data = true
  end ->
  (match http with
   | HttpError => True
   | HttpOk data => single_args data = None
   end -> is_conservative (moderateMessage request http))
  /\ (match http with
      | HttpError => True
      | HttpOk data => batch_entries data = None
      end ->
      2 <= length messages ->
      length (moderateMessageBatch messages http) = length messages
      /\ Forall is_conservative (moderateMessageBatch messages http)).
Proof.
  intros Hno. split.
  - destruct http as [|data]; [intros _; repeat split|].
    unfold no_text in Hno. unfold single_args, moderateMessage, moderateMessage_try.
    assert (Ht : match candidate_part data "text" with
                 | Some t => truthy t = false
                 | None => True
                 end).
    { destruct (candidate_part data "text"); [apply negb_true_iff, Hno | exact I]. }
    clear Hno.
    destruct (candidate_part data "functionCall") as [fc|];
      [|intros _; cbn [mbind option_bind];
        destruct (candidate_part data "text") as [t|];
        [rewrite Ht|]; repeat split].
    cbn [mbind option_bind].
    destruct (truthy fc && _ && _); [discriminate|]. intros _.
    destruct (candidate_part data "text") as [t|]; cbn [mbind option_bind];
      [rewrite Ht|]; repeat split.
  - intros Hreg Hlen.
    destruct messages as [|a [|b l]]; simpl in Hlen; try lia.
    destruct http as [|data].
    + split; [apply safe_batch_length | apply safe_batch_conservative].
    + unfold no_text in Hno. unfold moderateMessageBatch.
      destruct (moderateMessageBatch_try (a :: b :: l) data) as [rs|] eqn:T.
      * exfalso. revert Hreg T. unfold moderateMessageBatch_try, batch_entries.
        destruct (candidate_part data "functionCall") as [fc|]; [|discriminate].
        simpl.
        assert (Hbranch : forall rs',
          (textResponse ← candidate_part data "text";
           if truthy textResponse then
             match textResponse with
             | JStr _ => Some (extractBatchResultsFromText textResponse
                                 (a :: b :: l))
             | _ => None
             end
           else None) = Some rs' -> False).
        { intros rs'. destruct (candidate_part data "text") as [t|]; [|discriminate].
          simpl. apply negb_true_iff in Hno. rewrite Hno. discriminate. }
        destruct (truthy fc && str_eq (prop_opt fc "name") "moderate_messages_batch");
          simpl; [|intros _; apply Hbranch].
        destruct (prop_opt (prop_opt fc "args") "results")
          as [| |bb|n|s|items|kv]; intros Hreg.
        -- apply Hbranch.
        -- apply Hbranch.
        -- destruct bb; simpl; [discriminate | apply Hbranch].
        -- destruct (truthy (JNum n)); simpl; [discriminate | apply Hbranch].
        -- destruct (truthy (JStr s)); simpl; [discriminate | apply Hbranch].
        -- simpl in *. destruct (existsb nullish items); discriminate.
        -- simpl. discriminate.
      * destruct (candidate_part data "text") as [t|].
        -- apply negb_true_iff in Hno. rewrite Hno.
           split; [apply safe_batch_length | apply safe_batch_conservative].
        -- split; [apply safe_batch_length | apply safe_batch_conservative].
Qed.

Lemma unusable_reply_gives_conservative_defaults_witness :
  is_conservative
    (moderateMessage (plain_request "hello" 7)
                     (HttpOk (function_reply "something_else" JNull))).
Proof.
  refine (proj1 (unusable_reply_gives_conservative_defaults
                   (plain_request "hello" 7) []
                   (HttpOk (function_reply "something_else" JNull)) _) _);
    vm_compute; reflexivity.
Defined.

Lemma extract_text_typed text : well_typed (extract_text text).
Proof.
  unfold well_typed, is_boolean, is_number, extract_text, embedded_json.
  destruct (search re_json text) as [m|];
    [|cbn [keyword_path isSpam confidence matchesKnownPattern shouldBan];
      repeat split; eauto].
  destruct (JSON_parse (m_text m)) as [jsonData|];
    [|cbn [keyword_path isSpam confidence matchesKnownPattern shouldBan];
      repeat split; eauto].
  destruct (defined _ && defined _);
    cbn [keyword_path isSpam confidence matchesKnownPattern shouldBan];
    repeat split; eauto.
Qed.

Lemma extractModerationFromText_typed text :
  well_typed (extractModerationFromText text).
Proof.
  destruct text; try apply extract_text_typed;
    unfold well_typed, is_boolean, is_number; simpl; repeat split; eauto.
Qed.

Lemma with_id_typed r mid : well_typed r -> well_typed (with_id r mid).
Proof. destruct r; exact id. Qed.

Lemma conservative_typed why mid : well_typed (conservative why mid).
Proof. unfold well_typed, is_boolean, is_number; simpl; repeat split; eauto. Qed.

Lemma safe_batch_typed why messages : Forall well_typed (safe_batch why messages).
Proof.
  rewrite Forall_forall. intros r Hr.
  apply list_elem_of_lookup in Hr as [i Hi]. unfold safe_batch in Hi.
  rewrite list_lookup_imap in Hi. destruct (messages !! i); [|discriminate].
  simpl in Hi. injection Hi as <-. apply conservative_typed.
Qed.

Lemma extractBatchResultsFromText_typed text messages :
  Forall well_typed (extractBatchResultsFromText text messages).
Proof.
  rewrite Forall_forall. intros r Hr.
  apply list_elem_of_lookup in Hr as [i Hi]. revert Hi.
  unfold extractBatchResultsFromText.
  destruct text as [| | | |s|items|];
    try (intros Hi; eapply Forall_lookup_1 in Hi;
         [exact Hi | apply safe_batch_typed]).
  - destruct (_ || _); rewrite list_lookup_imap;
      (destruct (messages !! i); [|discriminate]); simpl;
      intros E; injection E as <-; apply with_id_typed, extract_text_typed.
  - destruct (_ || _);
      [intros Hi; eapply Forall_lookup_1 in Hi;
       [exact Hi | apply safe_batch_typed]|].
    rewrite list_lookup_imap. destruct (messages !! i); [|discriminate].
    simpl. intros E. injection E as <-. apply conservative_typed.
Qed.

(** X8.  Unless a structured reply is accepted, every outcome of the
    gateway has booleans for the flag, the pattern and the ban and a
    number for the confidence: the text extractor coerces what it reads
    and the defaults are constants (a structured reply, in contrast, is
    handed over as the classifier wrote it). *)
Theorem unstructured_outcomes_are_well_typed request messages http :
  (match http with
   | HttpError => True
   | HttpOk data => single_args data = None
   end -> well_typed (moderateMessage request http))
  /\ (match http with
      | HttpError => True
      | HttpOk data => batch_entries data = None
      end ->
      2 <= length messages ->
      Forall well_typed (moderateMessageBatch messages http)).
Proof.
  split.
  - destruct http as [|data]; [intros _; apply conservative_typed|].
    unfold single_args, moderateMessage, moderateMessage_try.
    assert (Hfb : well_typed
      match candidate_part data "text" with
      | Some textResponse =>
        if truthy textResponse
        then with_id (extractModerationFromText textResponse) (messageId request)
        else conservative "Произошла ошибка при обработке" (messageId request)
      | None => conservative "Произошла ошибка при обработке" (messageId request)
      end).
    { destruct (candidate_part data "text") as [t|];
        [destruct (truthy t)|]; try apply conservative_typed.
      apply with_id_typed, extractModerationFromText_typed. }
    assert (Htext : forall r,
      (textResponse ← candidate_part data "text";
       if truthy textResponse then
         match textResponse with
         | JStr _ => Some (with_id (extractModerationFromText textResponse)
                                   (messageId request))
         | _ => None
         end
       else None) = Some r -> well_typed r).
    { intros r. destruct (candidate_part data "text") as [t|]; [|discriminate].
      cbn [mbind option_bind]. destruct (truthy t); [|discriminate].
      destruct t as [| | | |s| |]; try discriminate. intros E. injection E as <-.
      apply with_id_typed, (extractModerationFromText_typed (JStr s)). }
    destruct (candidate_part data "functionCall") as [fc|];
      cbn [mbind option_bind]; [|intros _; exact Hfb].
    destruct (truthy fc && _ && _); [discriminate|]. intros _.
    match goal with
    | |- well_typed match ?o with Some _ => _ | None => _ end =>
      destruct o as [r|]; [exact (Htext r eq_refl) | exact Hfb]
    end.
  - intros Hreg Hlen.
    destruct messages as [|a [|b l]]; simpl in Hlen; try lia.
    destruct http as [|data]; [apply safe_batch_typed|].
    unfold moderateMessageBatch.
    assert (Hfb : Forall well_typed
      match candidate_part data "text" with
      | Some textResponse =>
        if truthy textResponse
        then extractBatchResultsFromText textResponse (a :: b :: l)
        else safe_batch "Произошла ошибка при обработке батча" (a :: b :: l)
      | None => safe_batch "Произошла ошибка при обработке батча" (a :: b :: l)
      end).
    { destruct (candidate_part data "text") as [t|];
        [destruct (truthy t)|]; try apply safe_batch_typed.
      apply extractBatchResultsFromText_typed. }
    destruct (moderateMessageBatch_try (a :: b :: l) data) as [rs|] eqn:T;
      [|exact Hfb].
    revert Hreg T. unfold moderateMessageBatch_try, batch_entries.
    destruct (candidate_part data "functionCall") as [fc|]; [|discriminate].
    simpl.
    assert (Hbranch :
      (textResponse ← candidate_part data "text";
       if truthy textResponse then
         match textResponse with
         | JStr _ => Some (extractBatchResultsFromText textResponse
                             (a :: b :: l))
         | _ => None
         end
       else None) = Some rs -> Forall well_typed rs).
    { destruct (candidate_part data "text") as [t|]; [|discriminate].
      simpl. destruct (truthy t); [|discriminate].
      destruct t as [| | | |s| |]; try discriminate.
      intros E. apply (inj Some) in E. rewrite <- E.
      apply (extractBatchResultsFromText_typed (JStr s)). }
    destruct (truthy fc && str_eq (prop_opt fc "name") "moderate_messages_batch");
      simpl; [|intros _; apply Hbranch].
    destruct (prop_opt (prop_opt fc "args") "results")
      as [| |bb|n|s|items|kv]; intros Hreg.
    + apply Hbranch.
    + apply Hbranch.
    + destruct bb; simpl; [discriminate | apply Hbranch].
    + destruct (truthy (JNum n)); simpl; [discriminate | apply Hbranch].
    + destruct (truthy (JStr s)); simpl; [discriminate | apply Hbranch].
    + simpl in *. destruct (existsb nullish items); discriminate.
    + simpl. discriminate.
Qed.

Lemma unstructured_outcomes_are_well_typed_witness :
  well_typed (moderateMessage (plain_request "hello" 7)
                              (HttpOk (text_reply "это спам, уверенность 90%"))).
Proof.
  refine (proj1 (unstructured_outcomes_are_well_typed
                   (plain_request "hello" 7) []
                   (HttpOk (text_reply "это спам, уверенность 90%"))) _).
  vm_compute; reflexivity.
Defined.

(** X9.  A free-text reply without an item delimiter gives every request
    of the batch the same verdict, the one read from the whole text; and
    with delimiters, a request beyond the last segment gets the verdict
    read from the whole text. *)
Theorem undelimited_text_gives_one_verdict (s : string) messages :
  (includes (u s) "Сообщение 1:" || includes (u s) "---" = false ->
   forall r, r ∈ extractBatchResultsFromText (JStr s) messages ->
             response_verdict r = response_verdict (extract_text (u s)))
  /\ (forall i r,
        length (split re_delimiter (u s)) <= i ->
        extractBatchResultsFromText (JStr s) messages !! i = Some r ->
        response_verdict r = response_verdict (extract_text (u s))).
Proof.
  split.
  - intros Hno r Hr. apply list_elem_of_lookup in Hr as [i Hi]. revert Hi.
    unfold extractBatchResultsFromText. rewrite Hno.
    rewrite list_lookup_imap. destruct (messages !! i); [|discriminate].
    simpl. intros E. injection E as <-. reflexivity.
  - intros i r Hlen. unfold extractBatchResultsFromText.
    destruct (_ || _); rewrite list_lookup_imap;
      (destruct (messages !! i); [|discriminate]); simpl;
      intros E; injection E as <-; [|reflexivity].
    rewrite (lookup_ge_None_2 _ _ Hlen). reflexivity.
Qed.

(** ** The matcher *)

Lemma rx_liti cs : forall said s cap k,
  same_letters said cs ->
  rx (fold_right (fun c r => Cat (Class (fun x => (canon x =? canon c)%N)) r)
                 Eps cs) (said ++ s) cap k = k s cap.
Proof.
  unfold same_letters.
  induction cs as [|c cs IH]; intros [|x said] s cap k H; try discriminate.
  - reflexivity.
  - injection H as Hx Hs. cbn [fold_right app]. cbn [rx].
    rewrite Hx, N.eqb_refl. apply IH, Hs.
Qed.

Lemma rx_alts_some rs r s cap k :
  r ∈ rs -> is_Some (rx r s cap k) -> is_Some (rx (alts rs) s cap k).
Proof.
  induction rs as [|a rs IH]; intros Hin Hr.
  - apply elem_of_nil in Hin as [].
  - destruct rs as [|b rs].
    + apply list_elem_of_singleton in Hin as ->. exact Hr.
    + change (alts (a :: b :: rs)) with (Alt a (alts (b :: rs))). cbn [rx].
      destruct (rx a s cap k) eqn:E; [eauto|].
      apply elem_of_cons in Hin as [->|Hin]; [rewrite E in Hr; destruct Hr; discriminate|].
      apply IH; assumption.
Qed.

Lemma search_from_some r a : forall br s,
  is_Some (match_here r s) -> is_Some (search_from r br (a ++ s)).
Proof.
  induction a as [|c a IH]; intros br s [[s' cap] H].
  - destruct s; simpl; rewrite H; eauto.
  - cbn [app search_from].
    destruct (match_here r (c :: a ++ s)) as [[s1 c1]|]; [eauto|].
    apply IH. eauto.
Qed.

Lemma test_here r a s :
  is_Some (match_here r s) -> test r (a ++ s) = true.
Proof.
  intros H. unfold test, search.
  destruct (search_from_some r a [] s H) as [m ->]. reflexivity.
Qed.

Lemma rx_class_fail f r1 r2 s cap k :
  (forall c s', s = c :: s' -> f c = false) ->
  rx (Cat (Cat (Class f) r1) r2) s cap k = None.
Proof.
  intros H. destruct s as [|c s']; [reflexivity|].
  cbn [rx]. rewrite (H c s' eq_refl). reflexivity.
Qed.

Lemma search_json_none s : brace ∉ s -> search re_json s = None.
Proof.
  unfold search. generalize (@nil N) as br.
  induction s as [|c s IH]; intros br Hno.
  - reflexivity.
  - assert (E : match_here re_json (c :: s) = None).
    { apply (rx_class_fail (N.eqb 123) Eps
               (seq [Star false any_char; lit "}"])).
      intros c' s' Hc. injection Hc as <- <-.
      apply N.eqb_neq. intros Hc. apply Hno. rewrite <- Hc. left. }
    cbn [search_from]. rewrite E. apply IH.
    intros Hin. apply Hno. right. exact Hin.
Qed.

(** X10.  A denial wins over everything else the text says: when the
    reply is free text without a brace and holds one of the denials
    ("не спам", ...) in whatever letter case, the extractor does not flag
    the message, although the same text may hold "это спам" or any of the
    spam words. *)
Theorem denial_overrides_spam_words before phrase said after :
  phrase ∈ denials ->
  same_letters said (u phrase) ->
  brace ∉ before ++ said ++ after ->
  isSpam (extract_text (before ++ said ++ after)) = JBool false.
Proof.
  intros Hin Hsame Hno.
  unfold extract_text, embedded_json.
  rewrite (search_json_none _ Hno).
  cbn [keyword_path isSpam]. f_equal. unfold keyword_isSpam.
  rewrite test_here; [reflexivity|].
  change re_not_spam with (alts (map liti denials)).
  apply (rx_alts_some _ (liti phrase)).
  - apply list_elem_of_fmap. exists phrase. split; [reflexivity | exact Hin].
  - unfold liti. rewrite (rx_liti (u phrase) said after _ _ Hsame). eauto.
Qed.

Lemma denial_overrides_spam_words_witness :
  isSpam (extract_text (u "Это спам? Нет, это " ++ u "НЕ СПАМ"
                          ++ u ", хотя и реклама."))
  = JBool false.
Proof.
  apply (denial_overrides_spam_words _ "не спам").
  - right. left.
  - vm_compute. reflexivity.
  - apply (bool_decide_unpack _). vm_compute. exact I.
Defined.

(** ** The gateway: the streaming operation *)

Lemma split_newline_nonempty cur s : split_newline cur s <> [].
Proof.
  revert cur. induction s as [|c s IH]; intros cur; simpl; [discriminate|].
  destruct (c =? 10)%N; [discriminate | apply IH].
Qed.

Lemma removelast_cons_nonempty {A} (x : A) l :
  l <> [] -> removelast (x :: l) = x :: removelast l.
Proof. destruct l; [congruence | reflexivity]. Qed.

Lemma last_cons_nonempty {A} (x : A) l : l <> [] -> last (x :: l) = last l.
Proof. destruct l; [congruence | reflexivity]. Qed.

Lemma elem_of_rev_1 (c : N) l : c ∈ rev l -> c ∈ l.
Proof. rewrite !list_elem_of_In. apply in_rev. Qed.

(** The element popped holds no line break. *)
Lemma pop_no_newline cur s :
  10%N ∉ cur -> 10%N ∉ (pop (split_newline cur s)).2.
Proof.
  revert cur. induction s as [|c s IH]; intros cur Hcur; simpl.
  - intros H. apply Hcur. apply elem_of_rev_1. exact H.
  - destruct (c =? 10)%N eqn:E.
    + unfold pop in *. cbn [snd] in *.
      rewrite last_cons_nonempty by apply split_newline_nonempty.
      apply IH. apply not_elem_of_nil.
    + apply IH. intros H. apply elem_of_cons in H as [H|H]; [|auto].
      apply N.eqb_neq in E. congruence.
Qed.

Lemma split_newline_prefix p : forall cur y,
  10%N ∉ p -> split_newline cur (p ++ y) = split_newline (rev p ++ cur) y.
Proof.
  induction p as [|c p IH]; intros cur y Hp; [reflexivity|].
  cbn [app split_newline].
  destruct (c =? 10)%N eqn:E.
  - apply N.eqb_eq in E. subst c. exfalso. apply Hp. left.
  - rewrite IH by (intros H; apply Hp; right; exact H).
    cbn [rev]. rewrite <- app_assoc. reflexivity.
Qed.

Lemma split_lines_unbroken p : 10%N ∉ p -> split_lines p = [p].
Proof.
  intros Hp. unfold split_lines.
  rewrite <- (app_nil_r p) at 1. rewrite split_newline_prefix by exact Hp.
  simpl. rewrite app_nil_r, rev_involutive. reflexivity.
Qed.

Lemma split_lines_line p y :
  10%N ∉ p -> split_lines (p ++ newline ++ y) = p :: split_lines y.
Proof.
  intros Hp. unfold split_lines. rewrite split_newline_prefix by exact Hp.
  simpl. rewrite app_nil_r, rev_involutive. reflexivity.
Qed.

(** The complete lines of a text that goes on are those of its first
    part, then those of what was left of it and the rest. *)
Lemma lines_app y : forall x cur,
  10%N ∉ cur ->
  (pop (split_newline cur (x ++ y))).1
  = (pop (split_newline cur x)).1
    ++ (pop (split_lines ((pop (split_newline cur x)).2 ++ y))).1
  /\ (pop (split_newline cur (x ++ y))).2
     = (pop (split_lines ((pop (split_newline cur x)).2 ++ y))).2.
Proof.
  induction x as [|c x IH]; intros cur Hcur.
  - cbn [app split_newline pop fst snd removelast last default].
    unfold split_lines, id.
    rewrite (split_newline_prefix (rev cur) [] y)
      by (intros H; apply Hcur; apply elem_of_rev_1; exact H).
    rewrite rev_involutive, app_nil_r. split; reflexivity.
  - cbn [app split_newline]. destruct (c =? 10)%N eqn:E.
    + unfold pop in *. cbn [fst snd] in *.
      rewrite !removelast_cons_nonempty, !last_cons_nonempty
        by apply split_newline_nonempty.
      destruct (IH [] (not_elem_of_nil _)) as [H1 H2].
      rewrite H1, H2. split; reflexivity.
    + apply IH. intros H. apply elem_of_cons in H as [H|H]; [|auto].
      apply N.eqb_neq in E. congruence.
Qed.

Lemma stream_lines_app l1 l2 :
  stream_lines (l1 ++ l2)
  = if (stream_lines l1).2 then stream_lines l1
    else ((stream_lines l1).1 ++ (stream_lines l2).1, (stream_lines l2).2).
Proof.
  induction l1 as [|line l1 IH]; cbn [app stream_lines].
  - destruct (stream_lines l2); reflexivity.
  - destruct (stream_line line) as [y|]; [|reflexivity].
    rewrite IH. destruct (stream_lines l1) as [ys [|]]; cbn [fst snd];
      [reflexivity|].
    destruct (stream_lines l2). cbn [fst snd]. rewrite app_assoc. reflexivity.
Qed.

(** The generator yields what the complete lines of the whole text
    received give. *)
Lemma stream_chunks_whole chunks : forall buffer,
  10%N ∉ buffer ->
  stream_chunks buffer chunks
  = (stream_lines (pop (split_lines (buffer ++ concat chunks))).1).1.
Proof.
  induction chunks as [|chunk chunks IH]; intros buffer Hb.
  - cbn [concat stream_chunks]. rewrite app_nil_r.
    rewrite split_lines_unbroken by exact Hb. reflexivity.
  - cbn [concat stream_chunks]. rewrite app_assoc.
    destruct (lines_app (concat chunks) (buffer ++ chunk) [] (not_elem_of_nil _))
      as [H1 _].
    fold (split_lines (buffer ++ chunk)) in H1.
    fold (split_lines ((buffer ++ chunk) ++ concat chunks)) in H1.
    rewrite H1, stream_lines_app.
    pose proof (pop_no_newline [] (buffer ++ chunk) (not_elem_of_nil _)) as Hr.
    fold (split_lines (buffer ++ chunk)) in Hr.
    destruct (pop (split_lines (buffer ++ chunk))) as [lines buffer'].
    cbn [fst snd] in *.
    destruct (stream_lines lines) as [ys [|]]; cbn [fst snd]; [reflexivity|].
    rewrite (IH buffer' Hr). reflexivity.
Qed.

Lemma generateContentStream_whole chunks :
  generateContentStream chunks
  = (stream_lines (pop (split_lines (concat chunks))).1).1.
Proof. apply (stream_chunks_whole chunks []), not_elem_of_nil. Qed.

(** X11.  How the response is cut into chunks does not matter: the
    generator yields the same values, in the same order, as for the
    whole text arriving in one chunk.  The chunks are the strings
    [chunk.toString()] gives, so this is about cuts between characters;
    a cut inside the bytes of one character is not represented. *)
Theorem chunk_boundaries_do_not_matter chunks :
  generateContentStream chunks = generateContentStream [concat chunks].
Proof.
  rewrite !generateContentStream_whole. cbn [concat].
  rewrite app_nil_r. reflexivity.
Qed.

(** X12.  A last line that is not ended by a line break is never
    processed: a final chunk without a line break adds nothing to what
    is yielded, also when it completes a well-formed [data: ] line. *)
Theorem unterminated_last_line_is_dropped chunks tail :
  10%N ∉ tail ->
  generateContentStream (chunks ++ [tail]) = generateContentStream chunks.
Proof.
  intros Ht. rewrite !generateContentStream_whole.
  rewrite concat_app. cbn [concat]. rewrite app_nil_r.
  destruct (lines_app tail (concat chunks) [] (not_elem_of_nil _)) as [H1 _].
  fold (split_lines (concat chunks)) in H1.
  fold (split_lines (concat chunks ++ tail)) in H1.
  rewrite H1, stream_lines_app.
  pose proof (pop_no_newline [] (concat chunks) (not_elem_of_nil _)) as Hr.
  fold (split_lines (concat chunks)) in Hr.
  destruct (pop (split_lines (concat chunks))) as [lines buffer'].
  cbn [fst snd] in *.
  rewrite split_lines_unbroken.
  - cbn. rewrite app_nil_r. destruct (stream_lines lines) as [ys [|]]; reflexivity.
  - intros H. apply elem_of_app in H as [H|H]; auto.
Qed.

Lemma unterminated_last_line_is_dropped_witness :
  generateContentStream [text_line "privet" ++ newline]
  = [YieldText (JStr "privet")]
  /\ generateContentStream ([] ++ [text_line "privet"])
     = generateContentStream [].
Proof.
  split; [vm_compute; reflexivity|].
  apply (unterminated_last_line_is_dropped [] (text_line "privet")).
  apply (bool_decide_unpack _). vm_compute. exact I.
Defined.

Lemma rest_after_newline z : forall cur,
  (pop (split_newline cur (z ++ newline))).2 = [].
Proof.
  induction z as [|c z IH]; intros cur; [reflexivity|].
  cbn [app split_newline]. destruct (c =? 10)%N; [|apply IH].
  unfold pop in *. cbn [snd] in *.
  rewrite last_cons_nonempty by apply split_newline_nonempty. apply IH.
Qed.

Lemma lines_until_done x after :
  (stream_lines (pop (split_lines ((x ++ newline) ++ done_line ++ after))).1).1
  = (stream_lines (pop (split_lines (x ++ newline))).1).1.
Proof.
  destruct (lines_app (done_line ++ after) (x ++ newline) []
                      (not_elem_of_nil _)) as [H1 _].
  fold (split_lines (x ++ newline)) in H1.
  fold (split_lines ((x ++ newline) ++ done_line ++ after)) in H1.
  rewrite H1, stream_lines_app.
  rewrite (rest_after_newline x [] : (pop (split_lines (x ++ newline))).2 = []).
  unfold done_line. cbn [app]. rewrite <- app_assoc.
  rewrite split_lines_line by (apply (bool_decide_unpack _); vm_compute; exact I).
  unfold pop. cbn [fst].
  rewrite (removelast_cons_nonempty _ (split_lines after))
    by apply split_newline_nonempty.
  change (stream_lines (u "data: [DONE]" :: removelast (split_lines after)))
    with (@nil Yielded, true).
  cbn [fst snd]. rewrite app_nil_r.
  destruct (stream_lines _) as [ys [|]]; reflexivity.
Qed.

(** X13.  Nothing is yielded after the line [data: [DONE]]: what follows
    it in the response, in the same chunk or in later ones, does not
    change what the generator yields. *)
Theorem nothing_is_yielded_after_done before after :
  generateContentStream (before ++ [newline ++ done_line] ++ after)
  = generateContentStream (before ++ [newline])
  /\ generateContentStream ([done_line] ++ after) = [].
Proof.
  split.
  - rewrite !generateContentStream_whole, !concat_app. cbn [concat].
    rewrite !app_nil_r, <- !app_assoc.
    rewrite (app_assoc (concat before) newline).
    apply lines_until_done.
  - rewrite generateContentStream_whole. cbn [concat app].
    unfold done_line. rewrite <- app_assoc.
    rewrite split_lines_line by (apply (bool_decide_unpack _); vm_compute; exact I).
    unfold pop. cbn [fst].
    rewrite removelast_cons_nonempty by apply split_newline_nonempty.
    reflexivity.
Qed.

(** ** The gateway: the plain operation *)

(** Whether reading a part of the reply throws does not depend on the
    field that is read. *)
Lemma candidate_part_throws data f g :
  candidate_part data f = None <-> candidate_part data g = None.
Proof.
  unfold candidate_part.
  destruct (prop data "candidates") as [candidates|]; simpl; [|tauto].
  destruct (truthy candidates); [|split; discriminate].
  destruct (first candidates) as [c0|]; simpl; [|tauto].
  destruct (prop c0 "content"); simpl; [split; discriminate | tauto].
Qed.

(** X14.  The plain operation and the generator read a reply payload
    alike: on the same payload [generateContent] returns a value exactly
    when the generator yields one, and the same value, except that for a
    part holding both a text and a function call the plain operation
    returns the call and the generator yields the text. *)
Theorem plain_and_streamed_replies_agree dataStr data :
  JSON_parse dataStr = Some data ->
  match candidate_part data "text", candidate_part data "functionCall" with
  | Some text, Some functionCall =>
    if truthy text && truthy functionCall
    then stream_data dataStr = Some (YieldText text)
         /\ generateContent (HttpOk data) = Some (YieldCall functionCall)
    else stream_data dataStr = generateContent (HttpOk data)
  | _, _ => stream_data dataStr = None /\ generateContent (HttpOk data) = None
  end.
Proof.
  intros Hp. unfold stream_data, generateContent. rewrite Hp.
  cbn [mbind option_bind].
  pose proof (candidate_part_throws data "text" "functionCall") as Ht.
  destruct (candidate_part data "text") as [t|];
    destruct (candidate_part data "functionCall") as [fc|];
    cbn [mbind option_bind].
  - destruct (truthy t), (truthy fc); cbn [andb]; auto.
  - destruct Ht as [_ Ht]. discriminate (Ht eq_refl).
  - destruct Ht as [Ht _]. discriminate (Ht eq_refl).
  - auto.
Qed.

Lemma plain_and_streamed_replies_agree_witness :
  stream_data (drop 6 (text_line "privet"))
  = generateContent (HttpOk (text_reply "privet")).
Proof.
  exact (plain_and_streamed_replies_agree
           (drop 6 (text_line "privet")) (text_reply "privet") eq_refl).
Defined.

(** ** The gateway: prompts written by the operator *)

Lemma rx_lit_of cs : forall s cap k,
  rx (fold_right (fun c r => Cat (Class (N.eqb c)) r) Eps cs) s cap k
  = if starts_with cs s then k (drop (length cs) s) cap else None.
Proof.
  induction cs as [|c cs IH]; intros s cap k; [reflexivity|].
  cbn [fold_right rx]. destruct s as [|d s]; [reflexivity|].
  cbn [starts_with length drop]. destruct (c =? d)%N; [apply IH | reflexivity].
Qed.

Lemma match_here_placeholder name s :
  match_here (placeholder name) s
  = if starts_with (variable name) s
    then Some (drop (length (variable name)) s, None) else None.
Proof. unfold match_here, placeholder, lit. apply rx_lit_of. Qed.

Lemma starts_with_app p b : starts_with p (p ++ b) = true.
Proof.
  induction p as [|c p IH]; [reflexivity|].
  cbn [app starts_with]. rewrite N.eqb_refl. exact IH.
Qed.

Lemma starts_with_take p : forall f b,
  starts_with (take (length f) p) f = false -> starts_with p (f ++ b) = false.
Proof.
  induction p as [|c p IH]; intros [|d f] b; cbn; try discriminate.
  destruct (c =? d)%N; [apply IH | reflexivity].
Qed.

Lemma one_dollar_inv v :
  one_dollar v = true -> exists v', v = 36%N :: v' /\ 36%N ∉ v'.
Proof.
  destruct v as [|c v']; [discriminate|]. cbn [one_dollar].
  intros H. apply andb_true_iff in H as [Hc Hv].
  apply N.eqb_eq in Hc. subst c. exists v'. split; [reflexivity|].
  intros Hin. rewrite forallb_forall in Hv.
  apply list_elem_of_In, Hv in Hin. discriminate.
Qed.

Lemma starts_with_other c v s :
  c <> 36%N -> one_dollar v = true -> starts_with v (c :: s) = false.
Proof.
  intros Hc Hv. apply one_dollar_inv in Hv as (v' & -> & _).
  cbn [starts_with]. destruct (36 =? c)%N eqn:E; [|reflexivity].
  apply N.eqb_eq in E. congruence.
Qed.

Lemma substitution_plain value matched before after :
  36%N ∉ value -> substitution value matched before after = value.
Proof.
  induction value as [|c r IH]; intros H; [reflexivity|].
  cbn [substitution]. destruct (c =? 36)%N eqn:E.
  - apply N.eqb_eq in E. subst c. exfalso. apply H. left.
  - rewrite IH; [reflexivity|]. intros Hin. apply H. right. exact Hin.
Qed.

Lemma substitution_app t r matched before after :
  36%N ∉ t ->
  substitution (t ++ r) matched before after
  = t ++ substitution r matched before after.
Proof.
  induction t as [|c t IH]; intros H; [reflexivity|].
  cbn [app substitution]. destruct (c =? 36)%N eqn:E.
  - apply N.eqb_eq in E. subst c. exfalso. apply H. left.
  - rewrite IH; [reflexivity|]. intros Hin. apply H. right. exact Hin.
Qed.

(** A text without a dollar sign is left as it is. *)
Lemma replace_loop_plain name value :
  one_dollar (variable name) = true ->
  forall n br s,
    36%N ∉ s -> replace_loop (placeholder name) value n br s = s.
Proof.
  intros Hv. induction n as [|n IH]; intros br [|c s] Hs; try reflexivity.
  cbn [replace_loop]. rewrite match_here_placeholder.
  rewrite starts_with_other; [|intros ->; apply Hs; left | exact Hv].
  rewrite IH; [reflexivity|]. intros Hin. apply Hs. right. exact Hin.
Qed.

(** Another variable is left as it is. *)
Lemma replace_loop_miss name value f b :
  one_dollar (variable name) = true ->
  one_dollar f = true ->
  36%N ∉ b ->
  starts_with (variable name) (f ++ b) = false ->
  forall a n br,
    36%N ∉ a ->
    replace_loop (placeholder name) value n br (a ++ f ++ b) = a ++ f ++ b.
Proof.
  intros Hv Hf Hb Hmiss.
  induction a as [|c a IH]; intros n br Ha.
  - cbn [app]. destruct n as [|n]; [destruct (f ++ b); reflexivity|].
    apply one_dollar_inv in Hf as (f' & -> & Hf').
    cbn [app replace_loop] in *. rewrite match_here_placeholder, Hmiss.
    rewrite replace_loop_plain; [reflexivity | exact Hv |].
    intros Hin. apply elem_of_app in Hin as [Hin|Hin]; auto.
  - cbn [app]. destruct n as [|n]; [reflexivity|].
    cbn [replace_loop]. rewrite match_here_placeholder.
    rewrite starts_with_other; [|intros ->; apply Ha; left | exact Hv].
    rewrite IH; [reflexivity|]. intros Hin. apply Ha. right. exact Hin.
Qed.

(** The variable itself is replaced by the expansion of the value. *)
Lemma replace_loop_hit name value b :
  one_dollar (variable name) = true ->
  36%N ∉ b ->
  forall a n br,
    36%N ∉ a -> length a < n ->
    replace_loop (placeholder name) value n br (a ++ variable name ++ b)
    = a ++ substitution value (variable name) (rev br ++ a) b ++ b.
Proof.
  intros Hv Hb.
  induction a as [|c a IH]; intros n br Ha Hn.
  - destruct n as [|n]; [lia|]. cbn [app]. rewrite app_nil_r.
    destruct (one_dollar_inv _ Hv) as (v' & Ev & _).
    assert (Es : variable name ++ b = 36%N :: v' ++ b) by (rewrite Ev; reflexivity).
    rewrite Es. cbn [replace_loop]. rewrite <- Es.
    rewrite match_here_placeholder, starts_with_app, drop_app_length.
    assert (Hl : (length b <? length (variable name ++ b))%nat = true).
    { apply Nat.ltb_lt. rewrite length_app, Ev. cbn [length]. lia. }
    rewrite Hl.
    assert (Et : take (length (variable name ++ b) - length b)
                      (variable name ++ b) = variable name).
    { rewrite length_app, Nat.add_sub. apply take_app_length. }
    rewrite Et. rewrite replace_loop_plain; [reflexivity | exact Hv | exact Hb].
  - destruct n as [|n]; [cbn [length] in Hn; lia|].
    cbn [app replace_loop]. rewrite match_here_placeholder.
    rewrite starts_with_other; [|intros ->; apply Ha; left | exact Hv].
    rewrite IH.
    + cbn [rev]. rewrite <- app_assoc. reflexivity.
    + intros Hin. apply Ha. right. exact Hin.
    + cbn [length] in Hn. lia.
Qed.

Lemma told_apart_one_dollar names :
  told_apart names = true ->
  Forall (fun name => one_dollar (variable name) = true) names.
Proof.
  induction names as [|name rest IH]; intros H; constructor.
  - cbn [told_apart] in H. apply andb_true_iff in H as [H _].
    apply andb_true_iff in H as [H _]. exact H.
  - apply IH. cbn [told_apart] in H. apply andb_true_iff in H as [_ H]. exact H.
Qed.

Lemma substitute_plain variables : forall prompt,
  Forall (fun name => one_dollar (variable name) = true) (map fst variables) ->
  36%N ∉ prompt -> substitute variables prompt = prompt.
Proof.
  unfold substitute.
  induction variables as [|[name value] rest IH]; intros prompt Hv Hp;
    [reflexivity|].
  cbn [fold_left fst snd]. cbn [map fst] in Hv. inversion Hv as [|? ? H1 H2]; subst.
  unfold replace_global. rewrite replace_loop_plain by assumption.
  apply IH; assumption.
Qed.

(** In a prompt that holds one variable and no other dollar sign, the
    variable is replaced by the expansion of its value, if that holds
    no dollar sign. *)
Lemma substitute_one l1 : forall name value l2 a b,
  told_apart (map fst (l1 ++ (name, value) :: l2)) = true ->
  36%N ∉ a -> 36%N ∉ b ->
  36%N ∉ substitution value (variable name) a b ->
  substitute (l1 ++ (name, value) :: l2) (a ++ variable name ++ b)
  = a ++ substitution value (variable name) a b ++ b.
Proof.
  induction l1 as [|[other v] l1 IH]; intros name value l2 a b Ht Ha Hb He.
  - cbn [app map fst told_apart] in Ht.
    apply andb_true_iff in Ht as [Ht Hrest].
    apply andb_true_iff in Ht as [Hv _].
    cbn [app]. unfold substitute. cbn [fold_left fst snd].
    unfold replace_global.
    rewrite replace_loop_hit; [|exact Hv | exact Hb | exact Ha|].
    + apply substitute_plain; [apply told_apart_one_dollar, Hrest|].
      cbn [rev app]. intros Hin.
      apply elem_of_app in Hin as [Hin|Hin]; [auto|].
      apply elem_of_app in Hin as [Hin|Hin]; auto.
    + destruct (one_dollar_inv _ Hv) as (v' & -> & _).
      rewrite !length_app. cbn [length]. lia.
  - cbn [app map fst told_apart] in Ht.
    apply andb_true_iff in Ht as [Ht Hrest].
    apply andb_true_iff in Ht as [Hv Hothers].
    rewrite forallb_forall in Hothers.
    assert (Hin : In name (map fst (l1 ++ (name, value) :: l2))).
    { rewrite map_app. apply in_or_app. right. left. reflexivity. }
    apply Hothers, negb_true_iff in Hin.
    assert (Hname : one_dollar (variable name) = true).
    { pose proof (told_apart_one_dollar _ Hrest) as HF.
      rewrite Forall_forall in HF. apply HF.
      rewrite map_app. apply elem_of_app. right. left. }
    cbn [app]. unfold substitute. cbn [fold_left fst snd].
    unfold replace_global.
    rewrite replace_loop_miss;
      [|exact Hv | exact Hname | exact Hb | apply starts_with_take, Hin | exact Ha].
    apply IH; assumption.
Qed.

Lemma processPromptVariables_substitute model date prompt single batch :
  processPromptVariables model date prompt single batch
  = substitute (all_variables model date single batch) prompt.
Proof.
  unfold processPromptVariables, all_variables, substitute.
  rewrite !fold_left_app.
  destruct single, batch; reflexivity.
Qed.

Lemma all_variables_told_apart model date single batch :
  told_apart (map fst (all_variables model date single batch)) = true.
Proof. destruct single, batch; reflexivity. Qed.

(** X15.  A prompt without a dollar sign is sent as it was written,
    whatever the message or the batch. *)
Theorem prompt_without_dollar_is_unchanged model date prompt single batch :
  36%N ∉ prompt ->
  processPromptVariables model date prompt single batch = prompt.
Proof.
  intros Hp. rewrite processPromptVariables_substitute.
  apply substitute_plain; [|exact Hp].
  apply told_apart_one_dollar, all_variables_told_apart.
Qed.

Lemma prompt_without_dollar_is_unchanged_witness :
  processPromptVariables "gemini-2.0-flash" "2025-01-01T00:00:00.000Z"
    (u "Is this message spam?") (Some quoting_request) [quoting_request]
  = u "Is this message spam?".
Proof.
  apply prompt_without_dollar_is_unchanged.
  apply (bool_decide_unpack _). vm_compute. exact I.
Defined.

(** X16.  In a prompt that holds one variable and no other dollar sign,
    the variable is replaced by its value: the text, name, bio and
    reason of the message or the empty text, [true] or [false] for the
    two flags with [false] when absent, the identifiers in decimal with
    0 when absent, the batch text and the number of messages.  The value
    is expanded as a replacement pattern (without a dollar sign it stands
    for itself) and must leave no dollar sign. *)
Theorem variable_is_replaced_by_its_value
    model date single batch name value a b :
  (name, value) ∈ all_variables model date single batch ->
  36%N ∉ a -> 36%N ∉ b ->
  36%N ∉ substitution value (variable name) a b ->
  processPromptVariables model date (a ++ variable name ++ b) single batch
  = a ++ substitution value (variable name) a b ++ b.
Proof.
  intros Hin Ha Hb He. rewrite processPromptVariables_substitute.
  destruct (list_elem_of_split _ _ Hin) as (l1 & l2 & E).
  rewrite E. apply substitute_one; try assumption.
  rewrite <- E. apply all_variables_told_apart.
Qed.

Lemma variable_is_replaced_by_its_value_witness :
  processPromptVariables "gemini-2.0-flash" "2025-01-01T00:00:00.000Z"
    (u "From: " ++ variable "userName" ++ u ".") (Some quoting_request) []
  = u "From: Bob.".
Proof.
  apply (variable_is_replaced_by_its_value
           "gemini-2.0-flash" "2025-01-01T00:00:00.000Z"
           (Some quoting_request) [] "userName" (u "Bob")
           (u "From: ") (u ".")).
  - apply list_elem_of_In. vm_compute. right. right. right. left. reflexivity.
  - apply (bool_decide_unpack _). vm_compute. exact I.
  - apply (bool_decide_unpack _). vm_compute. exact I.
  - apply (bool_decide_unpack _). vm_compute. exact I.
Defined.

Lemma substitution_variable name t matched before after :
  one_dollar (variable name) = true ->
  starts_with [36%N; 123%N] (variable name) = true ->
  36%N ∉ t ->
  substitution (variable name ++ t) matched before after = variable name ++ t.
Proof.
  intros Hv Hb Ht. destruct (one_dollar_inv _ Hv) as (v' & E & Hv').
  rewrite E in *. destruct v' as [|d v']; [discriminate|].
  cbn [starts_with] in Hb. apply andb_true_iff in Hb as [_ Hb].
  apply andb_true_iff in Hb as [Hd _]. apply N.eqb_eq in Hd. subst d.
  cbn [app substitution N.eqb Pos.eqb]. f_equal. f_equal.
  apply substitution_plain. intros Hin.
  apply elem_of_app in Hin as [Hin|Hin]; [|auto].
  apply Hv'. right. exact Hin.
Qed.

(** X17.  The replacements run one after another on the prompt as it
    stands, so a variable quoted inside the text of the message is
    expanded as well: with the text [t1 ${name} t2], for a variable
    replaced after [messageText], the prompt gets [t1 value t2]. *)
Theorem variable_quoted_in_the_message_is_expanded
    model date m name value a t1 t2 b :
  (name, value) ∈ tail (single_variables m) ->
  u (messageText m) = t1 ++ variable name ++ t2 ->
  36%N ∉ a -> 36%N ∉ t1 -> 36%N ∉ value -> 36%N ∉ t2 -> 36%N ∉ b ->
  processPromptVariables model date (a ++ variable "messageText" ++ b)
                         (Some m) []
  = a ++ t1 ++ value ++ t2 ++ b.
Proof.
  intros Hin Hm Ha H1 Hv H2 Hb.
  assert (Hnames : Forall (fun n => one_dollar (variable n) = true
                                    /\ starts_with [36%N; 123%N] (variable n) = true)
                          (map fst (tail (single_variables m))))
    by (repeat constructor).
  rewrite Forall_forall in Hnames.
  destruct (Hnames name) as [Hone Hbrace].
  { apply list_elem_of_fmap. exists (name, value). split; [reflexivity | exact Hin]. }
  unfold processPromptVariables. cbv beta zeta iota.
  change (single_variables m)
    with (("messageText", u (messageText m)) :: tail (single_variables m)).
  unfold substitute. cbn [fold_left fst snd]. unfold replace_global.
  rewrite (replace_loop_miss "model")
    by (assumption || (apply starts_with_take; reflexivity) || reflexivity).
  rewrite (replace_loop_miss "date")
    by (assumption || (apply starts_with_take; reflexivity) || reflexivity).
  rewrite (replace_loop_hit "messageText")
    by (assumption || reflexivity
        || (rewrite !length_app;
            change (length (variable "messageText")) with 14; lia)).
  rewrite Hm. cbn [rev app].
  rewrite substitution_app, substitution_variable by assumption.
  destruct (list_elem_of_split _ _ Hin) as (l1 & l2 & E).
  change (fold_left _ ?l ?p) with (substitute l p).
  rewrite E.
  replace (a ++ (t1 ++ variable name ++ t2) ++ b)
    with ((a ++ t1) ++ variable name ++ (t2 ++ b))
    by (rewrite <- !app_assoc; reflexivity).
  assert (Hs : substitution value (variable name) (a ++ t1) (t2 ++ b) = value)
    by (apply substitution_plain, Hv).
  rewrite substitute_one; rewrite ?Hs.
  - rewrite <- !app_assoc. reflexivity.
  - exact (eq_trans (f_equal (fun l => told_apart (map fst l)) (eq_sym E))
                    eq_refl).
  - intros H. apply elem_of_app in H as [H|H]; auto.
  - intros H. apply elem_of_app in H as [H|H]; auto.
  - exact Hv.
Qed.

Lemma variable_quoted_in_the_message_is_expanded_witness :
  processPromptVariables "gemini-2.0-flash" "2025-01-01T00:00:00.000Z"
    (u "Message: " ++ variable "messageText" ++ []) (Some quoting_request) []
  = u "Message: " ++ u "hi " ++ u "Bob" ++ u "!" ++ [].
Proof.
  apply (variable_quoted_in_the_message_is_expanded
           "gemini-2.0-flash" "2025-01-01T00:00:00.000Z"
           quoting_request "userName").
  - left.
  - vm_compute. reflexivity.
  - apply (bool_decide_unpack _). vm_compute. exact I.
  - apply (bool_decide_unpack _). vm_compute. exact I.
  - apply (bool_decide_unpack _). vm_compute. exact I.
  - apply (bool_decide_unpack _). vm_compute. exact I.
  - apply not_elem_of_nil.
Defined.

(** ** The gateway: the operations with a prompt of the operator *)

(** X18.  A prompt of the operator changes the question only: for every
    reply, and when the call fails, the outcomes of the two operations
    with a custom prompt are those of the default operations, and their
    requests have the same function, temperature and token limit. *)
Theorem custom_prompt_changes_only_the_question
    model date customPrompt request messages http :
  moderateWithCustomPrompt request http = moderateMessage request http
  /\ moderateWithCustomPromptBatch messages http
     = moderateMessageBatch messages http
  /\ prompted_settings (moderateWithCustomPrompt_call model date request customPrompt)
     = settings (moderateMessage_call request)
  /\ prompted_settings <$> moderateWithCustomPromptBatch_call model date messages customPrompt
     = settings <$> moderateMessageBatch_call messages.
Proof.
  repeat split.
  destruct messages as [|m [|m' l]]; reflexivity.
Qed.

Lemma substitute_skip f a b :
  one_dollar f = true -> 36%N ∉ a -> 36%N ∉ b ->
  forall variables,
    forallb (fun other =>
               one_dollar (variable other)
               && negb (starts_with (take (length f) (variable other)) f))
            (map fst variables) = true ->
    substitute variables (a ++ f ++ b) = a ++ f ++ b.
Proof.
  intros Hf Ha Hb. unfold substitute.
  induction variables as [|[other v] rest IH]; intros H; [reflexivity|].
  cbn [map fst forallb] in H. apply andb_true_iff in H as [H Hrest].
  apply andb_true_iff in H as [Ho Hm]. apply negb_true_iff in Hm.
  cbn [fold_left fst snd]. unfold replace_global.
  rewrite replace_loop_miss by (assumption || apply starts_with_take, Hm).
  apply IH, Hrest.
Qed.

(** X19.  The variables of the other mode are left unexpanded: for a
    batch of one message the request is that of the single-message
    operation, so [${messages}] and [${messageCount}] stay in the prompt
    sent, and for a larger batch the variables of a single message
    stay. *)
Theorem variables_of_the_other_mode_stay model date m m' l name a b :
  36%N ∉ a -> 36%N ∉ b ->
  (name ∈ ["messages"; "messageCount"] ->
   sentPrompt <$> moderateWithCustomPromptBatch_call
                    model date [m] (a ++ variable name ++ b)
   = Some (a ++ variable name ++ b))
  /\ (name ∈ map fst (single_variables m) ->
      sentPrompt <$> moderateWithCustomPromptBatch_call
                       model date (m :: m' :: l) (a ++ variable name ++ b)
      = Some (a ++ variable name ++ b)).
Proof.
  intros Ha Hb. split; intros Hin;
    cbn [moderateWithCustomPromptBatch_call moderateWithCustomPrompt_call
         fmap option_fmap option_map sentPrompt];
    f_equal; rewrite processPromptVariables_substitute;
    cbn [single_variables map fst] in Hin;
    repeat (apply elem_of_cons in Hin as [->|Hin]);
    try (apply elem_of_nil in Hin as []);
    apply substitute_skip; try assumption; reflexivity.
Qed.

Lemma variables_of_the_other_mode_stay_witness :
  sentPrompt <$> moderateWithCustomPromptBatch_call
                   "gemini-2.0-flash" "2025-01-01T00:00:00.000Z"
                   [quoting_request]
                   (u "Messages: " ++ variable "messageCount" ++ u ".")
  = Some (u "Messages: " ++ variable "messageCount" ++ u ".").
Proof.
  refine (proj1 (variables_of_the_other_mode_stay
                   "gemini-2.0-flash" "2025-01-01T00:00:00.000Z"
                   quoting_request quoting_request [] "messageCount"
                   (u "Messages: ") (u ".") _ _) _).
  - apply (bool_decide_unpack _). vm_compute. exact I.
  - apply (bool_decide_unpack _). vm_compute. exact I.
  - right. left.
Defined.

(** ** The caller: what the bot does with an outcome *)

Lemma conservative_not_acted_on r threshold :
  is_conservative r -> acts_on r threshold = false.
Proof. intros (E & _). unfold acts_on. rewrite E. reflexivity. Qed.

Lemma failed_call_conservative messages :
  length (moderateMessageBatch messages HttpError) = length messages
  /\ Forall is_conservative (moderateMessageBatch messages HttpError).
Proof.
  destruct messages as [|m [|m' l]].
  - split; [reflexivity | constructor].
  - split; [reflexivity|]. repeat constructor.
  - split; [apply safe_batch_length | apply safe_batch_conservative].
Qed.

(** X20.  A failed call never costs a message: when the call of a
    flushed batch fails, the caller that is answered gets the
    conservative default, and the bot does not act on it (no deletion,
    no ban), whatever its confidence threshold; the same holds for the
    operation with a custom prompt, which the bot calls directly. *)
Theorem failed_call_never_deletes cfg st cid call st' request threshold :
  reachable cfg st ->
  calls st !! cid = Some call ->
  httpReturns cid HttpError st = Some st' ->
  (exists r,
      promises st' !! h_promise (cont_handler (c_then call)) = Some (Resolved r)
      /\ is_conservative r /\ acts_on r threshold = false)
  /\ acts_on (moderateWithCustomPrompt request HttpError) threshold = false.
Proof.
  intros R Hcall Hret. split; [|reflexivity].
  assert (C := reachable_coherent cfg st R).
  destruct (coh_call st C _ _ Hcall) as (_&Hapi&Hpend&Hidx).
  unfold httpReturns in Hret. rewrite Hcall in Hret. simpl in Hret.
  injection Hret as <-.
  assert (Hne : length (c_messages call) <> 0)
    by (destruct (c_messages call); [discriminate | simpl; lia]).
  match goal with |- context [run_continuation ?k ?n ?rs ?s] =>
    assert (Hv := run_continuation_pending k n rs s Hne Hpend) end.
  destruct (failed_call_conservative (c_messages call)) as [Hlen Hall].
  assert (Hi : h_index (cont_handler (c_then call)) < length (c_messages call))
    by (destruct (c_then call); simpl in *; lia).
  rewrite <- Hlen in Hi. apply lookup_lt_is_Some_2 in Hi as [r Hr].
  exists r. rewrite Hv. unfold verdict. rewrite Hr.
  assert (Hc : is_conservative r) by (eapply Forall_lookup_1; eassumption).
  split; [reflexivity|]. split; [exact Hc|].
  apply conservative_not_acted_on, Hc.
Qed.

Lemma failed_call_never_deletes_witness :
  exists st' r,
    httpReturns 0 HttpError busy_state = Some st'
    /\ promises st' !! 1 = Some (Resolved r)
    /\ acts_on r (Fin (7 # 10)) = false.
Proof.
  destruct (httpReturns 0 HttpError busy_state) as [st'|] eqn:E;
    [|vm_compute in E; discriminate].
  destruct (failed_call_never_deletes (mkConfig 3000 2) busy_state 0 _ st'
              (plain_request "hello" 7) (Fin (7 # 10))
              busy_state_reachable busy_state_call E)
    as [(r & Hr & _ & Ha) _].
  exists st', r. split; [reflexivity|]. split; [exact Hr | exact Ha].
Defined.

(** ** The batch timeout *)





